(** * Smoothieware motion core: StepTicker and Stepper

    A shallow embedding of [src/libs/StepTicker.cpp] and
    [src/modules/robot/Stepper.cpp], followed by the properties of the
    step ticker's interrupt handler, of its active-motor list and of the
    trapezoid generator, and by further properties of the two files: the
    paths of the handler, the loops it runs, the start and the end of a
    block, pause and play, and the gcodes of the enable pins.

    Conventions.
    - A [uint32_t] / [uint64_t] is a [Z] with its wrap-around written out
      ([wrap32], [wrap64]); a [float] is an IEEE-754 binary32 value of
      the standard library's [SpecFloat].
    - A [StepperMotor*] is an address [ptr]; the motor objects live in a
      store ([gmap ptr StepperMotor]) so that two slots holding the same
      pointer designate the same object.
    - A function returns [None] where the C++ has undefined behaviour
      (indexing a [std::vector] past its end, dereferencing a pointer
      that designates no motor, dividing by zero) and where a loop
      modelled with fuel runs out of it.
    - Calls that leave the two files (pins, hooks, the block's reference
      count, the event bus, other timers) are recorded, in order, in a
      list of events. *)

From Stdlib Require Import ZArith Lia List Bool Ascii.
From Stdlib Require Import Floats.SpecFloat.
From stdpp Require Import base option list gmap.
Import ListNotations.

#[local] Open Scope Z_scope.

(** ** Machine integers *)

Definition wrap8 (z : Z) : Z := z mod 2 ^ 8.
Definition wrap16 (z : Z) : Z := z mod 2 ^ 16.
Definition wrap32 (z : Z) : Z := z mod 2 ^ 32.
Definition wrap64 (z : Z) : Z := z mod 2 ^ 64.

(** [(int)x] for a 32-bit [x]: two's complement, as the target's compiler
    converts and subtracts. *)
Definition to_int32 (z : Z) : Z :=
  let w := wrap32 z in if w <? 2 ^ 31 then w else w - 2 ^ 32.

(** ** Single-precision floats *)

Abbreviation float := spec_float.

Definition f_prec : Z := 24.
Definition f_emax : Z := 128.

Definition f_add : float -> float -> float := SFadd f_prec f_emax.
Definition f_sub : float -> float -> float := SFsub f_prec f_emax.
Definition f_mul : float -> float -> float := SFmul f_prec f_emax.
Definition f_div : float -> float -> float := SFdiv f_prec f_emax.
Definition f_lt : float -> float -> bool := SFltb.
Definition f_eq : float -> float -> bool := SFeqb.
Definition f_le : float -> float -> bool := SFleb.
(** [a > b] is [b < a]; [a != b] is [!(a == b)]. *)
Definition f_gt (a b : float) : bool := f_lt b a.
Definition f_ne (a b : float) : bool := negb (f_eq a b).

(** [(float)n] for an unsigned integer [n]. *)
Definition f_of_Z (n : Z) : float := binary_normalize f_prec f_emax n 0 false.

Definition F0_0 : float := S754_zero false.
Definition F0_5 : float := Eval vm_compute in binary_normalize f_prec f_emax 1 (-1) false.
Definition F1_5 : float := Eval vm_compute in binary_normalize f_prec f_emax 3 (-1) false.

(** ** Motors *)

Abbreviation ptr := N.

(** The fields of [StepperMotor] that the two files read or write
    (the class is declared in StepperMotor.h). *)
Record StepperMotor : Type := mkStepperMotor {
  steps_to_move : Z;
  stepped : Z;
  fx_counter : Z;
  fx_ticks_per_step : Z;
  direction : bool;
  moving : bool;
  is_move_finished : bool;
  rate_ratio : float
}.

Definition set_fx_counter (v : Z) (m : StepperMotor) : StepperMotor :=
  mkStepperMotor (steps_to_move m) (stepped m) v (fx_ticks_per_step m)
    (direction m) (moving m) (is_move_finished m) (rate_ratio m).

Definition set_stepped (v : Z) (m : StepperMotor) : StepperMotor :=
  mkStepperMotor (steps_to_move m) v (fx_counter m) (fx_ticks_per_step m)
    (direction m) (moving m) (is_move_finished m) (rate_ratio m).

Definition set_is_move_finished (b : bool) (m : StepperMotor) : StepperMotor :=
  mkStepperMotor (steps_to_move m) (stepped m) (fx_counter m) (fx_ticks_per_step m)
    (direction m) (moving m) b (rate_ratio m).

Definition set_rate_ratio (r : float) (m : StepperMotor) : StepperMotor :=
  mkStepperMotor (steps_to_move m) (stepped m) (fx_counter m) (fx_ticks_per_step m)
    (direction m) (moving m) (is_move_finished m) r.

(** Modelled from the spec: [StepperMotor::move] (StepperMotor.cpp is not
    among the sources). "set direction, set steps_to_move = steps, zero
    stepped and fx_counter, set moving = (steps > 0)". What the spec adds
    for [steps == 0], the end-of-move signal, is a call out of the motor;
    the callers below record the call to [move] itself. Two effects of the
    call are thus outside this function: that signal, and the motor's
    entry into the ticker's active set, which the spec's invariant on the
    active set implies; where the stepper's state carries
    [active_motor_bm], a call to [move] leaves it as it is. *)
Definition StepperMotor_move (dir : bool) (steps : Z) (m : StepperMotor) : StepperMotor :=
  mkStepperMotor steps 0 0 (fx_ticks_per_step m)
    dir (0 <? steps) (is_move_finished m) (rate_ratio m).

(** Modelled from the spec: [StepperMotor::tick] (StepperMotor.cpp is not
    among the sources). "1. Add 1 << 32 to fx_counter. 2. If fx_counter >=
    fx_ticks_per_step, assert the physical step pin, set the ticker's
    reset_step_pins flag, increment stepped, subtract fx_ticks_per_step
    from fx_counter. 3. If stepped == steps_to_move, set is_move_finished
    = true, set the ticker's moves_finished flag."
    The result is the motor, whether the step pin was asserted, and
    whether the move finished. *)
Definition StepperMotor_tick (m : StepperMotor) : StepperMotor * bool * bool :=
  let c := wrap64 (fx_counter m + Z.shiftl 1 32) in
  let pulse := fx_ticks_per_step m <=? c in
  let m1 :=
    if pulse
    then set_stepped (wrap32 (stepped m + 1))
           (set_fx_counter (wrap64 (c - fx_ticks_per_step m)) m)
    else set_fx_counter c m in
  let fin := stepped m1 =? steps_to_move m1 in
  ((if fin then set_is_move_finished true m1 else m1), pulse, fin).

(** ** The step ticker (StepTicker.cpp) *)

Module StepTicker.

(** Flags of the LPC17xx timer. *)
Definition MCR_MR0I : Z := Z.shiftl 1 0.
Definition MCR_MR0R : Z := Z.shiftl 1 1.
Definition MCR_MR0S : Z := Z.shiftl 1 2.
Definition MCR_MR1I : Z := Z.shiftl 1 3.
Definition MCR_MR1R : Z := Z.shiftl 1 4.
Definition MCR_MR1S : Z := Z.shiftl 1 5.
Definition TCR_ENABLE : Z := Z.shiftl 1 0.
Definition TCR_RESET : Z := Z.shiftl 1 1.

(** [~x] on 32 bits. *)
Definition not32 (x : Z) : Z := wrap32 (Z.lnot x).

(** What the ticker does to the world outside its own fields: stores to
    the registers of timer 0 and calls on the motors. *)
Inductive Event : Type :=
| WriteIR (v : Z)
| WriteMCR (v : Z)
| WriteTCR (v : Z)
| WriteMR0 (v : Z)
| Unstep (p : ptr)
| Tick (p : ptr)
| StepPin (p : ptr)
| SignalMoveFinished (p : ptr).

(** The ticker's fields, the registers of [LPC_TIM0] other than the
    running counter [TC], and the motor objects. *)
Record t : Type := mk {
  period : Z;
  last_duration : Z;
  active_motor_bm : Z;
  stepper_motors : list ptr;
  moves_finished : bool;
  reset_step_pins : bool;
  IR : Z;
  MCR : Z;
  TCR : Z;
  MR0 : Z;
  MR1 : Z;
  motors : gmap ptr StepperMotor
}.

Definition set_period (v : Z) (s : t) : t :=
  mk v (last_duration s) (active_motor_bm s) (stepper_motors s) (moves_finished s)
     (reset_step_pins s) (IR s) (MCR s) (TCR s) (MR0 s) (MR1 s) (motors s).
Definition set_last_duration (v : Z) (s : t) : t :=
  mk (period s) v (active_motor_bm s) (stepper_motors s) (moves_finished s)
     (reset_step_pins s) (IR s) (MCR s) (TCR s) (MR0 s) (MR1 s) (motors s).
Definition set_active_motor_bm (v : Z) (s : t) : t :=
  mk (period s) (last_duration s) v (stepper_motors s) (moves_finished s)
     (reset_step_pins s) (IR s) (MCR s) (TCR s) (MR0 s) (MR1 s) (motors s).
Definition set_stepper_motors (v : list ptr) (s : t) : t :=
  mk (period s) (last_duration s) (active_motor_bm s) v (moves_finished s)
     (reset_step_pins s) (IR s) (MCR s) (TCR s) (MR0 s) (MR1 s) (motors s).
Definition set_moves_finished (v : bool) (s : t) : t :=
  mk (period s) (last_duration s) (active_motor_bm s) (stepper_motors s) v
     (reset_step_pins s) (IR s) (MCR s) (TCR s) (MR0 s) (MR1 s) (motors s).
Definition set_reset_step_pins (v : bool) (s : t) : t :=
  mk (period s) (last_duration s) (active_motor_bm s) (stepper_motors s) (moves_finished s)
     v (IR s) (MCR s) (TCR s) (MR0 s) (MR1 s) (motors s).
Definition set_IR (v : Z) (s : t) : t :=
  mk (period s) (last_duration s) (active_motor_bm s) (stepper_motors s) (moves_finished s)
     (reset_step_pins s) v (MCR s) (TCR s) (MR0 s) (MR1 s) (motors s).
Definition set_MCR (v : Z) (s : t) : t :=
  mk (period s) (last_duration s) (active_motor_bm s) (stepper_motors s) (moves_finished s)
     (reset_step_pins s) (IR s) v (TCR s) (MR0 s) (MR1 s) (motors s).
Definition set_TCR (v : Z) (s : t) : t :=
  mk (period s) (last_duration s) (active_motor_bm s) (stepper_motors s) (moves_finished s)
     (reset_step_pins s) (IR s) (MCR s) v (MR0 s) (MR1 s) (motors s).
Definition set_MR0 (v : Z) (s : t) : t :=
  mk (period s) (last_duration s) (active_motor_bm s) (stepper_motors s) (moves_finished s)
     (reset_step_pins s) (IR s) (MCR s) (TCR s) v (MR1 s) (motors s).
Definition set_MR1 (v : Z) (s : t) : t :=
  mk (period s) (last_duration s) (active_motor_bm s) (stepper_motors s) (moves_finished s)
     (reset_step_pins s) (IR s) (MCR s) (TCR s) (MR0 s) v (motors s).
Definition set_motors (v : gmap ptr StepperMotor) (s : t) : t :=
  mk (period s) (last_duration s) (active_motor_bm s) (stepper_motors s) (moves_finished s)
     (reset_step_pins s) (IR s) (MCR s) (TCR s) (MR0 s) (MR1 s) v.

(** [StepTicker::set_frequency]. The period that the function computes in
    floating point from the frequency is taken as [new_period]; [tc] is
    the counter as the comparison reads it. *)
Definition set_frequency (new_period tc : Z) (s : t) : list Event * t :=
  let s1 := set_MR0 new_period (set_period new_period s) in
  if MR0 s1 <? tc
  then ([WriteMR0 new_period; WriteTCR (Z.lor TCR_ENABLE TCR_RESET); WriteTCR TCR_ENABLE],
        set_TCR TCR_ENABLE s1)
  else ([WriteMR0 new_period], s1).

(** [StepTicker::StepTicker]; [period0] and [mr1_0] stand for what
    [set_frequency(0.001)] and [set_reset_delay(100)] compute. *)
Definition new (period0 mr1_0 tc : Z) : t :=
  let s := mk 0 0 0 [] false false 0 (Z.lor MCR_MR0I MCR_MR0R) 0 10000000 0 ∅ in
  let s := snd (set_frequency period0 tc s) in
  set_active_motor_bm 0 (set_last_duration 0 (set_MR1 mr1_0 s)).

(** [StepTicker::add_stepper_motor]: [push_back]. *)
Definition add_stepper_motor (p : ptr) (m : StepperMotor) (s : t) : t :=
  set_motors (<[p := m]> (motors s)) (set_stepper_motors (stepper_motors s ++ [p]) s).

(** [this->active_motor_bm & bm] as a condition. *)
Definition bm_test (s : t) (bm : Z) : bool := negb (Z.land (active_motor_bm s) bm =? 0).

(** [StepTicker::add_motor_to_active_list]: the loop
    [for (i = 0, bm = 1; i < 12; i++, bm <<= 1)], with [n] iterations
    left. [stepper_motors[i]] past the end of the vector is undefined. *)
Fixpoint add_loop (motor : ptr) (reinit : bool) (n i : nat) (bm : Z) (s : t)
  : option (list Event * t) :=
  match n with
  | O => Some ([], s)
  | S n' =>
    match stepper_motors s !! i with
    | None => None
    | Some p =>
      if N.eqb p motor then
        let s1 := set_active_motor_bm (Z.lor (active_motor_bm s) bm) s in
        if reinit then
          let mcr := Z.land (MCR s1) (not32 (Z.lor MCR_MR1R MCR_MR1S)) in
          Some ([WriteMCR mcr; WriteTCR (Z.lor TCR_ENABLE TCR_RESET); WriteTCR TCR_ENABLE],
                set_TCR TCR_ENABLE (set_MCR mcr s1))
        else Some ([], s1)
      else add_loop motor reinit n' (S i) (wrap32 (Z.shiftl bm 1)) s
    end
  end.

Definition add_motor_to_active_list (motor : ptr) (s : t) : option (list Event * t) :=
  let reinit := active_motor_bm s =? 0 in
  add_loop motor reinit 12 0 1 s.

(** [StepTicker::remove_motor_from_active_list]. *)
Fixpoint remove_loop (motor : ptr) (n i : nat) (bm : Z) (s : t)
  : option (list Event * t) :=
  match n with
  | O => Some ([], s)
  | S n' =>
    match stepper_motors s !! i with
    | None => None
    | Some p =>
      if N.eqb p motor then
        let s1 := set_active_motor_bm (Z.land (active_motor_bm s) (not32 bm)) s in
        if active_motor_bm s1 =? 0 then
          let mcr := Z.lor (MCR s1) (Z.lor MCR_MR1R MCR_MR1S) in
          Some ([WriteMCR mcr], set_MCR mcr s1)
        else Some ([], s1)
      else remove_loop motor n' (S i) (wrap32 (Z.shiftl bm 1)) s
    end
  end.

Definition remove_motor_from_active_list (motor : ptr) (s : t) : option (list Event * t) :=
  remove_loop motor 12 0 1 s.

(** [StepTicker::reset_tick]: [unstep()] on every active motor. [unstep]
    (StepperMotor.cpp) deasserts the step pin and touches no field. *)
Fixpoint reset_tick_loop (n i : nat) (bm : Z) (s : t) : option (list Event) :=
  match n with
  | O => Some []
  | S n' =>
    if bm_test s bm then
      p ← stepper_motors s !! i;
      _ ← motors s !! p;
      ev ← reset_tick_loop n' (S i) (wrap32 (Z.shiftl bm 1)) s;
      Some (Unstep p :: ev)
    else reset_tick_loop n' (S i) (wrap32 (Z.shiftl bm 1)) s
  end.

Definition reset_tick (s : t) : option (list Event) := reset_tick_loop 12 0 1 s.

(** The step loop of the handler:
    [for (uint8_t motor = 0; motor < 12; motor++, bitmask <<= 1)] with a
    [uint16_t bitmask]; [tick()] is [StepperMotor_tick], which raises the
    ticker's two flags. *)
Fixpoint tick_loop (n i : nat) (bitmask : Z) (s : t) : option (list Event * t) :=
  match n with
  | O => Some ([], s)
  | S n' =>
    if bm_test s bitmask then
      p ← stepper_motors s !! i;
      m ← motors s !! p;
      let '(m', pulse, fin) := StepperMotor_tick m in
      let s1 := set_motors (<[p := m']> (motors s)) s in
      let s2 := if pulse then set_reset_step_pins true s1 else s1 in
      let s3 := if fin then set_moves_finished true s2 else s2 in
      r ← tick_loop n' (S i) (wrap16 (Z.shiftl bitmask 1)) s3;
      Some (Tick p :: (if pulse then [StepPin p] else []) ++ fst r, snd r)
    else tick_loop n' (S i) (wrap16 (Z.shiftl bitmask 1)) s
  end.

(** [StepTicker::tick]: the same calls, with a [uint32_t] mask. The
    function brackets its loop with stores to the global [_isr_context],
    as [reset_tick] and [signal_moves_finished] do; no function of the two
    files reads it, and the stores are not recorded. *)
Fixpoint tick_each (n i : nat) (bm : Z) (s : t) : option (list Event * t) :=
  match n with
  | O => Some ([], s)
  | S n' =>
    if bm_test s bm then
      p ← stepper_motors s !! i;
      m ← motors s !! p;
      let '(m', pulse, fin) := StepperMotor_tick m in
      let s1 := set_motors (<[p := m']> (motors s)) s in
      let s2 := if pulse then set_reset_step_pins true s1 else s1 in
      let s3 := if fin then set_moves_finished true s2 else s2 in
      r ← tick_each n' (S i) (wrap32 (Z.shiftl bm 1)) s3;
      Some (Tick p :: (if pulse then [StepPin p] else []) ++ fst r, snd r)
    else tick_each n' (S i) (wrap32 (Z.shiftl bm 1)) s
  end.

Definition tick (s : t) : option (list Event * t) := tick_each 12 0 1 s.

(** The first loop of the catch-up: how many ticks can be skipped. *)
Definition ticks_until_pulse (m : StepperMotor) : Z :=
  wrap32 (Z.shiftr (wrap64 (wrap64 (fx_ticks_per_step m) - wrap64 (fx_counter m))) 32).

Fixpoint can_skip_loop (n i : nat) (bm : Z) (s : t) (acc : Z) : option Z :=
  match n with
  | O => Some acc
  | S n' =>
    if bm_test s bm then
      p ← stepper_motors s !! i;
      m ← motors s !! p;
      can_skip_loop n' (S i) (wrap32 (Z.shiftl bm 1)) s (Z.min acc (ticks_until_pulse m))
    else can_skip_loop n' (S i) (wrap32 (Z.shiftl bm 1)) s acc
  end.

(** The second loop of the catch-up:
    [fx_counter += (uint64_t)((uint64_t)(ticks_we_actually_can_skip)<<32)]. *)
Definition advance (skip : Z) (m : StepperMotor) : StepperMotor :=
  set_fx_counter (wrap64 (fx_counter m + wrap64 (Z.shiftl skip 32))) m.

Fixpoint advance_loop (n i : nat) (bm : Z) (skip : Z) (s : t) : option t :=
  match n with
  | O => Some s
  | S n' =>
    if bm_test s bm then
      p ← stepper_motors s !! i;
      m ← motors s !! p;
      advance_loop n' (S i) (wrap32 (Z.shiftl bm 1)) skip
        (set_motors (<[p := advance skip m]> (motors s)) s)
    else advance_loop n' (S i) (wrap32 (Z.shiftl bm 1)) skip s
  end.

(** Lines 195-232 of the handler: the overrun test and the catch-up.
    [tc k] is what the [k]-th read of [LPC_TIM0->TC] returns. The result
    carries the number of reads made. The subtraction of [difference] is
    one of [int]: where it overflows, which C++ leaves undefined, the
    model wraps it as the target does. *)
Definition ticks_to_skip (tc_now : Z) (s : t) : Z :=
  wrap32 (tc_now + last_duration s) / period s.

Definition catch_up (tc : nat -> Z) (s : t) : option (list Event * t * nat) :=
  if period s <? tc 0%nat then
    let start_tc := tc 1%nat in
    if period s =? 0 then None else
    let tts := ticks_to_skip (tc 2%nat) s in
    skip ← can_skip_loop 12 0 1 s tts;
    s1 ← advance_loop 12 0 1 skip s;
    let mr0 := wrap32 ((tts + 1) * period s) in
    let s2 := set_MR0 mr0 s1 in
    let difference := to_int32 (to_int32 (tc 3%nat) - to_int32 start_tc) in
    Some ([WriteMR0 mr0],
          (if 0 <? difference then set_last_duration (wrap32 difference) s2 else s2),
          4%nat)
  else
    Some ([WriteMR0 (period s)], set_MR0 (period s) s, 1%nat).

(** [while (TC > MR0) MR0 += period;] *)
Fixpoint lead_loop (fuel : nat) (tc : nat -> Z) (k : nat) (s : t) : option (list Event * t) :=
  match fuel with
  | O => None
  | S fuel' =>
    if MR0 s <? tc k then
      let mr0 := wrap32 (MR0 s + period s) in
      r ← lead_loop fuel' tc (S k) (set_MR0 mr0 s);
      Some (WriteMR0 mr0 :: fst r, snd r)
    else Some ([], s)
  end.

Section Handler.

(** [StepperMotor::signal_move_finished] (StepperMotor.cpp) runs the
    end-of-move hook, which may start the next block and so change motors,
    the active list and the timer; it is a parameter here. *)
Variable signal_move_finished : ptr -> t -> t.

(** [StepTicker::signal_moves_finished]. The loop steps [motor] back when
    the motor it has just signalled is no longer moving, so it is given
    fuel. *)
Fixpoint signal_loop (fuel : nat) (motor bitmask : Z) (s : t) : option (list Event * t) :=
  match fuel with
  | O => None
  | S fuel' =>
    if motor <? 12 then
      if bm_test s bitmask then
        p ← stepper_motors s !! Z.to_nat motor;
        m ← motors s !! p;
        if is_move_finished m then
          let s1 := signal_move_finished p s in
          p1 ← stepper_motors s1 !! Z.to_nat motor;
          m1 ← motors s1 !! p1;
          let back := negb (moving m1) && (0 <? motor) in
          let motor1 := if back then wrap8 (motor - 1) else motor in
          let bitmask1 := if back then Z.shiftr bitmask 1 else bitmask in
          r ← signal_loop fuel' (wrap8 (motor1 + 1)) (wrap16 (Z.shiftl bitmask1 1)) s1;
          Some (SignalMoveFinished p :: fst r, snd r)
        else signal_loop fuel' (wrap8 (motor + 1)) (wrap16 (Z.shiftl bitmask 1)) s
      else signal_loop fuel' (wrap8 (motor + 1)) (wrap16 (Z.shiftl bitmask 1)) s
    else Some ([], s)
  end.

Definition signal_moves_finished (fuel : nat) (s : t) : option (list Event * t) :=
  r ← signal_loop fuel 0 1 s;
  Some (fst r, set_moves_finished false (snd r)).

(** The MR1 part of [TIMER0_IRQHandler]. Writing a one to a bit of [IR]
    clears it. *)
Definition irq_mr1 (s : t) : option (list Event * t) :=
  if negb (Z.land (IR s) (Z.shiftl 1 1) =? 0) then
    let mcr := Z.land (MCR s) (not32 MCR_MR1I) in
    let s1 := set_MCR mcr (set_IR (Z.land (IR s) (not32 (Z.shiftl 1 1))) s) in
    ev ← reset_tick s1;
    Some (WriteIR (Z.shiftl 1 1) :: WriteMCR mcr :: ev, s1)
  else Some ([], s).

(** What follows the step loop when a move finished in this tick. *)
Definition irq_moves_finished (fuel : nat) (tc : nat -> Z) (s : t) : option (list Event * t) :=
  let park := wrap32 (Z.lnot 0) in
  r1 ← signal_moves_finished fuel (set_MR0 park s);
  r2 ← catch_up tc (snd r1);
  let '(ev2, s2, reads) := r2 in
  r3 ← lead_loop fuel tc reads s2;
  Some (WriteMR0 park :: fst r1 ++ ev2 ++ fst r3, snd r3).

(** The MR0 part of [TIMER0_IRQHandler]. *)
Definition irq_mr0 (fuel : nat) (tc : nat -> Z) (s : t) : option (list Event * t) :=
  if negb (Z.land (IR s) (Z.shiftl 1 0) =? 0) then
    let s0 := set_IR (Z.land (IR s) (not32 (Z.shiftl 1 0))) s in
    r ← tick_loop 12 0 1 s0;
    let '(ev, s1) := r in
    if reset_step_pins s1 then
      let mcr := Z.lor (MCR s1) MCR_MR1I in
      let s2 := set_reset_step_pins false (set_MCR mcr s1) in
      if moves_finished s2 then
        r' ← irq_moves_finished fuel tc s2;
        Some (WriteIR (Z.shiftl 1 0) :: ev ++ WriteMCR mcr :: fst r', snd r')
      else Some (WriteIR (Z.shiftl 1 0) :: ev ++ [WriteMCR mcr], s2)
    else
      Some (WriteIR (Z.shiftl 1 0) :: ev ++ [WriteMR0 (period s1)], set_MR0 (period s1) s1)
  else Some ([], s).

(** [TIMER0_IRQHandler]. *)
Definition TIMER0_IRQHandler (fuel : nat) (tc : nat -> Z) (s : t) : option (list Event * t) :=
  r1 ← irq_mr1 s;
  r2 ← irq_mr0 fuel tc (snd r1);
  Some (fst r1 ++ fst r2, snd r2).

End Handler.

End StepTicker.

(** ** The stepper and its trapezoid generator (Stepper.cpp) *)

Module Stepper.

Definition ALPHA_STEPPER : nat := 0.
Definition BETA_STEPPER : nat := 1.
Definition GAMMA_STEPPER : nat := 2.

(** The fields of [Block] that Stepper.cpp reads (the class is declared in
    Block.h). The three rates are kept as the [float] to which the
    comparisons with, and the assignments to, [trapezoid_adjusted_rate]
    convert them. [steps] is indexed by axis, 0 to 2. *)
Record Block : Type := mkBlock {
  steps : nat -> Z;
  direction_bits : Z;
  steps_event_count : Z;
  initial_rate : float;
  nominal_rate : float;
  final_rate : float;
  rate_delta : float;
  accelerate_until : Z;
  decelerate_after : Z;
  millimeters : float
}.

(** Calls that leave Stepper.cpp. *)
Inductive Event : Type :=
| Take
| Release
| Enable (p : ptr) (on : bool)
| Move (p : ptr) (dir : bool) (n : Z)
| SetSpeed (p : ptr) (v : float)
| SpeedChange
| SetPendingTimer2
| SyncTimer2
| AttachSignalStep (p : ptr) (n : Z).

(** The stepper's fields and what it reaches through [THEKERNEL]: the
    robot's actuators, the step ticker's [active_motor_bm], the conveyor's
    [flush], and the motor objects. *)
Record t : Type := mk {
  current_block : option Block;
  paused : bool;
  force_speed_update : bool;
  enable_pins_status : bool;
  minimum_steps_per_second : float;
  trapezoid_adjusted_rate : float;
  main_stepper : option ptr;
  actuators : list ptr;
  active_motor_bm : Z;
  flush : bool;
  motors : gmap ptr StepperMotor
}.

Definition set_current_block (v : option Block) (s : t) : t :=
  mk v (paused s) (force_speed_update s) (enable_pins_status s)
     (minimum_steps_per_second s) (trapezoid_adjusted_rate s) (main_stepper s)
     (actuators s) (active_motor_bm s) (flush s) (motors s).
Definition set_force_speed_update (v : bool) (s : t) : t :=
  mk (current_block s) (paused s) v (enable_pins_status s)
     (minimum_steps_per_second s) (trapezoid_adjusted_rate s) (main_stepper s)
     (actuators s) (active_motor_bm s) (flush s) (motors s).
Definition set_enable_pins_status (v : bool) (s : t) : t :=
  mk (current_block s) (paused s) (force_speed_update s) v
     (minimum_steps_per_second s) (trapezoid_adjusted_rate s) (main_stepper s)
     (actuators s) (active_motor_bm s) (flush s) (motors s).
Definition set_trapezoid_adjusted_rate (v : float) (s : t) : t :=
  mk (current_block s) (paused s) (force_speed_update s) (enable_pins_status s)
     (minimum_steps_per_second s) v (main_stepper s)
     (actuators s) (active_motor_bm s) (flush s) (motors s).
Definition set_main_stepper (v : option ptr) (s : t) : t :=
  mk (current_block s) (paused s) (force_speed_update s) (enable_pins_status s)
     (minimum_steps_per_second s) (trapezoid_adjusted_rate s) v
     (actuators s) (active_motor_bm s) (flush s) (motors s).
Definition set_motors (v : gmap ptr StepperMotor) (s : t) : t :=
  mk (current_block s) (paused s) (force_speed_update s) (enable_pins_status s)
     (minimum_steps_per_second s) (trapezoid_adjusted_rate s) (main_stepper s)
     (actuators s) (active_motor_bm s) (flush s) v.

(** [Stepper::turn_enable_pins_on]. *)
Definition turn_enable_pins_on (s : t) : list Event * t :=
  (map (fun a => Enable a true) (actuators s), set_enable_pins_status true s).

(** [Stepper::on_block_end]. *)
Definition on_block_end (s : t) : t := set_current_block None s.

(** [Stepper::stepper_motor_finished_move]. *)
Fixpoint any_moving (l : list ptr) (ms : gmap ptr StepperMotor) : option bool :=
  match l with
  | [] => Some false
  | a :: l' => m ← ms !! a; if moving m then Some true else any_moving l' ms
  end.

Definition stepper_motor_finished_move (s : t) : option (list Event * t) :=
  match any_moving (actuators s) (motors s) with
  | None => None
  | Some true => Some ([], s)
  | Some false =>
    match current_block s with
    | Some _ => Some ([Release], s)
    | None => Some ([], s)
    end
  end.

(** [Stepper::trapezoid_generator_reset]. *)
Definition trapezoid_generator_reset (s : t) : option t :=
  b ← current_block s;
  Some (set_force_speed_update true (set_trapezoid_adjusted_rate (initial_rate b) s)).

(** The loop of [on_block_begin] that finds the stepper with the most
    steps: [if ((main_stepper == NULL) || (a->steps_to_move >
    main_stepper->steps_to_move)) main_stepper = a;]. *)
Fixpoint find_main_stepper (l : list ptr) (ms : gmap ptr StepperMotor) (main : option ptr)
  : option (option ptr) :=
  match l with
  | [] => Some main
  | a :: l' =>
    match main with
    | None => find_main_stepper l' ms (Some a)
    | Some mp =>
      ma ← ms !! a;
      mm ← ms !! mp;
      if steps_to_move mm <? steps_to_move ma
      then find_main_stepper l' ms (Some a)
      else find_main_stepper l' ms main
    end
  end.

(** The loop [for (int i = 0; i < 3; i++)] of [on_block_begin], with [n]
    iterations left. *)
Fixpoint move_loop (block : Block) (n i : nat) (s : t) : option (list Event * t) :=
  match n with
  | O => Some ([], s)
  | S n' =>
    if negb (steps block i =? 0) then
      a ← actuators s !! i;
      m ← motors s !! a;
      let dir := negb (Z.land (Z.shiftr (direction_bits block) (Z.of_nat i)) 1 =? 0) in
      let ratio := f_div (f_of_Z (steps block i)) (f_of_Z (steps_event_count block)) in
      let m' := set_rate_ratio ratio (StepperMotor_move dir (steps block i) m) in
      r ← move_loop block n' (S i) (set_motors (<[a := m']> (motors s)) s);
      Some (Move a dir (steps block i) :: fst r, snd r)
    else move_loop block n' (S i) s
  end.

(** The loop of the flush branch: [i->move(i->direction, 0)] on every
    actuator. *)
Fixpoint stop_loop (l : list ptr) (ms : gmap ptr StepperMotor)
  : option (list Event * gmap ptr StepperMotor) :=
  match l with
  | [] => Some ([], ms)
  | a :: l' =>
    m ← ms !! a;
    r ← stop_loop l' (<[a := StepperMotor_move (direction m) 0 m]> ms);
    Some (Move a (direction m) 0 :: fst r, snd r)
  end.

Section SetSpeed.

(** [StepperMotor::set_speed] (StepperMotor.cpp) turns a rate into
    [fx_ticks_per_step] in floating point; it is a parameter here. *)
Variable set_speed : float -> StepperMotor -> StepperMotor.

(** The rate [set_step_events_per_second] applies. *)
Definition applied_rate (steps_per_second minimum : float) : float :=
  if f_lt steps_per_second minimum then minimum else steps_per_second.

Fixpoint set_speed_loop (l : list ptr) (v : float) (ms : gmap ptr StepperMotor)
  : option (list Event * gmap ptr StepperMotor) :=
  match l with
  | [] => Some ([], ms)
  | a :: l' =>
    m ← ms !! a;
    if moving m then
      let v' := f_mul v (rate_ratio m) in
      r ← set_speed_loop l' v (<[a := set_speed v' m]> ms);
      Some (SetSpeed a v' :: fst r, snd r)
    else set_speed_loop l' v ms
  end.

(** [Stepper::set_step_events_per_second]. *)
Definition set_step_events_per_second (steps_per_second : float) (s : t)
  : option (list Event * t) :=
  let v := applied_rate steps_per_second (minimum_steps_per_second s) in
  r ← set_speed_loop (actuators s) v (motors s);
  Some (fst r ++ [SpeedChange], set_motors (snd r) s).

(** [Stepper::trapezoid_generator_tick]. *)
Definition trapezoid_generator_tick (s : t) : option (list Event * t) :=
  match current_block s with
  | Some b =>
    if negb (paused s) && negb (active_motor_bm s =? 0) then
      mp ← main_stepper s;
      mm ← motors s !! mp;
      let current_steps_completed := stepped mm in
      let rate := trapezoid_adjusted_rate s in
      if force_speed_update s then
        let s1 := set_force_speed_update false s in
        set_step_events_per_second (trapezoid_adjusted_rate s1) s1
      else if flush s then
        if f_gt rate (f_mul (rate_delta b) F1_5) then
          let s1 := set_trapezoid_adjusted_rate (f_sub rate (rate_delta b)) s in
          set_step_events_per_second (trapezoid_adjusted_rate s1) s1
        else if f_eq rate (f_mul (rate_delta b) F0_5) then
          r ← stop_loop (actuators s) (motors s);
          Some (fst r ++ [Release], set_motors (snd r) s)
        else
          let s1 := set_trapezoid_adjusted_rate (f_mul (rate_delta b) F0_5) s in
          set_step_events_per_second (trapezoid_adjusted_rate s1) s1
      else if current_steps_completed <=? wrap32 (accelerate_until b + 1) then
        let r1 := f_add rate (rate_delta b) in
        let r2 := if f_gt r1 (nominal_rate b) then nominal_rate b else r1 in
        let s1 := set_trapezoid_adjusted_rate r2 s in
        set_step_events_per_second (trapezoid_adjusted_rate s1) s1
      else if decelerate_after b <? current_steps_completed then
        let r1 := if f_gt rate (f_mul (rate_delta b) F1_5)
                  then f_sub rate (rate_delta b)
                  else f_mul (rate_delta b) F0_5 in
        let r2 := if f_lt r1 (final_rate b) then final_rate b else r1 in
        let s1 := set_trapezoid_adjusted_rate r2 s in
        set_step_events_per_second (trapezoid_adjusted_rate s1) s1
      else if f_ne rate (nominal_rate b) then
        let s1 := set_trapezoid_adjusted_rate (nominal_rate b) s in
        set_step_events_per_second (trapezoid_adjusted_rate s1) s1
      else set_step_events_per_second rate s
    else Some ([], s)
  | None => Some ([], s)
  end.

(** [Stepper::synchronize_acceleration]. *)
Definition synchronize_acceleration (s : t) : option (list Event * t) :=
  mp ← main_stepper s;
  mm ← motors s !! mp;
  if stepped mm =? 0 then
    b ← current_block s;
    let hook :=
      if (0 <? decelerate_after b) && (decelerate_after b <? steps_to_move mm)
      then [AttachSignalStep mp (decelerate_after b)] else [] in
    Some ([SetPendingTimer2; SyncTimer2] ++ hook, s)
  else Some ([SetPendingTimer2; SyncTimer2], s).

(** [Stepper::on_block_begin]. *)
Definition on_block_begin (block : Block) (s : t) : option (list Event * t) :=
  if f_eq (millimeters block) F0_0 then Some ([], s)
  else if (0 <? steps block ALPHA_STEPPER) || (0 <? steps block BETA_STEPPER)
          || (0 <? steps block GAMMA_STEPPER) then
    let r1 := if negb (enable_pins_status s) then turn_enable_pins_on s else ([], s) in
    let s2 := set_current_block (Some block) (snd r1) in
    s3 ← trapezoid_generator_reset s2;
    main ← find_main_stepper (actuators s3) (motors s3) None;
    r5 ← move_loop block 3 0 (set_main_stepper main s3);
    r6 ← trapezoid_generator_tick (snd r5);
    r7 ← synchronize_acceleration (snd r6);
    Some (Take :: fst r1 ++ fst r5 ++ fst r6 ++ fst r7, snd r7)
  else Some ([], s).

End SetSpeed.

(** *** Pause, play, the enable pins and their gcodes *)

Definition set_paused (v : bool) (s : t) : t :=
  mk (current_block s) v (force_speed_update s) (enable_pins_status s)
     (minimum_steps_per_second s) (trapezoid_adjusted_rate s) (main_stepper s)
     (actuators s) (active_motor_bm s) (flush s) (motors s).
Definition set_minimum_steps_per_second (v : float) (s : t) : t :=
  mk (current_block s) (paused s) (force_speed_update s) (enable_pins_status s)
     v (trapezoid_adjusted_rate s) (main_stepper s)
     (actuators s) (active_motor_bm s) (flush s) (motors s).

(** [Stepper::turn_enable_pins_off]. *)
Definition turn_enable_pins_off (s : t) : list Event * t :=
  (map (fun a => Enable a false) (actuators s), set_enable_pins_status false s).

(** [Stepper::on_config_reload]. [minimum] stands for what the
    configuration yields for [minimum_steps_per_minute / 60.0F]; the
    stepper's other configured value, [acceleration_ticks_per_second], is
    read by no function of the file but [on_module_loaded]. *)
Definition on_config_reload (minimum : float) (s : t) : list Event * t :=
  turn_enable_pins_off (set_minimum_steps_per_second minimum s).

Module Gcode.
(** The members of [Gcode] that Stepper.cpp reads. *)
Record t : Type := mk {
  has_m : bool;
  m : Z;
  has_letter : ascii -> bool
}.
End Gcode.

(** Calls on the actuators' drivers ([a->pause()], [a->unpause()]) and on
    the conveyor ([append_gcode]). *)
Inductive Outcall : Type :=
| Pause (p : ptr)
| Unpause (p : ptr)
| AppendGcode (g : Gcode.t).

(** [Stepper::on_pause]. *)
Definition on_pause (s : t) : list Outcall * t :=
  (map Pause (actuators s), set_paused true s).

(** [Stepper::on_play]. *)
Definition on_play (s : t) : list Outcall * t :=
  (map Unpause (actuators s), set_paused false s).

(** [Stepper::on_gcode_received]. *)
Definition on_gcode_received (gcode : Gcode.t) : list Outcall :=
  if Gcode.has_m gcode
     && ((Gcode.m gcode =? 84) || (Gcode.m gcode =? 17) || (Gcode.m gcode =? 18))
  then [AppendGcode gcode] else [].

(** [Stepper::on_gcode_execute]. *)
Definition on_gcode_execute (gcode : Gcode.t) (s : t) : list Event * t :=
  if Gcode.has_m gcode then
    if Gcode.m gcode =? 17 then turn_enable_pins_on s
    else if ((Gcode.m gcode =? 84) || (Gcode.m gcode =? 18))
            && negb (Gcode.has_letter gcode "E"%char)
    then turn_enable_pins_off s
    else ([], s)
  else ([], s).

End Stepper.

(** * Vocabulary of the properties *)

Module StepTickerSpec.
Import StepTicker.

(** A motor is registered when it occurs among the first twelve slots. *)
Definition registered (s : t) (motor : ptr) : Prop :=
  exists j : nat, (j < 12)%nat /\ stepper_motors s !! j = Some motor.

(** The timer is armed: enabled, and MR1 neither resets nor stops it. *)
Definition armed (s : t) : Prop :=
  TCR s = TCR_ENABLE /\ Z.land (MCR s) (Z.lor MCR_MR1R MCR_MR1S) = 0.

Definition timer_inv (s : t) : Prop := armed s <-> active_motor_bm s <> 0.

(** The stores by which [add_motor_to_active_list] arms the timer, and the
    store by which [remove_motor_from_active_list] lets MR1 stop it. *)
Definition arm_stores (s : t) : list Event :=
  [WriteMCR (Z.land (MCR s) (not32 (Z.lor MCR_MR1R MCR_MR1S)));
   WriteTCR (Z.lor TCR_ENABLE TCR_RESET); WriteTCR TCR_ENABLE].

Definition stop_stores (s : t) : list Event :=
  [WriteMCR (Z.lor (MCR s) (Z.lor MCR_MR1R MCR_MR1S))].

Inductive Call : Type :=
| Add (motor : ptr)
| Remove (motor : ptr).

Definition call_motor (c : Call) : ptr :=
  match c with Add p => p | Remove p => p end.

Definition do_call (c : Call) (s : t) : option (list Event * t) :=
  match c with
  | Add p => add_motor_to_active_list p s
  | Remove p => remove_motor_from_active_list p s
  end.

Fixpoint run (calls : list Call) (s : t) : option (list Event * t) :=
  match calls with
  | [] => Some ([], s)
  | c :: calls' =>
    r ← do_call c s;
    r' ← run calls' (snd r);
    Some (fst r ++ fst r', snd r')
  end.

(** The effect of a call on a registered motor from state [s1], with the
    stores [ev] it makes and the state [s2] it leaves. *)
Definition call_effect (c : Call) (s1 : t) (ev : list Event) (s2 : t) : Prop :=
  match c with
  | Add _ =>
    active_motor_bm s2 <> 0 /\
    if active_motor_bm s1 =? 0
    then ev = arm_stores s1 /\ TCR s2 = TCR_ENABLE /\
         MCR s2 = Z.land (MCR s1) (not32 (Z.lor MCR_MR1R MCR_MR1S))
    else ev = [] /\ TCR s2 = TCR s1 /\ MCR s2 = MCR s1
  | Remove _ =>
    if active_motor_bm s2 =? 0
    then ev = stop_stores s1 /\ TCR s2 = TCR s1 /\
         MCR s2 = Z.lor (MCR s1) (Z.lor MCR_MR1R MCR_MR1S)
    else ev = [] /\ TCR s2 = TCR s1 /\ MCR s2 = MCR s1
  end.


(** The motors of the active slots, in slot order: what the loops over the
    twelve slots visit. *)
Fixpoint active_from (s : t) (n i : nat) : list ptr :=
  match n with
  | O => []
  | S n' =>
    (if bm_test s (2 ^ Z.of_nat i)
     then match stepper_motors s !! i with Some p => [p] | None => [] end
     else [])
    ++ active_from s n' (S i)
  end.

Definition active_ptrs (s : t) : list ptr := active_from s 12 0.

(** Every active slot is a slot of the vector and holds a motor. *)
Definition slots_live (s : t) : Prop :=
  forall j : nat, (j < 12)%nat -> bm_test s (2 ^ Z.of_nat j) = true ->
    exists p, stepper_motors s !! j = Some p /\ is_Some (motors s !! p).

(** What the constructor, [add_stepper_motor] and the two active-list
    functions maintain: every registered pointer designates a motor, and
    an active slot is the first slot that holds its motor. *)
Definition well_formed (s : t) : Prop :=
  (forall p, p ∈ stepper_motors s -> is_Some (motors s !! p)) /\
  (forall j : nat, (j < 12)%nat -> bm_test s (2 ^ Z.of_nat j) = true ->
     exists p, stepper_motors s !! j = Some p /\
       forall k : nat, (k < j)%nat -> stepper_motors s !! k <> Some p).

(** The tickers that the constructor, registrations and calls on the
    active list produce. *)
Inductive reachable : t -> Prop :=
| reach_new (period0 mr1_0 tc : Z) : reachable (new period0 mr1_0 tc)
| reach_register (p : ptr) (m : StepperMotor) (s : t) :
    reachable s -> reachable (add_stepper_motor p m s)
| reach_call (c : Call) (s : t) (ev : list Event) (s' : t) :
    reachable s -> do_call c s = Some (ev, s') -> reachable s'.

(** [r] is the minimum of [bound] and of the ticks each active motor has
    left before its next pulse. *)
Definition is_min_skip (s : t) (bound r : Z) : Prop :=
  r <= bound /\
  (forall p m, p ∈ active_ptrs s -> motors s !! p = Some m -> r <= ticks_until_pulse m) /\
  (r = bound \/
   exists p m, p ∈ active_ptrs s /\ motors s !! p = Some m /\ r = ticks_until_pulse m).

(** The events of a step loop that ticks the motors [fst] in turn, [snd]
    telling whether the tick asserted the motor's step pin. *)
Fixpoint tick_events (l : list (ptr * bool)) : list Event :=
  match l with
  | [] => []
  | (p, pulse) :: l' => Tick p :: (if pulse then [StepPin p] else []) ++ tick_events l'
  end.

(** Events on the motors, as opposed to stores to the timer and hooks. *)
Definition is_pin_event (e : Event) : bool :=
  match e with
  | Unstep _ | Tick _ | StepPin _ => true
  | _ => false
  end.

(** The motors whose step pin a list of events asserts. *)
Fixpoint pins (l : list Event) : list ptr :=
  match l with
  | [] => []
  | StepPin p :: l' => p :: pins l'
  | _ :: l' => pins l'
  end.

(** The half of C9 that fails, as it is written: a remove stores to the
    timer only on a transition of [active_motor_bm] to zero. *)
Definition stop_only_on_transition : Prop :=
  forall (s : t) (p : ptr) (ev : list Event) (s' : t),
    registered s p ->
    remove_motor_from_active_list p s = Some (ev, s') ->
    ev <> [] ->
    active_motor_bm s <> 0 /\ active_motor_bm s' = 0.

(** The MR1 part of the handler: acknowledge MR1, clear its interrupt
    enable, unstep every active motor. *)
Definition mr1_events (s : t) : list Event :=
  WriteIR (Z.shiftl 1 1) :: WriteMCR (Z.land (MCR s) (not32 MCR_MR1I))
    :: (Unstep <$> active_ptrs s).

Definition after_mr1 (s : t) : t :=
  set_MCR (Z.land (MCR s) (not32 MCR_MR1I))
    (set_IR (Z.land (IR s) (not32 (Z.shiftl 1 1))) s).

(** A ticker as it is after boot, with motors at addresses 1, 2 and 3
    registered and none active. *)
Definition idle_motor : StepperMotor :=
  mkStepperMotor 0 0 0 0 false false false F0_0.

Definition booted : t :=
  add_stepper_motor 3 idle_motor
    (add_stepper_motor 2 idle_motor
       (add_stepper_motor 1 idle_motor (new 250 2500 0))).

(** Two motors active in slots 0 and 1: motor 1 is one tick into a step
    of a little over three ticks, motor 2 starts a step of ten ticks. The
    previous catch-up took no time. *)
Definition overrun_example : t :=
  mk 250 0 3 [1%N; 2%N] false false 0 (Z.lor MCR_MR0I MCR_MR0R) TCR_ENABLE
     (wrap32 (Z.lnot 0)) 2500
     (<[1%N := mkStepperMotor 100 7 (2 ^ 32) (3 * 2 ^ 32 + 5) false true false F0_0]>
        (<[2%N := mkStepperMotor 50 3 0 (10 * 2 ^ 32) false true false F0_0]> ∅)).

(** Both match flags pending on entry; motor 1 is one tick short of the
    last step of its move, motor 2 is at the start of a slow step. *)
Definition both_pending_example : t :=
  mk 250 0 3 [1%N; 2%N] false false 3 (Z.lor MCR_MR0I (Z.lor MCR_MR0R MCR_MR1I))
     TCR_ENABLE 250 2500
     (<[1%N := mkStepperMotor 8 7 (2 * 2 ^ 32 + 5) (3 * 2 ^ 32 + 5) false true false F0_0]>
        (<[2%N := mkStepperMotor 50 3 0 (10 * 2 ^ 32) false true false F0_0]> ∅)).

(** An end-of-move callback for the examples: the motor stops moving,
    lowers its flag and leaves the active list. *)
Definition finish_motor (p : ptr) (s : t) : t :=
  match motors s !! p with
  | Some m =>
    let m' := mkStepperMotor (steps_to_move m) (stepped m) (fx_counter m)
                (fx_ticks_per_step m) (direction m) false false (rate_ratio m) in
    let s1 := set_motors (<[p := m']> (motors s)) s in
    match remove_motor_from_active_list p s1 with
    | Some r => snd r
    | None => s1
    end
  | None => s
  end.

(** A counter that has run four periods when the handler first reads it
    and advances by ten between reads. *)
Definition late_clock (k : nat) : Z := 1000 + 10 * Z.of_nat k.

(** The number of entries of [l] whose motor has [is_move_finished] set. *)
Definition flagged (ms : gmap ptr StepperMotor) (q : ptr) : bool :=
  match ms !! q with Some m => is_move_finished m | None => false end.

Fixpoint count_flagged (ms : gmap ptr StepperMotor) (l : list ptr) : nat :=
  match l with
  | [] => 0
  | q :: l' => (if flagged ms q then 1 else 0) + count_flagged ms l'
  end.

(** What the handler needs of an end-of-move callback to return: the
    callback keeps the vector, the period and the motors that exist, keeps
    every active slot on a motor, lowers the flag of the motor it is
    called on and raises no flag. *)
Record callback_ok (cb : ptr -> t -> t) : Prop := {
  cb_slots : forall p s, stepper_motors (cb p s) = stepper_motors s;
  cb_period : forall p s, period (cb p s) = period s;
  cb_keeps : forall p s q, is_Some (motors s !! q) -> is_Some (motors (cb p s) !! q);
  cb_live : forall p s, slots_live s -> slots_live (cb p s);
  cb_flag : forall p s q, flagged (motors (cb p s)) q = true ->
              q <> p /\ flagged (motors s) q = true
}.

(** C1 as it is written: the ticks skipped are the minimum of
    [ticks_to_skip] and, over the active motors, of the floor of
    [(fx_ticks_per_step - fx_counter) / 2^32], and the counter of every
    active motor is advanced by that many ticks times 2^32. The motors are
    taken within the bound that the specification gives for a counter
    after a tick, twice the ticks per step, itself within 64 bits. *)
Definition floor_until_pulse (m : StepperMotor) : Z :=
  (fx_ticks_per_step m - fx_counter m) / 2 ^ 32.

Definition is_min_floor (s : t) (bound r : Z) : Prop :=
  r <= bound /\
  (forall p m, p ∈ active_ptrs s -> motors s !! p = Some m -> r <= floor_until_pulse m) /\
  (r = bound \/
   exists p m, p ∈ active_ptrs s /\ motors s !! p = Some m /\ r = floor_until_pulse m).

Definition counters_in_range (s : t) : Prop :=
  forall p m, p ∈ active_ptrs s -> motors s !! p = Some m ->
    0 <= fx_counter m < 2 * fx_ticks_per_step m /\ fx_ticks_per_step m < 2 ^ 63.

Definition skips_minimum_of_floors : Prop :=
  forall (tc : nat -> Z) (s : t) (ev : list Event) (s' : t) (reads : nat) (skip : Z),
    period s < tc 0%nat ->
    0 < period s ->
    slots_live s ->
    NoDup (active_ptrs s) ->
    counters_in_range s ->
    catch_up tc s = Some (ev, s', reads) ->
    is_min_floor s (ticks_to_skip (tc 2%nat) s) skip ->
    forall p m m',
      p ∈ active_ptrs s -> motors s !! p = Some m -> motors s' !! p = Some m' ->
      fx_counter m' = wrap64 (fx_counter m + skip * 2 ^ 32).

(** Two motors active in slots 0 and 1, as they are when the speed has
    been raised in the middle of a step: motor 1 is one tick into a step of
    a little over three ticks; motor 2 has counted fourteen ticks and a
    half, and its step is now of ten ticks. *)
Definition overshoot_example : t :=
  mk 250 0 3 [1%N; 2%N] false false 0 (Z.lor MCR_MR0I MCR_MR0R) TCR_ENABLE
     (wrap32 (Z.lnot 0)) 2500
     (<[1%N := mkStepperMotor 100 7 (2 ^ 32) (3 * 2 ^ 32 + 5) false true false F0_0]>
        (<[2%N := mkStepperMotor 50 3 (14 * 2 ^ 32 + 2 ^ 31) (10 * 2 ^ 32)
                    false true false F0_0]> ∅)).

(** C2's consequence as it is written, over the interrupts that the
    handler serves one after the other: each comes with the match flags
    that the timer has raised since the one before, and with the reads of
    the counter during it. *)
Fixpoint irq_run (cb : ptr -> t -> t) (fuel : nat) (irqs : list (Z * (nat -> Z))) (s : t)
  : option (list Event * t) :=
  match irqs with
  | [] => Some ([], s)
  | (flags, tc) :: irqs' =>
    r ← TIMER0_IRQHandler cb fuel tc (set_IR (Z.lor (IR s) flags) s);
    r' ← irq_run cb fuel irqs' (snd r);
    Some (fst r ++ fst r', snd r')
  end.

Definition unstep_between_assertions (cb : ptr -> t -> t) : Prop :=
  forall (fuel : nat) (irqs : list (Z * (nat -> Z))) (s : t) (evs : list Event) (s' : t)
         (a b c : list Event) (p : ptr),
    slots_live s ->
    NoDup (active_ptrs s) ->
    irq_run cb fuel irqs s = Some (evs, s') ->
    evs = a ++ StepPin p :: b ++ StepPin p :: c ->
    Unstep p ∈ b.

(** Motor 1 alone is active, in the middle of a move, and steps on every
    tick. MR1 lies beyond the period: the counter, which the MR0 match
    resets, does not reach it. *)
Definition every_tick_example : t :=
  mk 250 0 1 [1%N] false false 0 (Z.lor MCR_MR0I MCR_MR0R) TCR_ENABLE 250 2500
     (<[1%N := mkStepperMotor 100 7 0 (2 ^ 32) false true false F0_0]> ∅).

End StepTickerSpec.

Module StepperSpec.
Import Stepper.

(** The guard of [trapezoid_generator_tick] holds and [main_stepper]
    designates the motor [mm], executing block [b]. *)
Definition ticking (s : t) (b : Block) (mm : StepperMotor) : Prop :=
  current_block s = Some b /\
  paused s = false /\
  active_motor_bm s <> 0 /\
  exists mp, main_stepper s = Some mp /\ motors s !! mp = Some mm.

(** Every actuator designates a motor. *)
Definition actuators_live (s : t) : Prop :=
  forall a, a ∈ actuators s -> is_Some (motors s !! a).

(** The [set_speed] calls of [set_step_events_per_second] at rate [v]:
    one for each moving actuator, in order, at [v * rate_ratio]. *)
Fixpoint speed_events (v : float) (ms : gmap ptr StepperMotor) (l : list ptr) : list Event :=
  match l with
  | [] => []
  | a :: l' =>
    match ms !! a with
    | Some m => if moving m then [SetSpeed a (f_mul v (rate_ratio m))] else []
    | None => []
    end ++ speed_events v ms l'
  end.

(** The [move(direction, 0)] calls of the flush branch: one for each
    actuator, in order, in the direction the actuator has. *)
Fixpoint stop_events (ms : gmap ptr StepperMotor) (l : list ptr) : list Event :=
  match l with
  | [] => []
  | a :: l' =>
    match ms !! a with
    | Some m => [Move a (direction m) 0]
    | None => []
    end ++ stop_events ms l'
  end.

(** C5 as it is written: past [decelerate_after] the rate is decreased by
    [rate_delta], or set to [rate_delta * 0.5] if the difference is not
    above zero, and then raised to [final_rate] if it is less. *)
Definition deceleration_as_written (rate : float) (b : Block) : float :=
  let r := f_sub rate (rate_delta b) in
  let r := if f_le r F0_0 then f_mul (rate_delta b) F0_5 else r in
  if f_lt r (final_rate b) then final_rate b else r.

Definition decelerates_past_decelerate_after
    (set_speed : float -> StepperMotor -> StepperMotor) : Prop :=
  forall (s : t) (b : Block) (mm : StepperMotor) (ev : list Event) (s' : t),
    ticking s b mm ->
    force_speed_update s = false ->
    flush s = false ->
    decelerate_after b < stepped mm ->
    trapezoid_generator_tick set_speed s = Some (ev, s') ->
    trapezoid_adjusted_rate s' = deceleration_as_written (trapezoid_adjusted_rate s) b.

(** Examples: a [set_speed] that leaves the motor as it is, three
    actuators that have not moved yet, and blocks. *)
Definition keep_speed (v : float) (m : StepperMotor) : StepperMotor := m.

Definition still_motor : StepperMotor :=
  mkStepperMotor 0 0 0 0 false false false F0_0.

Definition at_rest : t :=
  mk None false false true (f_of_Z 50) F0_0 None [1%N; 2%N; 3%N] 0 false
     (<[1%N := still_motor]> (<[2%N := still_motor]> (<[3%N := still_motor]> ∅))).

Definition steps_of (x y z : Z) (i : nat) : Z :=
  match i with O => x | 1%nat => y | 2%nat => z | _ => 0 end.

(** A move of 10 steps on alpha and 400 on beta. *)
Definition block_10_400 : Block :=
  mkBlock (steps_of 10 400 0) 0 400 (f_of_Z 100) (f_of_Z 1000) (f_of_Z 100)
          (f_of_Z 100) 50 350 (f_of_Z 5).

(** A block of no length. *)
Definition block_zero : Block :=
  mkBlock (steps_of 10 400 0) 0 400 (f_of_Z 100) (f_of_Z 1000) (f_of_Z 100)
          (f_of_Z 100) 50 350 F0_0.

(** A stepper in the middle of a block [b] whose main stepper, the motor
    at address 1, has made [done] steps, at rate [rate]. *)
Definition running (b : Block) (done : Z) (rate : float) (flushing : bool) : t :=
  mk (Some b) false false true (f_of_Z 50) rate (Some 1%N) [1%N; 2%N] 3 flushing
     (<[1%N := mkStepperMotor 400 done 0 (2 ^ 32) false true false (f_of_Z 1)]>
        (<[2%N := mkStepperMotor 100 0 0 (2 ^ 34) true true false (f_of_Z 1)]> ∅)).

(** A triangle profile: acceleration ends where deceleration starts. *)
Definition block_triangle : Block :=
  mkBlock (steps_of 400 100 0) 2 400 (f_of_Z 100) (f_of_Z 1000) F0_0
          (f_of_Z 100) 5 5 (f_of_Z 5).

(** A trapezoid profile. *)
Definition block_trapezoid : Block :=
  mkBlock (steps_of 400 100 0) 2 400 (f_of_Z 100) (f_of_Z 1000) F0_0
          (f_of_Z 100) 2 5 (f_of_Z 5).

End StepperSpec.

(** * Vocabulary of the further properties *)

Module StepTickerTerms.
Import StepTicker StepTickerSpec.

(** [j] is the first of the twelve slots that holds [p]: the slot the
    loops of the active list stop at. *)
Definition first_slot (s : t) (p : ptr) (j : nat) : Prop :=
  (j < 12)%nat /\ stepper_motors s !! j = Some p /\
  forall k : nat, (k < j)%nat -> stepper_motors s !! k <> Some p.

(** What [add_motor_to_active_list] does when it stops at slot [j]. *)
Definition added (j : nat) (s : t) : list Event * t :=
  let s1 := set_active_motor_bm (Z.lor (active_motor_bm s) (2 ^ Z.of_nat j)) s in
  if active_motor_bm s =? 0
  then (arm_stores s,
        set_TCR TCR_ENABLE
          (set_MCR (Z.land (MCR s) (not32 (Z.lor MCR_MR1R MCR_MR1S))) s1))
  else ([], s1).

(** What [remove_motor_from_active_list] does when it stops at slot [j]. *)
Definition removed (j : nat) (s : t) : list Event * t :=
  let s1 := set_active_motor_bm
              (Z.land (active_motor_bm s) (not32 (2 ^ Z.of_nat j))) s in
  if active_motor_bm s1 =? 0
  then (stop_stores s, set_MCR (Z.lor (MCR s) (Z.lor MCR_MR1R MCR_MR1S)) s1)
  else ([], s1).

(** The motors whose end-of-move hook a list of events runs. *)
Fixpoint signalled (l : list Event) : list ptr :=
  match l with
  | [] => []
  | SignalMoveFinished p :: l' => p :: signalled l'
  | _ :: l' => signalled l'
  end.

(** The values the handler stores to MR0. *)
Fixpoint mr0_stores (l : list Event) : list Z :=
  match l with
  | [] => []
  | WriteMR0 v :: l' => v :: mr0_stores l'
  | _ :: l' => mr0_stores l'
  end.

(** [m'] is [m] but for its [fx_counter]. *)
Definition same_but_counter (m m' : StepperMotor) : Prop :=
  exists c, m' = set_fx_counter c m.

(** One tick of the motor at [p]: the motor afterwards, whether the tick
    asserts its step pin, and whether it finishes its move. *)
Definition ticked (ms : gmap ptr StepperMotor) (p : ptr) : option StepperMotor :=
  (fun m => fst (fst (StepperMotor_tick m))) <$> ms !! p.

Definition pulses (ms : gmap ptr StepperMotor) (p : ptr) : bool :=
  match ms !! p with Some m => snd (fst (StepperMotor_tick m)) | None => false end.

Definition finishes (ms : gmap ptr StepperMotor) (p : ptr) : bool :=
  match ms !! p with Some m => snd (StepperMotor_tick m) | None => false end.

(** The booted ticker after motors 1 and 2 have been made active. *)
Definition two_active : t :=
  match run [Add 1%N; Add 2%N] booted with
  | Some r => snd r
  | None => booted
  end.

(** Twelve registered motors, at addresses 1 to 12. *)
Definition twelve_motors : t :=
  foldl (fun s p => add_stepper_motor p idle_motor s) (new 250 2500 0)
        [1; 2; 3; 4; 5; 6; 7; 8; 9; 10; 11; 12]%N.

(** Motor 1 has made the last step of its move and raised its flag;
    motor 2 is in the middle of its own. *)
Definition finished_example : t :=
  mk 250 0 3 [1%N; 2%N] true false 0 (Z.lor MCR_MR0I (Z.lor MCR_MR0R MCR_MR1I))
     TCR_ENABLE (wrap32 (Z.lnot 0)) 2500
     (<[1%N := mkStepperMotor 8 8 0 (3 * 2 ^ 32 + 5) false true true F0_0]>
        (<[2%N := mkStepperMotor 50 3 0 (10 * 2 ^ 32) false true false F0_0]> ∅)).

(** The MR0 flag alone pending, no motor due to step in this tick. *)
Definition quiet_example : t := set_IR 1 overrun_example.

(** The MR0 flag alone pending; motor 1 is due to step in this tick, in
    the middle of its move, and motor 2 is not. *)
Definition stepping_example : t :=
  mk 250 0 3 [1%N; 2%N] false false 1 (Z.lor MCR_MR0I MCR_MR0R) TCR_ENABLE 250 2500
     (<[1%N := mkStepperMotor 100 7 (2 * 2 ^ 32 + 5) (3 * 2 ^ 32 + 5) false true false F0_0]>
        (<[2%N := mkStepperMotor 50 3 0 (10 * 2 ^ 32) false true false F0_0]> ∅)).

(** The MR1 flag alone pending. *)
Definition unstep_example : t := set_IR 2 both_pending_example.

(** A counter that reads 1000 three times, up to the computation of
    [ticks_to_skip], and 1300 from then on. *)
Definition stalled_clock (k : nat) : Z := if (k <? 3)%nat then 1000 else 1300.

End StepTickerTerms.

Module StepperTerms.
Import Stepper StepperSpec.

(** A block that [on_block_begin] acts upon: its length does not compare
    equal to zero and one of its first three axes has steps. *)
Definition real_block (b : Block) : Prop :=
  f_eq (millimeters b) F0_0 = false /\
  (0 < steps b ALPHA_STEPPER \/ 0 < steps b BETA_STEPPER \/ 0 < steps b GAMMA_STEPPER).

Definition is_enable (e : Event) : bool :=
  match e with Enable _ _ => true | _ => false end.

Definition is_move (e : Event) : bool :=
  match e with Move _ _ _ => true | _ => false end.

Definition is_speed (e : Event) : bool :=
  match e with SetSpeed _ _ | SpeedChange => true | _ => false end.

(** The guard of [trapezoid_generator_tick]. *)
Definition tick_guard (s : t) : bool :=
  match current_block s with
  | Some _ => negb (paused s) && negb (active_motor_bm s =? 0)
  | None => false
  end.

(** The [enable(true)] calls of [on_block_begin]: one for each actuator
    when the drivers were off, none otherwise. *)
Definition enable_events (s : t) : list Event :=
  if enable_pins_status s then [] else map (fun a => Enable a true) (actuators s).

(** The direction of axis [i]: bit [i] of [direction_bits]. *)
Definition axis_direction (b : Block) (i : nat) : bool :=
  Z.testbit (direction_bits b) (Z.of_nat i).

(** The [move] calls for the axes [i], [i+1], ... [i+n-1] that have steps. *)
Fixpoint axis_moves (b : Block) (acts : list ptr) (n i : nat) : list Event :=
  match n with
  | O => []
  | S n' =>
    (if steps b i =? 0 then []
     else match acts !! i with
          | Some a => [Move a (axis_direction b i) (steps b i)]
          | None => []
          end)
    ++ axis_moves b acts n' (S i)
  end.

(** Calls on timer 2 and on the main stepper's step hook: what
    [synchronize_acceleration] makes. *)
Definition is_sync (e : Event) : bool :=
  match e with
  | SetPendingTimer2 | SyncTimer2 | AttachSignalStep _ _ => true
  | _ => false
  end.

(** The stepper as [on_block_begin] has set it up for [block] when it
    starts the search for the main stepper. *)
Definition block_taken (block : Block) (s : t) : t :=
  set_force_speed_update true
    (set_trapezoid_adjusted_rate (initial_rate block)
       (set_current_block (Some block) (set_enable_pins_status true s))).

(** Some actuator of the list is moving. *)
Definition some_moving (l : list ptr) (ms : gmap ptr StepperMotor) : Prop :=
  exists a m, a ∈ l /\ ms !! a = Some m /\ moving m = true.

(** Three actuators at rest with the drivers off, as [on_config_reload]
    leaves them. *)
Definition drivers_off : t :=
  snd (on_config_reload (f_of_Z 50) at_rest).

(** Three motors left by earlier moves of 10, 400 and 400 steps. *)
Definition uneven_motors : gmap ptr StepperMotor :=
  <[1%N := mkStepperMotor 10 10 0 0 false false false F0_0]>
    (<[2%N := mkStepperMotor 400 400 0 0 false false false F0_0]>
       (<[3%N := mkStepperMotor 400 400 0 0 false false false F0_0]> ∅)).

(** A move of 5 steps on gamma alone. *)
Definition block_gamma : Block :=
  mkBlock (steps_of 0 0 5) 4 5 (f_of_Z 100) (f_of_Z 1000) (f_of_Z 100)
          (f_of_Z 100) 2 3 (f_of_Z 1).

(** A gcode [M<n>] with the given letters. *)
Definition gcode_M (n : Z) (letters : list ascii) : Gcode.t :=
  Gcode.mk true n (fun c => bool_decide (c ∈ letters)).

End StepperTerms.

(** * Properties of the step ticker *)

(** ** Bit masks of the loops over the twelve slots *)

Lemma wrap32_shiftl_bit (i : nat) :
  (i < 31)%nat -> wrap32 (Z.shiftl (2 ^ Z.of_nat i) 1) = 2 ^ Z.of_nat (S i).
Proof.
  intros Hi. unfold wrap32.
  rewrite Z.shiftl_mul_pow2 by lia.
  rewrite Nat2Z.inj_succ, Z.pow_succ_r by lia.
  rewrite Z.mod_small; [lia|].
  split; [lia|].
  replace (2 ^ 32) with (2 ^ Z.of_nat 31 * 2) by reflexivity.
  assert (2 ^ Z.of_nat i < 2 ^ Z.of_nat 31) by (apply Z.pow_lt_mono_r; lia).
  lia.
Qed.

Lemma wrap16_shiftl_bit (i : nat) :
  (i < 15)%nat -> wrap16 (Z.shiftl (2 ^ Z.of_nat i) 1) = 2 ^ Z.of_nat (S i).
Proof.
  intros Hi. unfold wrap16.
  rewrite Z.shiftl_mul_pow2 by lia.
  rewrite Nat2Z.inj_succ, Z.pow_succ_r by lia.
  rewrite Z.mod_small; [lia|].
  split; [lia|].
  replace (2 ^ 16) with (2 ^ Z.of_nat 15 * 2) by reflexivity.
  assert (2 ^ Z.of_nat i < 2 ^ Z.of_nat 15) by (apply Z.pow_lt_mono_r; lia).
  lia.
Qed.


(** Case analysis on the next [option] bind or test of a hypothesis. *)
Ltac step_in H :=
  match type of H with
  | None = Some _ => discriminate H
  | context [mbind _ ?e] => destruct e eqn:?; cbn [mbind option_bind] in H
  | context [if ?b then _ else _] => destruct b eqn:?
  | context [let '(_, _) := ?e in _] => destruct e eqn:?
  end.

Module StepTickerProofs.
Import StepTicker StepTickerSpec.

(** ** The active list and the timer *)

Lemma add_loop_registered (motor : ptr) (reinit : bool) (n i : nat) (s : t) :
  (i + n = 12)%nat ->
  (exists j : nat, (i <= j < 12)%nat /\ stepper_motors s !! j = Some motor) ->
  exists j : nat, (i <= j < 12)%nat /\ stepper_motors s !! j = Some motor /\
    add_loop motor reinit n i (2 ^ Z.of_nat i) s =
      let s1 := set_active_motor_bm (Z.lor (active_motor_bm s) (2 ^ Z.of_nat j)) s in
      if reinit
      then Some (arm_stores s,
                 set_TCR TCR_ENABLE
                   (set_MCR (Z.land (MCR s) (not32 (Z.lor MCR_MR1R MCR_MR1S))) s1))
      else Some ([], s1).
Proof.
  revert i. induction n as [|n IH]; intros i Hn [j [Hj Hjs]]; [lia|].
  cbn [add_loop].
  destruct (stepper_motors s !! i) as [q|] eqn:Hi.
  - destruct (N.eqb q motor) eqn:Hq.
    + apply N.eqb_eq in Hq. subst q. exists i. repeat split; try lia; auto.
    + assert (j <> i) by (intros ->; rewrite Hi in Hjs; inversion Hjs; subst;
                          rewrite N.eqb_refl in Hq; discriminate).
      rewrite wrap32_shiftl_bit by lia.
      destruct (IH (S i)) as [j' [Hj' [Hjs' Heq]]]; [lia | exists j; split; [lia|auto] |].
      exists j'. repeat split; try lia; auto.
  - exfalso. apply lookup_ge_None in Hi.
    apply lookup_lt_Some in Hjs. lia.
Qed.

Lemma remove_loop_registered (motor : ptr) (n i : nat) (s : t) :
  (i + n = 12)%nat ->
  (exists j : nat, (i <= j < 12)%nat /\ stepper_motors s !! j = Some motor) ->
  exists j : nat, (i <= j < 12)%nat /\ stepper_motors s !! j = Some motor /\
    remove_loop motor n i (2 ^ Z.of_nat i) s =
      let s1 := set_active_motor_bm
                  (Z.land (active_motor_bm s) (not32 (2 ^ Z.of_nat j))) s in
      if active_motor_bm s1 =? 0
      then Some (stop_stores s, set_MCR (Z.lor (MCR s) (Z.lor MCR_MR1R MCR_MR1S)) s1)
      else Some ([], s1).
Proof.
  revert i. induction n as [|n IH]; intros i Hn [j [Hj Hjs]]; [lia|].
  cbn [remove_loop].
  destruct (stepper_motors s !! i) as [q|] eqn:Hi.
  - destruct (N.eqb q motor) eqn:Hq.
    + apply N.eqb_eq in Hq. subst q. exists i. repeat split; try lia; auto.
    + assert (j <> i) by (intros ->; rewrite Hi in Hjs; inversion Hjs; subst;
                          rewrite N.eqb_refl in Hq; discriminate).
      rewrite wrap32_shiftl_bit by lia.
      destruct (IH (S i)) as [j' [Hj' [Hjs' Heq]]]; [lia | exists j; split; [lia|auto] |].
      exists j'. repeat split; try lia; auto.
  - exfalso. apply lookup_ge_None in Hi.
    apply lookup_lt_Some in Hjs. lia.
Qed.

(** A motor that is in none of the slots the loop visits: the loop falls
    through when the vector has all those slots, and reads past its end
    otherwise. *)
Lemma add_loop_absent (motor : ptr) (reinit : bool) (n i : nat) (bm : Z) (s : t) :
  (forall j : nat, (i <= j < i + n)%nat -> stepper_motors s !! j <> Some motor) ->
  (i + n <= length (stepper_motors s))%nat ->
  add_loop motor reinit n i bm s = Some ([], s).
Proof.
  revert i bm. induction n as [|n IH]; intros i bm Habs Hlen; [reflexivity|].
  cbn [add_loop].
  destruct (stepper_motors s !! i) as [q|] eqn:Hi.
  - destruct (N.eqb q motor) eqn:Hq.
    + apply N.eqb_eq in Hq. subst q. exfalso. apply (Habs i); [lia|auto].
    + apply IH; [intros j Hj; apply Habs; lia | lia].
  - apply lookup_ge_None in Hi. lia.
Qed.

Lemma add_loop_past_end (motor : ptr) (reinit : bool) (n i : nat) (bm : Z) (s : t) :
  (forall j : nat, (i <= j < i + n)%nat -> stepper_motors s !! j <> Some motor) ->
  (i <= length (stepper_motors s) < i + n)%nat ->
  add_loop motor reinit n i bm s = None.
Proof.
  revert i bm. induction n as [|n IH]; intros i bm Habs Hlen; [lia|].
  cbn [add_loop].
  destruct (stepper_motors s !! i) as [q|] eqn:Hi; [|reflexivity].
  destruct (N.eqb q motor) eqn:Hq.
  - apply N.eqb_eq in Hq. subst q. exfalso. apply (Habs i); [lia|auto].
  - apply lookup_lt_Some in Hi.
    apply IH; [intros j Hj; apply Habs; lia | lia].
Qed.

Lemma remove_loop_absent (motor : ptr) (n i : nat) (bm : Z) (s : t) :
  (forall j : nat, (i <= j < i + n)%nat -> stepper_motors s !! j <> Some motor) ->
  (i + n <= length (stepper_motors s))%nat ->
  remove_loop motor n i bm s = Some ([], s).
Proof.
  revert i bm. induction n as [|n IH]; intros i bm Habs Hlen; [reflexivity|].
  cbn [remove_loop].
  destruct (stepper_motors s !! i) as [q|] eqn:Hi.
  - destruct (N.eqb q motor) eqn:Hq.
    + apply N.eqb_eq in Hq. subst q. exfalso. apply (Habs i); [lia|auto].
    + apply IH; [intros j Hj; apply Habs; lia | lia].
  - apply lookup_ge_None in Hi. lia.
Qed.

Lemma remove_loop_past_end (motor : ptr) (n i : nat) (bm : Z) (s : t) :
  (forall j : nat, (i <= j < i + n)%nat -> stepper_motors s !! j <> Some motor) ->
  (i <= length (stepper_motors s) < i + n)%nat ->
  remove_loop motor n i bm s = None.
Proof.
  revert i bm. induction n as [|n IH]; intros i bm Habs Hlen; [lia|].
  cbn [remove_loop].
  destruct (stepper_motors s !! i) as [q|] eqn:Hi; [|reflexivity].
  destruct (N.eqb q motor) eqn:Hq.
  - apply N.eqb_eq in Hq. subst q. exfalso. apply (Habs i); [lia|auto].
  - apply lookup_lt_Some in Hi.
    apply IH; [intros j Hj; apply Habs; lia | lia].
Qed.

(** *** What one call does to the timer *)

Lemma land_clear_stop (m : Z) :
  Z.land (Z.land m (not32 (Z.lor MCR_MR1R MCR_MR1S))) (Z.lor MCR_MR1R MCR_MR1S) = 0.
Proof.
  rewrite <- Z.land_assoc.
  replace (Z.land (not32 (Z.lor MCR_MR1R MCR_MR1S)) (Z.lor MCR_MR1R MCR_MR1S)) with 0
    by reflexivity.
  apply Z.land_0_r.
Qed.

Lemma land_set_stop (m : Z) :
  Z.land (Z.lor m (Z.lor MCR_MR1R MCR_MR1S)) (Z.lor MCR_MR1R MCR_MR1S) <> 0.
Proof.
  rewrite Z.land_lor_distr_l, Z.land_diag.
  intros H. apply Z.lor_eq_0_iff in H. destruct H as [_ H]. discriminate H.
Qed.

Lemma lor_bit_nonzero (bm : Z) (j : nat) : Z.lor bm (2 ^ Z.of_nat j) <> 0.
Proof.
  intros H. apply Z.lor_eq_0_iff in H. destruct H as [_ H].
  assert (0 < 2 ^ Z.of_nat j) by (apply Z.pow_pos_nonneg; lia). lia.
Qed.

Lemma do_call_registered (c : Call) (s : t) :
  registered s (call_motor c) ->
  exists ev s', do_call c s = Some (ev, s') /\
    stepper_motors s' = stepper_motors s /\
    call_effect c s ev s' /\
    (timer_inv s -> timer_inv s').
Proof.
  intros [j [Hj Hjs]]. destruct c as [p|p]; cbn [call_motor do_call] in *.
  - unfold add_motor_to_active_list.
    destruct (add_loop_registered p (active_motor_bm s =? 0) 12 0 s) as [k [Hk [_ Heq]]];
      [lia | exists j; split; [lia|auto] |].
    change (2 ^ Z.of_nat 0) with 1 in Heq. rewrite Heq. cbn zeta.
    pose proof (lor_bit_nonzero (active_motor_bm s) k) as Hnz.
    destruct (active_motor_bm s =? 0) eqn:Hz; eexists _, _;
      (split; [reflexivity|]); (split; [reflexivity|]); split.
    + cbn [call_effect]. rewrite Hz. cbn. auto.
    + intros _. unfold timer_inv, armed. cbn. split; [auto|].
      intros _. split; [reflexivity | apply land_clear_stop].
    + cbn [call_effect]. rewrite Hz. cbn. auto.
    + intros Hinv. unfold timer_inv, armed in *. cbn. split; [auto|].
      intros _. apply Hinv. apply Z.eqb_neq in Hz. exact Hz.
  - unfold remove_motor_from_active_list.
    destruct (remove_loop_registered p 12 0 s) as [k [Hk [_ Heq]]];
      [lia | exists j; split; [lia|auto] |].
    change (2 ^ Z.of_nat 0) with 1 in Heq. rewrite Heq. cbn zeta.
    cbn [active_motor_bm set_active_motor_bm].
    destruct (Z.land (active_motor_bm s) (not32 (2 ^ Z.of_nat k)) =? 0) eqn:Hz;
      eexists _, _; (split; [reflexivity|]); (split; [reflexivity|]); split.
    + cbn [call_effect]. cbn. rewrite Hz. auto.
    + intros _. unfold timer_inv, armed. cbn. apply Z.eqb_eq in Hz. split.
      * intros [_ Harm]. exfalso. exact (land_set_stop _ Harm).
      * intros Hbm. exfalso. auto.
    + cbn [call_effect]. cbn. rewrite Hz. auto.
    + intros Hinv. unfold timer_inv, armed in *. cbn. apply Z.eqb_neq in Hz. split; [auto|].
      intros _. apply Hinv. intros H0. rewrite H0 in Hz. auto.
Qed.

Lemma run_registered (calls : list Call) (s : t) :
  Forall (fun c => registered s (call_motor c)) calls ->
  timer_inv s ->
  exists evs s', run calls s = Some (evs, s') /\
    stepper_motors s' = stepper_motors s /\ timer_inv s'.
Proof.
  revert s. induction calls as [|c calls IH]; intros s Hreg Hinv.
  - exists [], s. auto.
  - inversion Hreg as [|? ? Hc Hcs]; subst.
    destruct (do_call_registered c s Hc) as [ev [s1 [Hdo [Hsm [_ Hinv1]]]]].
    destruct (IH s1) as [evs [s2 [Hrun [Hsm2 Hinv2]]]].
    + eapply Forall_impl; [exact Hcs|]. intros c' [j Hj]. exists j.
      unfold registered. rewrite Hsm. exact Hj.
    + auto.
    + exists (ev ++ evs), s2. cbn [run]. rewrite Hdo. cbn. rewrite Hrun. cbn.
      split; [reflexivity|]. split; [congruence | exact Hinv2].
Qed.


(** The constructor leaves the timer disabled and no motor active. *)
Lemma new_timer_inv (period0 mr1_0 tc : Z) :
  tc <= period0 -> timer_inv (new period0 mr1_0 tc).
Proof.
  intros Htc. unfold timer_inv, armed, new, set_frequency. cbn.
  destruct (Z.ltb_spec period0 tc); [lia|]. cbn.
  split; [intros [H0 _]; discriminate H0 | intros H0; exfalso; auto].
Qed.

Lemma add_stepper_motor_timer_inv (p : ptr) (m : StepperMotor) (s : t) :
  timer_inv s -> timer_inv (add_stepper_motor p m s).
Proof. intros H. exact H. Qed.

(** C9, as amended. In every sequence of [add_motor_to_active_list] and
    [remove_motor_from_active_list] calls on registered motors, started
    with the timer armed exactly when some motor is active (as it is after
    the constructor), every call returns and:
    - an add enables and resets the timer, with MR1's reset and stop
      cleared, exactly when [active_motor_bm] goes from zero to non-zero,
      and otherwise stores nothing to the timer;
    - a remove sets MR1's reset and stop exactly when it leaves
      [active_motor_bm] at zero, whether or not it was non-zero before,
      and otherwise stores nothing to the timer;
    - before and after the call the timer is armed if and only if some
      motor is active. *)
Theorem active_list_arms_timer (s : t) (pre : list Call) (c : Call) :
  timer_inv s ->
  Forall (fun c' => registered s (call_motor c')) (pre ++ [c]) ->
  exists ev1 s1 ev s2,
    run pre s = Some (ev1, s1) /\
    do_call c s1 = Some (ev, s2) /\
    call_effect c s1 ev s2 /\
    timer_inv s1 /\ timer_inv s2.
Proof.
  intros Hinv Hreg. apply Forall_app in Hreg. destruct Hreg as [Hpre Hc].
  inversion Hc as [|? ? Hc' _]; subst.
  destruct (run_registered pre s Hpre Hinv) as [ev1 [s1 [Hrun [Hsm Hinv1]]]].
  assert (Hc1 : registered s1 (call_motor c)).
  { destruct Hc' as [j Hj]. exists j. rewrite Hsm. exact Hj. }
  destruct (do_call_registered c s1 Hc1) as [ev [s2 [Hdo [_ [Heff Hinv2]]]]].
  exists ev1, s1, ev, s2.
  split; [exact Hrun|]. split; [exact Hdo|]. split; [exact Heff|].
  split; [exact Hinv1 | exact (Hinv2 Hinv1)].
Qed.

Lemma active_list_arms_timer_witness :
  timer_inv booted /\
  Forall (fun c' => registered booted (call_motor c'))
         ([Add 1%N; Add 2%N; Remove 1%N] ++ [Remove 2%N]) /\
  exists ev1 s1 ev s2,
    run [Add 1%N; Add 2%N; Remove 1%N] booted = Some (ev1, s1) /\
    do_call (Remove 2%N) s1 = Some (ev, s2) /\
    call_effect (Remove 2%N) s1 ev s2 /\
    timer_inv s1 /\ timer_inv s2.
Proof.
  assert (Hinv : timer_inv booted).
  { unfold booted. do 3 apply add_stepper_motor_timer_inv.
    apply new_timer_inv. lia. }
  assert (Hreg : Forall (fun c' => registered booted (call_motor c'))
                        ([Add 1%N; Add 2%N; Remove 1%N] ++ [Remove 2%N])).
  { repeat constructor.
    - exists 0%nat. split; [lia | reflexivity].
    - exists 1%nat. split; [lia | reflexivity].
    - exists 0%nat. split; [lia | reflexivity].
    - exists 1%nat. split; [lia | reflexivity]. }
  split; [exact Hinv|]. split; [exact Hreg|].
  exact (active_list_arms_timer booted [Add 1%N; Add 2%N; Remove 1%N] (Remove 2%N) Hinv Hreg).
Defined.

(** C9 as it is written fails: after boot no motor is active; removing
    the registered motor 1 leaves [active_motor_bm] at zero, which is no
    transition, and yet sets MR1's reset and stop in [MCR] (from 3 to 51).
    So a remove does not store to the timer only on transitions to
    zero. *)
Lemma remove_while_idle_sets_stop :
  registered booted 1%N /\
  active_motor_bm booted = 0 /\ MCR booted = 3 /\
  (exists s', remove_motor_from_active_list 1%N booted = Some ([WriteMCR 51], s') /\
     active_motor_bm s' = 0 /\ MCR s' = 51) /\
  ~ stop_only_on_transition.
Proof.
  assert (Hreg : registered booted 1%N) by (exists 0%nat; split; [lia | reflexivity]).
  split; [exact Hreg|].
  split; [reflexivity|]. split; [reflexivity|].
  split; [eexists; split; [reflexivity|]; split; reflexivity|].
  intros Hclaim.
  destruct (Hclaim booted 1%N [WriteMCR 51] _ Hreg eq_refl ltac:(discriminate)) as [Hnz _].
  apply Hnz. reflexivity.
Qed.

(** *** Motors that are not registered *)

(** Where the vector has its twelve slots, a call for a motor that is in
    none of them changes nothing. *)
Lemma unregistered_noop (s : t) (motor : ptr) :
  ~ registered s motor ->
  (12 <= length (stepper_motors s))%nat ->
  add_motor_to_active_list motor s = Some ([], s) /\
  remove_motor_from_active_list motor s = Some ([], s).
Proof.
  intros Hreg Hlen.
  assert (Habs : forall j : nat, (0 <= j < 0 + 12)%nat -> stepper_motors s !! j <> Some motor).
  { intros j Hj Hs. apply Hreg. exists j. split; [lia | exact Hs]. }
  split; [apply add_loop_absent | apply remove_loop_absent]; auto.
Qed.

(** Where it has fewer, the loops index it past its end. *)
Lemma unregistered_past_end (s : t) (motor : ptr) :
  ~ registered s motor ->
  (length (stepper_motors s) < 12)%nat ->
  add_motor_to_active_list motor s = None /\
  remove_motor_from_active_list motor s = None.
Proof.
  intros Hreg Hlen.
  assert (Habs : forall j : nat, (0 <= j < 0 + 12)%nat -> stepper_motors s !! j <> Some motor).
  { intros j Hj Hs. apply Hreg. exists j. split; [lia | exact Hs]. }
  split; [apply add_loop_past_end | apply remove_loop_past_end]; auto; lia.
Qed.

(** C10 at a failing input: with three motors registered, a call for the
    unregistered motor 9 finds it in none of the slots 0 to 2 and then
    reads [stepper_motors[3]], past the end of the vector, in both
    functions; neither is the no-op the claim states. *)
Theorem unregistered_motor_reads_past_end :
  length (stepper_motors booted) = 3%nat /\
  ~ registered booted 9%N /\
  add_motor_to_active_list 9%N booted = None /\
  remove_motor_from_active_list 9%N booted = None.
Proof.
  assert (Hreg : ~ registered booted 9%N).
  { intros [j [Hj Hs]].
    do 3 (destruct j as [|j]; [discriminate Hs|]). discriminate Hs. }
  split; [reflexivity|]. split; [exact Hreg|].
  apply unregistered_past_end; [exact Hreg | cbn; lia].
Qed.

(** ** Well-formed tickers *)

Lemma land_pow2_ne (i j : nat) : i <> j -> Z.land (2 ^ Z.of_nat i) (2 ^ Z.of_nat j) = 0.
Proof.
  intros Hne. apply Z.bits_inj'. intros n Hn.
  rewrite Z.land_spec, !Z.pow2_bits_eqb, Z.bits_0 by lia.
  destruct (Z.eqb_spec (Z.of_nat i) n), (Z.eqb_spec (Z.of_nat j) n); try reflexivity. lia.
Qed.

Lemma bm_test_set_bit (s : t) (i j : nat) :
  bm_test (set_active_motor_bm (Z.lor (active_motor_bm s) (2 ^ Z.of_nat i)) s)
          (2 ^ Z.of_nat j) = true ->
  j = i \/ bm_test s (2 ^ Z.of_nat j) = true.
Proof.
  unfold bm_test. cbn [active_motor_bm set_active_motor_bm].
  destruct (decide (i = j)) as [->|Hne]; [auto|].
  rewrite Z.land_lor_distr_l, (land_pow2_ne i j Hne), Z.lor_0_r. auto.
Qed.

Lemma bm_test_clear_bits (s : t) (x y : Z) :
  bm_test (set_active_motor_bm (Z.land (active_motor_bm s) x) s) y = true ->
  bm_test s y = true.
Proof.
  unfold bm_test. cbn [active_motor_bm set_active_motor_bm].
  destruct (Z.eqb_spec (Z.land (active_motor_bm s) y) 0) as [H0|]; [|reflexivity].
  rewrite <- Z.land_assoc, (Z.land_comm x y), Z.land_assoc, H0, Z.land_0_l.
  intros H. discriminate H.
Qed.

(** What the two loops return, when they return: either nothing changed,
    or the first slot from [i] on that holds the motor was found. *)
Lemma add_loop_inv (motor : ptr) (reinit : bool) (n i : nat) (s : t)
      (ev : list Event) (s' : t) :
  (i + n = 12)%nat ->
  add_loop motor reinit n i (2 ^ Z.of_nat i) s = Some (ev, s') ->
  (ev = [] /\ s' = s) \/
  exists j : nat, (i <= j < 12)%nat /\ stepper_motors s !! j = Some motor /\
    (forall k : nat, (i <= k < j)%nat -> stepper_motors s !! k <> Some motor) /\
    exists mcr tcr,
      s' = set_TCR tcr (set_MCR mcr
             (set_active_motor_bm (Z.lor (active_motor_bm s) (2 ^ Z.of_nat j)) s)).
Proof.
  revert i. induction n as [|n IH]; intros i Hn H.
  - inversion H; subst. auto.
  - cbn [add_loop] in H.
    destruct (stepper_motors s !! i) as [q|] eqn:Hi; [|discriminate H].
    destruct (N.eqb q motor) eqn:Hq.
    + apply N.eqb_eq in Hq. subst q. right. exists i.
      split; [lia|]. split; [exact Hi|]. split; [intros k Hk; lia|].
      destruct reinit; inversion H; subst.
      * eexists _, _. reflexivity.
      * exists (MCR s), (TCR s). destruct s; reflexivity.
    + rewrite wrap32_shiftl_bit in H by lia.
      destruct (IH (S i) ltac:(lia) H) as [Hsame|[j [Hj [Hjs [Hfirst Hs']]]]]; [auto|].
      right. exists j. split; [lia|]. split; [exact Hjs|]. split; [|exact Hs'].
      intros k Hk. destruct (decide (k = i)) as [->|Hne].
      * rewrite Hi. intros Heq. inversion Heq; subst. rewrite N.eqb_refl in Hq. discriminate Hq.
      * apply Hfirst. lia.
Qed.

Lemma remove_loop_inv (motor : ptr) (n i : nat) (s : t) (ev : list Event) (s' : t) :
  (i + n = 12)%nat ->
  remove_loop motor n i (2 ^ Z.of_nat i) s = Some (ev, s') ->
  (ev = [] /\ s' = s) \/
  exists x mcr,
    s' = set_MCR mcr (set_active_motor_bm (Z.land (active_motor_bm s) x) s).
Proof.
  revert i. induction n as [|n IH]; intros i Hn H.
  - inversion H; subst. auto.
  - cbn [remove_loop] in H.
    destruct (stepper_motors s !! i) as [q|] eqn:Hi; [|discriminate H].
    destruct (N.eqb q motor) eqn:Hq.
    + right. destruct (active_motor_bm _ =? 0); inversion H; subst.
      * eexists _, _. reflexivity.
      * exists (not32 (2 ^ Z.of_nat i)), (MCR s). destruct s; reflexivity.
    + rewrite wrap32_shiftl_bit in H by lia. apply (IH (S i)); [lia | exact H].
Qed.

Lemma well_formed_new (period0 mr1_0 tc : Z) : well_formed (new period0 mr1_0 tc).
Proof.
  split.
  - intros p Hp. unfold new, set_frequency in Hp.
    destruct (_ <? tc) in Hp; cbn in Hp; inversion Hp.
  - intros j Hj Hb. unfold new, set_frequency, bm_test in Hb.
    destruct (_ <? tc) in Hb; cbn in Hb; discriminate Hb.
Qed.

Lemma well_formed_add_stepper_motor (p : ptr) (m : StepperMotor) (s : t) :
  well_formed s -> well_formed (add_stepper_motor p m s).
Proof.
  intros [Hlive Hfirst]. split.
  - intros q Hq. cbn in Hq |- *. apply lookup_insert_is_Some.
    destruct (decide (p = q)); [auto|]. right. split; [assumption|].
    apply elem_of_app in Hq. destruct Hq as [Hq|Hq]; [auto|].
    apply list_elem_of_singleton in Hq. congruence.
  - intros j Hj Hb. destruct (Hfirst j Hj Hb) as [q [Hq Hk]].
    exists q. cbn [stepper_motors add_stepper_motor set_motors set_stepper_motors].
    pose proof (lookup_lt_Some _ _ _ Hq) as Hlt.
    split; [rewrite lookup_app_l by exact Hlt; exact Hq|].
    intros k Hkj. rewrite lookup_app_l by lia. apply Hk. exact Hkj.
Qed.

Lemma well_formed_do_call (c : Call) (s : t) (ev : list Event) (s' : t) :
  well_formed s -> do_call c s = Some (ev, s') -> well_formed s'.
Proof.
  intros [Hlive Hfirst] Hdo. destruct c as [motor|motor]; cbn [do_call] in Hdo.
  - unfold add_motor_to_active_list in Hdo. change 1 with (2 ^ Z.of_nat 0) in Hdo.
    apply add_loop_inv in Hdo; [|reflexivity].
    destruct Hdo as [[_ ->]|[j [Hj [Hjs [Hmin [mcr [tcr ->]]]]]]]; [split; assumption|].
    split; [exact Hlive|].
    intros j' Hj' Hb.
    change (bm_test (set_active_motor_bm (Z.lor (active_motor_bm s) (2 ^ Z.of_nat j)) s)
                    (2 ^ Z.of_nat j') = true) in Hb.
    apply bm_test_set_bit in Hb. destruct Hb as [->|Hb].
    + exists motor. split; [exact Hjs|]. intros k Hk. apply Hmin. lia.
    + exact (Hfirst j' Hj' Hb).
  - unfold remove_motor_from_active_list in Hdo. change 1 with (2 ^ Z.of_nat 0) in Hdo.
    apply remove_loop_inv in Hdo; [|reflexivity].
    destruct Hdo as [[_ ->]|[x [mcr ->]]]; [split; assumption|].
    split; [exact Hlive|].
    intros j' Hj' Hb.
    change (bm_test (set_active_motor_bm (Z.land (active_motor_bm s) x) s)
                    (2 ^ Z.of_nat j') = true) in Hb.
    apply bm_test_clear_bits in Hb. exact (Hfirst j' Hj' Hb).
Qed.

Lemma reachable_well_formed (s : t) : reachable s -> well_formed s.
Proof.
  induction 1 as [period0 mr1_0 tc | p m s _ IH | c s ev s' _ IH Hdo].
  - apply well_formed_new.
  - apply well_formed_add_stepper_motor, IH.
  - exact (well_formed_do_call c s ev s' IH Hdo).
Qed.

Lemma elem_of_active_from (s : t) (n i : nat) (q : ptr) :
  q ∈ active_from s n i <->
  exists j : nat, (i <= j < i + n)%nat /\ bm_test s (2 ^ Z.of_nat j) = true /\
    stepper_motors s !! j = Some q.
Proof.
  revert i. induction n as [|n IH]; intros i.
  - split; [intros H; inversion H | intros [j [Hj _]]; lia].
  - cbn [active_from]. rewrite elem_of_app, IH. split.
    + intros [H|[j [Hj H]]].
      * destruct (bm_test s (2 ^ Z.of_nat i)) eqn:Hb; [|inversion H].
        destruct (stepper_motors s !! i) as [p|] eqn:Hi; [|inversion H].
        apply list_elem_of_singleton in H. subst. exists i. split; [lia|]. auto.
      * exists j. split; [lia | exact H].
    + intros [j [Hj [Hb Hs]]]. destruct (decide (j = i)) as [->|Hne].
      * left. rewrite Hb, Hs. apply list_elem_of_singleton. reflexivity.
      * right. exists j. split; [lia|]. auto.
Qed.

Lemma well_formed_NoDup_from (s : t) (n i : nat) :
  well_formed s -> (i + n <= 12)%nat -> NoDup (active_from s n i).
Proof.
  intros [_ Hfirst]. revert i. induction n as [|n IH]; intros i Hn; [constructor|].
  cbn [active_from].
  destruct (bm_test s (2 ^ Z.of_nat i)) eqn:Hb; [|apply IH; lia].
  destruct (stepper_motors s !! i) as [p|] eqn:Hi; [|apply IH; lia].
  cbn [app]. apply NoDup_cons. split; [|apply IH; lia].
  intros Hin. apply elem_of_active_from in Hin.
  destruct Hin as [j [Hj [Hbj Hsj]]].
  destruct (Hfirst j ltac:(lia) Hbj) as [q [Hq Hk]].
  rewrite Hsj in Hq. inversion Hq; subst q.
  apply (Hk i ltac:(lia)). exact Hi.
Qed.

(** On a reachable ticker every active slot holds a motor and no two
    active slots hold the same one. *)
Lemma reachable_slots (s : t) :
  reachable s -> slots_live s /\ NoDup (active_ptrs s).
Proof.
  intros Hr. pose proof (reachable_well_formed s Hr) as Hwf. split.
  - intros j Hj Hb. destruct Hwf as [Hlive Hfirst].
    destruct (Hfirst j Hj Hb) as [p [Hp _]]. exists p. split; [exact Hp|].
    apply Hlive. apply list_elem_of_lookup. exists j. exact Hp.
  - apply well_formed_NoDup_from; [exact Hwf | lia].
Qed.

(** ** The overrun catch-up *)

Lemma set_motors_id (s : t) : set_motors (motors s) s = s.
Proof. destruct s; reflexivity. Qed.

Lemma active_from_set_motors (ms : gmap ptr StepperMotor) (s : t) (n i : nat) :
  active_from (set_motors ms s) n i = active_from s n i.
Proof.
  revert i. induction n as [|n IH]; intros i; [reflexivity|].
  cbn [active_from]. rewrite IH. reflexivity.
Qed.

Lemma ticks_until_pulse_range (m : StepperMotor) : 0 <= ticks_until_pulse m < 2 ^ 32.
Proof. unfold ticks_until_pulse, wrap32. apply Z.mod_pos_bound. reflexivity. Qed.

Lemma ticks_until_pulse_exact (m : StepperMotor) :
  0 <= fx_counter m <= fx_ticks_per_step m -> fx_ticks_per_step m < 2 ^ 64 ->
  ticks_until_pulse m = (fx_ticks_per_step m - fx_counter m) / 2 ^ 32.
Proof.
  intros Hc Ht. unfold ticks_until_pulse, wrap32, wrap64.
  rewrite (Z.mod_small (fx_ticks_per_step m)) by lia.
  rewrite (Z.mod_small (fx_counter m)) by lia.
  rewrite (Z.mod_small (fx_ticks_per_step m - fx_counter m)) by lia.
  rewrite Z.shiftr_div_pow2 by lia.
  apply Z.mod_small. split; [apply Z.div_pos; lia|].
  apply Z.div_lt_upper_bound; lia.
Qed.

Lemma advance_counter (skip : Z) (m : StepperMotor) :
  0 <= skip ->
  fx_counter (advance skip m) = wrap64 (fx_counter m + skip * 2 ^ 32).
Proof.
  intros Hs. unfold advance, wrap64. cbn [fx_counter set_fx_counter].
  rewrite Z.shiftl_mul_pow2 by lia.
  rewrite Z.add_mod_idemp_r by lia. reflexivity.
Qed.

Lemma advance_zero (m : StepperMotor) :
  0 <= fx_counter m < 2 ^ 64 -> advance 0 m = m.
Proof.
  intros Hc. destruct m. unfold advance, set_fx_counter, wrap64 in *. cbn in *.
  rewrite Z.add_0_r, Z.mod_small by lia. reflexivity.
Qed.

Lemma can_skip_loop_spec (n i : nat) (s : t) (acc : Z) :
  (i + n = 12)%nat ->
  (forall j : nat, (i <= j < 12)%nat -> bm_test s (2 ^ Z.of_nat j) = true ->
     exists p, stepper_motors s !! j = Some p /\ is_Some (motors s !! p)) ->
  exists r, can_skip_loop n i (2 ^ Z.of_nat i) s acc = Some r /\
    r <= acc /\
    (forall p m, p ∈ active_from s n i -> motors s !! p = Some m ->
       r <= ticks_until_pulse m) /\
    (r = acc \/
     exists p m, p ∈ active_from s n i /\ motors s !! p = Some m /\
       r = ticks_until_pulse m).
Proof.
  revert i acc. induction n as [|n IH]; intros i acc Hn Hlive.
  - exists acc. cbn. split; [reflexivity|]. split; [lia|].
    split; [|left; reflexivity]. intros p m Hp. inversion Hp.
  - cbn [can_skip_loop active_from]. rewrite wrap32_shiftl_bit by lia.
    destruct (bm_test s (2 ^ Z.of_nat i)) eqn:Hb.
    + destruct (Hlive i ltac:(lia) Hb) as [p [Hp [m Hm]]].
      rewrite Hp. cbn. rewrite Hm. cbn.
      destruct (IH (S i) (Z.min acc (ticks_until_pulse m)) ltac:(lia)) as [r [Hr [Hle [Hall Hex]]]].
      { intros j Hj. apply Hlive. lia. }
      exists r. split; [exact Hr|]. split; [lia|]. split.
      * intros q mq Hq Hmq. apply elem_of_cons in Hq. destruct Hq as [->|Hq].
        -- rewrite Hm in Hmq. inversion Hmq; subst. lia.
        -- eapply Hall; eauto.
      * destruct Hex as [Hex|[q [mq [Hq [Hmq Hrq]]]]].
        -- destruct (Z.min_spec acc (ticks_until_pulse m)) as [[_ Hmin]|[_ Hmin]].
           ++ left. lia.
           ++ right. exists p, m. split; [apply elem_of_cons; auto|]. split; [auto|lia].
        -- right. exists q, mq. split; [apply elem_of_cons; auto|]. auto.
    + cbn [app].
      destruct (IH (S i) acc ltac:(lia)) as [r Hr]; [intros j Hj; apply Hlive; lia|].
      exists r. exact Hr.
Qed.

Lemma advance_loop_spec (skip : Z) (n i : nat) (s : t) (ms : gmap ptr StepperMotor) :
  (i + n = 12)%nat ->
  NoDup (active_from s n i) ->
  (forall j : nat, (i <= j < 12)%nat -> bm_test s (2 ^ Z.of_nat j) = true ->
     exists p, stepper_motors s !! j = Some p /\ is_Some (ms !! p)) ->
  exists ms', advance_loop n i (2 ^ Z.of_nat i) skip (set_motors ms s)
              = Some (set_motors ms' s) /\
    (forall p, p ∈ active_from s n i -> ms' !! p = advance skip <$> ms !! p) /\
    (forall p, p ∉ active_from s n i -> ms' !! p = ms !! p).
Proof.
  revert i ms. induction n as [|n IH]; intros i ms Hn Hnd Hlive.
  - exists ms. cbn. split; [reflexivity|]. split; [|reflexivity].
    intros p Hp. inversion Hp.
  - cbn [advance_loop]. rewrite wrap32_shiftl_bit by lia.
    cbn [active_from] in *.
    change (bm_test (set_motors ms s) (2 ^ Z.of_nat i)) with (bm_test s (2 ^ Z.of_nat i)).
    change (stepper_motors (set_motors ms s)) with (stepper_motors s).
    change (motors (set_motors ms s)) with ms.
    destruct (bm_test s (2 ^ Z.of_nat i)) eqn:Hb.
    + destruct (Hlive i ltac:(lia) Hb) as [p [Hp [m Hm]]].
      rewrite Hp in *. cbn. rewrite Hm. cbn.
      cbn [app] in Hnd. apply NoDup_cons in Hnd. destruct Hnd as [Hnotin Hnd].
      change (set_motors (<[p:=advance skip m]> ms) (set_motors ms s))
        with (set_motors (<[p:=advance skip m]> ms) s).
      destruct (IH (S i) (<[p:=advance skip m]> ms) ltac:(lia) Hnd) as [ms' [Heq [Hin Hout]]].
      { intros j Hj Hbj. destruct (Hlive j ltac:(lia) Hbj) as [q [Hq Hsome]].
        exists q. split; [exact Hq|]. apply lookup_insert_is_Some.
        destruct (decide (p = q)); auto. }
      exists ms'. split; [exact Heq|]. split.
      * intros q Hq. apply elem_of_cons in Hq. destruct Hq as [->|Hq].
        -- rewrite Hout by exact Hnotin. rewrite lookup_insert_eq, Hm. reflexivity.
        -- rewrite Hin by exact Hq.
           rewrite lookup_insert_ne; [reflexivity|]. intros ->. contradiction.
      * intros q Hq. apply not_elem_of_cons in Hq. destruct Hq as [Hne Hq].
        rewrite Hout by exact Hq. apply lookup_insert_ne. congruence.
    + cbn [app] in *. apply IH; auto. lia.
      intros j Hj. apply Hlive. lia.
Qed.

Lemma ticks_to_skip_nonneg (tc_now : Z) (s : t) :
  0 < period s -> 0 <= ticks_to_skip tc_now s < 2 ^ 32.
Proof.
  intros Hp. unfold ticks_to_skip, wrap32.
  pose proof (Z.mod_pos_bound (tc_now + last_duration s) (2 ^ 32) ltac:(reflexivity)) as Hm.
  split; [apply Z.div_pos; lia|].
  apply Z.div_lt_upper_bound; [lia|]. nia.
Qed.

(** C1. In the catch-up path of the MR0 interrupt (the counter exceeds the
    period after a move finished), with [tts = (TC + last_duration) /
    period] in 32-bit arithmetic: the function returns; the number [skip]
    of ticks skipped is the minimum of [tts] and, over the active motors,
    of [(fx_ticks_per_step - fx_counter) >> 32] in unsigned 64-bit
    arithmetic, which is [floor ((fx_ticks_per_step - fx_counter) / 2^32)]
    for a motor whose counter is at most its ticks per step; every active
    motor's [fx_counter] is advanced by [skip * 2^32] (modulo 2^64), no
    other motor is touched, and a motor whose counter was at most its
    ticks per step still has it so, the sum not wrapping; when [skip] is 0
    no motor changes; and MR0 is set to [(tts + 1) * period], which lies
    past the counter when the 32-bit arithmetic does not wrap. The two
    hypotheses on the slots hold on every reachable ticker
    ([reachable_slots]). *)
Theorem catch_up_skips_whole_ticks (tc : nat -> Z) (s : t) :
  period s < tc 0%nat ->
  0 < period s ->
  slots_live s ->
  NoDup (active_ptrs s) ->
  let tts := ticks_to_skip (tc 2%nat) s in
  exists skip s',
    catch_up tc s = Some ([WriteMR0 (wrap32 ((tts + 1) * period s))], s', 4%nat) /\
    is_min_skip s tts skip /\
    (forall p m, p ∈ active_ptrs s -> motors s !! p = Some m ->
       motors s' !! p = Some (advance skip m) /\
       fx_counter (advance skip m) = wrap64 (fx_counter m + skip * 2 ^ 32)) /\
    (forall p, p ∉ active_ptrs s -> motors s' !! p = motors s !! p) /\
    (forall p m, p ∈ active_ptrs s -> motors s !! p = Some m ->
       0 <= fx_counter m <= fx_ticks_per_step m -> fx_ticks_per_step m < 2 ^ 64 ->
       ticks_until_pulse m = (fx_ticks_per_step m - fx_counter m) / 2 ^ 32 /\
       fx_counter (advance skip m) = fx_counter m + skip * 2 ^ 32 /\
       fx_counter (advance skip m) <= fx_ticks_per_step m) /\
    (skip = 0 ->
     forall p m, motors s !! p = Some m -> 0 <= fx_counter m < 2 ^ 64 ->
       motors s' !! p = Some m) /\
    MR0 s' = wrap32 ((tts + 1) * period s) /\
    (0 <= tc 2%nat -> 0 <= last_duration s ->
     tc 2%nat + last_duration s + period s < 2 ^ 32 ->
     tc 2%nat < MR0 s').
Proof.
  intros Hover Hper Hlive Hnd tts.
  pose proof (ticks_to_skip_nonneg (tc 2%nat) s Hper) as Htts. fold tts in Htts.
  destruct (can_skip_loop_spec 12 0 s tts eq_refl) as [skip [Hskip Hmin]].
  { intros j Hj. apply Hlive. lia. }
  destruct (advance_loop_spec skip 12 0 s (motors s) eq_refl Hnd) as [ms' [Hadv [Hin Hout]]].
  { intros j Hj. apply Hlive. lia. }
  rewrite set_motors_id in Hadv.
  change (2 ^ Z.of_nat 0) with 1 in Hskip, Hadv.
  assert (Hskip0 : 0 <= skip).
  { destruct Hmin as [_ [_ [->|[p [m [_ [_ ->]]]]]]]; [lia|].
    apply ticks_until_pulse_range. }
  assert (Hskip_le : skip <= tts) by apply Hmin.
  set (mr0 := wrap32 ((tts + 1) * period s)).
  set (diff := to_int32 (to_int32 (tc 3%nat) - to_int32 (tc 1%nat))).
  exists skip,
    (if 0 <? diff
     then set_last_duration (wrap32 diff) (set_MR0 mr0 (set_motors ms' s))
     else set_MR0 mr0 (set_motors ms' s)).
  assert (Hms : motors (if 0 <? diff
                        then set_last_duration (wrap32 diff) (set_MR0 mr0 (set_motors ms' s))
                        else set_MR0 mr0 (set_motors ms' s)) = ms')
    by (destruct (0 <? diff); reflexivity).
  assert (Hmr : MR0 (if 0 <? diff
                     then set_last_duration (wrap32 diff) (set_MR0 mr0 (set_motors ms' s))
                     else set_MR0 mr0 (set_motors ms' s)) = mr0)
    by (destruct (0 <? diff); reflexivity).
  rewrite Hms, Hmr.
  split.
  { unfold catch_up.
    destruct (Z.ltb_spec (period s) (tc 0%nat)); [|lia].
    destruct (Z.eqb_spec (period s) 0); [lia|].
    fold tts. rewrite Hskip. cbn [mbind option_bind].
    rewrite Hadv. cbn [mbind option_bind]. reflexivity. }
  split; [exact Hmin|].
  split.
  { intros p m Hp Hm. split; [|apply advance_counter; exact Hskip0].
    rewrite (Hin p Hp), Hm. reflexivity. }
  split; [exact Hout|].
  split.
  { intros p m Hp Hm Hc Ht.
    pose proof (ticks_until_pulse_exact m Hc Ht) as Hex.
    split; [exact Hex|].
    assert (Hle : skip <= ticks_until_pulse m).
    { destruct Hmin as [_ [Hall _]]. exact (Hall p m Hp Hm). }
    rewrite Hex in Hle.
    assert (Hmul : skip * 2 ^ 32 <= fx_ticks_per_step m - fx_counter m).
    { pose proof (Z.mul_div_le (fx_ticks_per_step m - fx_counter m) (2 ^ 32) ltac:(lia)).
      nia. }
    rewrite advance_counter by exact Hskip0. unfold wrap64.
    rewrite Z.mod_small by nia. lia. }
  split.
  { intros -> p m Hm Hc.
    destruct (decide (p ∈ active_ptrs s)) as [Hp|Hp].
    - rewrite (Hin p Hp), Hm. cbn. rewrite advance_zero by exact Hc. reflexivity.
    - rewrite (Hout p Hp). exact Hm. }
  split; [reflexivity|].
  intros Htc Hld Hsum. unfold mr0, wrap32.
  assert (Hw : wrap32 (tc 2%nat + last_duration s) = tc 2%nat + last_duration s)
    by (apply Z.mod_small; lia).
  assert (Hdiv : tts = (tc 2%nat + last_duration s) / period s)
    by (unfold tts, ticks_to_skip; rewrite Hw; reflexivity).
  pose proof (Z.mul_div_le (tc 2%nat + last_duration s) (period s) Hper) as Hlo.
  pose proof (Z.mul_succ_div_gt (tc 2%nat + last_duration s) (period s) Hper) as Hhi.
  rewrite <- Hdiv in Hlo, Hhi.
  rewrite Z.mod_small by nia. nia.
Qed.

Lemma catch_up_skips_whole_ticks_witness :
  let s := overrun_example in
  let tc := fun _ : nat => 1000 in
  period s < tc 0%nat /\ 0 < period s /\ slots_live s /\ NoDup (active_ptrs s) /\
  exists skip s',
    catch_up tc s = Some ([WriteMR0 1250], s', 4%nat) /\
    is_min_skip s 4 skip /\
    MR0 s' = 1250.
Proof.
  intros s tc.
  assert (H1 : period s < tc 0%nat) by reflexivity.
  assert (H2 : 0 < period s) by reflexivity.
  assert (H3 : slots_live s).
  { intros j Hj Hb.
    destruct j as [|[|j]].
    - exists 1%N. split; [reflexivity | eexists; reflexivity].
    - exists 2%N. split; [reflexivity | eexists; reflexivity].
    - exfalso. do 10 (destruct j as [|j]; [discriminate Hb|]). lia. }
  assert (H4 : NoDup (active_ptrs s)).
  { change (active_ptrs s) with [1%N; 2%N].
    repeat constructor; intros Hin; repeat (apply elem_of_cons in Hin; destruct Hin as [Hin|Hin]);
      try discriminate Hin; inversion Hin. }
  split; [exact H1|]. split; [exact H2|]. split; [exact H3|]. split; [exact H4|].
  destruct (catch_up_skips_whole_ticks tc s H1 H2 H3 H4)
    as [skip [s' [Hc [Hmin [_ [_ [_ [_ [Hmr _]]]]]]]]].
  exists skip, s'. split; [exact Hc|]. split; [exact Hmin | exact Hmr].
Defined.

(** C1 as it is written fails where an active motor's counter is above
    its ticks per step, as it may be within the bound of twice the ticks
    per step that the specification gives. In [overshoot_example], with
    the counter read as 1000 and a period of 250, [ticks_to_skip] is 4 and
    the floors of [(fx_ticks_per_step - fx_counter) / 2^32] are 2 for
    motor 1 and -5 for motor 2, so the minimum that the claim names is -5.
    The code takes the difference in unsigned 64-bit arithmetic, where
    motor 2 gives 2^32 - 5: it skips 2 ticks and advances both counters by
    [2 * 2^32], motor 1 from [2^32] to [3 * 2^32], and not by
    [-5 * 2^32]. *)
Lemma catch_up_skip_is_not_the_floor_minimum :
  let s := overshoot_example in
  let tc := fun _ : nat => 1000 in
  period s < tc 0%nat /\ 0 < period s /\ slots_live s /\ NoDup (active_ptrs s) /\
  counters_in_range s /\
  ticks_to_skip (tc 2%nat) s = 4 /\
  is_min_floor s 4 (-5) /\
  is_min_skip s 4 2 /\
  (exists s',
     catch_up tc s = Some ([WriteMR0 1250], s', 4%nat) /\
     fx_counter <$> motors s' !! 1%N = Some (3 * 2 ^ 32) /\
     fx_counter <$> motors s' !! 2%N = Some (16 * 2 ^ 32 + 2 ^ 31)) /\
  ~ skips_minimum_of_floors.
Proof.
  intros s tc.
  set (m1 := mkStepperMotor 100 7 (2 ^ 32) (3 * 2 ^ 32 + 5) false true false F0_0).
  set (m2 := mkStepperMotor 50 3 (14 * 2 ^ 32 + 2 ^ 31) (10 * 2 ^ 32) false true false F0_0).
  assert (Hm1 : motors s !! 1%N = Some m1) by reflexivity.
  assert (Hm2 : motors s !! 2%N = Some m2) by reflexivity.
  assert (Hact : active_ptrs s = [1%N; 2%N]) by reflexivity.
  assert (Hcases : forall P : StepperMotor -> Prop, P m1 -> P m2 ->
            forall p m, p ∈ active_ptrs s -> motors s !! p = Some m -> P m).
  { intros P HP1 HP2 p m Hp Hm. rewrite Hact in Hp.
    apply elem_of_cons in Hp. destruct Hp as [->|Hp].
    - rewrite Hm1 in Hm. injection Hm as <-. exact HP1.
    - apply elem_of_cons in Hp. destruct Hp as [->|Hp]; [|inversion Hp].
      rewrite Hm2 in Hm. injection Hm as <-. exact HP2. }
  assert (Hin1 : 1%N ∈ active_ptrs s) by (rewrite Hact; apply elem_of_cons; auto).
  assert (Hin2 : 2%N ∈ active_ptrs s)
    by (rewrite Hact; apply elem_of_cons; right; apply elem_of_cons; auto).
  assert (H1 : period s < tc 0%nat) by reflexivity.
  assert (H2 : 0 < period s) by reflexivity.
  assert (H3 : slots_live s).
  { intros j Hj Hb.
    destruct j as [|[|j]].
    - exists 1%N. split; [reflexivity | eexists; reflexivity].
    - exists 2%N. split; [reflexivity | eexists; reflexivity].
    - exfalso. do 10 (destruct j as [|j]; [discriminate Hb|]). lia. }
  assert (H4 : NoDup (active_ptrs s)).
  { rewrite Hact.
    repeat constructor; intros Hin; repeat (apply elem_of_cons in Hin; destruct Hin as [Hin|Hin]);
      try discriminate Hin; inversion Hin. }
  assert (H5 : counters_in_range s).
  { unfold counters_in_range.
    apply (Hcases (fun m => 0 <= fx_counter m < 2 * fx_ticks_per_step m /\
                             fx_ticks_per_step m < 2 ^ 63));
      unfold m1, m2; cbn [fx_counter fx_ticks_per_step]; lia. }
  assert (Hfloor : is_min_floor s 4 (-5)).
  { split; [lia|]. split.
    - apply (Hcases (fun m => -5 <= floor_until_pulse m)); apply Z.leb_le; reflexivity.
    - right. exists 2%N, m2. split; [exact Hin2|]. split; [exact Hm2 | reflexivity]. }
  assert (Hskip : is_min_skip s 4 2).
  { split; [lia|]. split.
    - apply (Hcases (fun m => 2 <= ticks_until_pulse m)); apply Z.leb_le; reflexivity.
    - right. exists 1%N, m1. split; [exact Hin1|]. split; [exact Hm1 | reflexivity]. }
  assert (Hrun : exists s',
            catch_up tc s = Some ([WriteMR0 1250], s', 4%nat) /\
            fx_counter <$> motors s' !! 1%N = Some (3 * 2 ^ 32) /\
            fx_counter <$> motors s' !! 2%N = Some (16 * 2 ^ 32 + 2 ^ 31)).
  { destruct (catch_up tc s) as [[[ev s'] reads]|] eqn:Hc; [|vm_compute in Hc; discriminate Hc].
    vm_compute in Hc. injection Hc as Hev Hs' Hreads. subst ev s' reads.
    eexists. split; [reflexivity|]. split; reflexivity. }
  split; [exact H1|]. split; [exact H2|]. split; [exact H3|]. split; [exact H4|].
  split; [exact H5|]. split; [reflexivity|]. split; [exact Hfloor|]. split; [exact Hskip|].
  split; [exact Hrun|].
  intros Hclaim.
  destruct Hrun as [s' [Hc [Hc1 _]]].
  destruct (motors s' !! 1%N) as [m1'|] eqn:Hm1'; [|discriminate Hc1].
  cbn [fmap option_fmap option_map] in Hc1. injection Hc1 as Hc1.
  pose proof (Hclaim tc s _ s' _ (-5) H1 H2 H3 H4 H5 Hc Hfloor 1%N m1 m1' Hin1 Hm1 Hm1')
    as Habs.
  rewrite Hc1 in Habs. vm_compute in Habs. discriminate Habs.
Qed.

(** *** The loop that makes MR0 lead the counter *)

(** When the loop returns, MR0 is not behind the counter as last read. *)
Lemma lead_loop_leads (fuel : nat) (tc : nat -> Z) (k : nat) (s : t)
      (ev : list Event) (s' : t) :
  lead_loop fuel tc k s = Some (ev, s') ->
  exists n : nat, tc (k + n)%nat <= MR0 s' /\ period s' = period s /\
    motors s' = motors s /\ active_motor_bm s' = active_motor_bm s.
Proof.
  revert k s ev s'. induction fuel as [|fuel IH]; intros k s ev s' H; [discriminate H|].
  cbn [lead_loop] in H. destruct (Z.ltb_spec (MR0 s) (tc k)) as [Hlt|Hge].
  - destruct (lead_loop fuel tc (S k) _) as [[ev1 s1]|] eqn:H1;
      cbn [mbind option_bind fst snd] in H; [|discriminate H].
    inversion H; subst. destruct (IH _ _ _ _ H1) as [n [Hn Hrest]].
    exists (S n). replace (k + S n)%nat with (S k + n)%nat by lia.
    split; [exact Hn | exact Hrest].
  - inversion H; subst. exists 0%nat. rewrite Nat.add_0_r. auto.
Qed.

(** It returns when the counter stays within a bound that is a period
    short of wrapping, given one unit of fuel for each period that MR0
    is behind that bound, and one more. *)
Lemma lead_loop_returns (bound : Z) (fuel : nat) (tc : nat -> Z) (k : nat) (s : t) :
  0 < period s -> 0 <= MR0 s ->
  (forall n, tc n <= bound) ->
  bound + period s < 2 ^ 32 ->
  (1 <= fuel)%nat ->
  bound < MR0 s + (Z.of_nat fuel - 1) * period s ->
  is_Some (lead_loop fuel tc k s).
Proof.
  revert k s. induction fuel as [|fuel IH]; intros k s Hp Hm Htc Hb Hf Hfuel; [lia|].
  cbn [lead_loop]. destruct (Z.ltb_spec (MR0 s) (tc k)) as [Hlt|Hge]; [|eexists; reflexivity].
  pose proof (Htc k) as Hk.
  assert (Hw : wrap32 (MR0 s + period s) = MR0 s + period s)
    by (apply Z.mod_small; lia).
  rewrite Hw.
  destruct (IH (S k) (set_MR0 (MR0 s + period s) s)) as [r Hr];
    cbn [period MR0 set_MR0]; try assumption; try nia.
  rewrite Hr. eexists; reflexivity.
Qed.

(** ** The order of the two interrupt sources *)

Lemma active_from_ext (s s' : t) (n i : nat) :
  active_motor_bm s' = active_motor_bm s ->
  stepper_motors s' = stepper_motors s ->
  active_from s' n i = active_from s n i.
Proof.
  intros Hbm Hsm. revert i. induction n as [|n IH]; intros i; [reflexivity|].
  cbn [active_from]. unfold bm_test. rewrite Hbm, Hsm, IH. reflexivity.
Qed.

Lemma reset_tick_loop_spec (n i : nat) (s : t) :
  (i + n = 12)%nat ->
  (forall j : nat, (i <= j < 12)%nat -> bm_test s (2 ^ Z.of_nat j) = true ->
     exists p, stepper_motors s !! j = Some p /\ is_Some (motors s !! p)) ->
  reset_tick_loop n i (2 ^ Z.of_nat i) s = Some (Unstep <$> active_from s n i).
Proof.
  revert i. induction n as [|n IH]; intros i Hn Hlive; [reflexivity|].
  cbn [reset_tick_loop active_from]. rewrite wrap32_shiftl_bit by lia.
  rewrite IH by (try lia; intros j Hj; apply Hlive; lia).
  destruct (bm_test s (2 ^ Z.of_nat i)) eqn:Hb; [|reflexivity].
  destruct (Hlive i ltac:(lia) Hb) as [p [Hp [m Hm]]].
  rewrite Hp. cbn. rewrite Hm. reflexivity.
Qed.

Lemma tick_loop_spec (n i : nat) (s : t) :
  (i + n = 12)%nat ->
  (forall j : nat, (i <= j < 12)%nat -> bm_test s (2 ^ Z.of_nat j) = true ->
     exists p, stepper_motors s !! j = Some p /\ is_Some (motors s !! p)) ->
  exists pulses s',
    tick_loop n i (2 ^ Z.of_nat i) s
      = Some (tick_events (zip (active_from s n i) pulses), s') /\
    length pulses = length (active_from s n i) /\
    active_motor_bm s' = active_motor_bm s /\
    stepper_motors s' = stepper_motors s /\
    (forall q, is_Some (motors s !! q) -> is_Some (motors s' !! q)) /\
    period s' = period s /\ MCR s' = MCR s /\ IR s' = IR s.
Proof.
  revert i s. induction n as [|n IH]; intros i s Hn Hlive.
  - exists [], s. cbn. auto 10.
  - cbn [tick_loop active_from]. rewrite wrap16_shiftl_bit by lia.
    destruct (bm_test s (2 ^ Z.of_nat i)) eqn:Hb.
    + destruct (Hlive i ltac:(lia) Hb) as [p [Hp [m Hm]]].
      rewrite Hp. cbn [mbind option_bind]. rewrite Hm. cbn [mbind option_bind].
      destruct (StepperMotor_tick m) as [[m' pulse] fin].
      set (s3 := if fin then _ else _).
      assert (Hbm3 : active_motor_bm s3 = active_motor_bm s)
        by (unfold s3; destruct fin, pulse; reflexivity).
      assert (Hsm3 : stepper_motors s3 = stepper_motors s)
        by (unfold s3; destruct fin, pulse; reflexivity).
      assert (Hms3 : motors s3 = <[p:=m']> (motors s))
        by (unfold s3; destruct fin, pulse; reflexivity).
      assert (Hreg3 : period s3 = period s /\ MCR s3 = MCR s /\ IR s3 = IR s)
        by (unfold s3; destruct fin, pulse; auto).
      destruct (IH (S i) s3 ltac:(lia)) as [pulses [s' [Heq [Hlen [Hbm [Hsm [Hkeep Hreg]]]]]]].
      { intros j Hj Hbj. unfold bm_test in Hbj. rewrite Hbm3 in Hbj.
        destruct (Hlive j ltac:(lia) Hbj) as [q [Hq Hsome]].
        exists q. rewrite Hsm3, Hms3. split; [exact Hq|].
        apply lookup_insert_is_Some. destruct (decide (p = q)); auto. }
      rewrite Heq. cbn [mbind option_bind fst snd].
      rewrite (active_from_ext s s3) in * by assumption.
      exists (pulse :: pulses), s'. cbn [app zip zip_with tick_events length].
      split; [reflexivity|]. split; [lia|].
      split; [congruence|]. split; [congruence|]. split.
      { intros q Hq. apply Hkeep. rewrite Hms3. apply lookup_insert_is_Some.
        destruct (decide (p = q)); auto. }
      destruct Hreg3 as [? [? ?]], Hreg as [? [? ?]].
      repeat split; congruence.
    + cbn [app]. apply IH; [lia|]. intros j Hj. apply Hlive. lia.
Qed.

Lemma pins_app (l1 l2 : list Event) : pins (l1 ++ l2) = pins l1 ++ pins l2.
Proof.
  induction l1 as [|e l1 IH]; [reflexivity|].
  destruct e; cbn; rewrite ?IH; reflexivity.
Qed.

Lemma elem_of_pins (p : ptr) (l : list Event) : StepPin p ∈ l <-> p ∈ pins l.
Proof.
  induction l as [|e l IH]; [split; intros H; inversion H|].
  rewrite elem_of_cons, IH.
  destruct e; cbn [pins]; rewrite ?elem_of_cons;
    first [ solve [split; [intros [H|H]; [discriminate H | exact H]
                          | intros H; right; exact H]]
          | split; intros [H|H];
            [left; congruence | right; exact H | left; congruence | right; exact H] ].
Qed.

Lemma pins_no_pin_event (l : list Event) :
  Forall (fun e => is_pin_event e = false) l -> pins l = [].
Proof.
  induction 1 as [|e l He _ IH]; [reflexivity|].
  destruct e; cbn in *; auto; discriminate He.
Qed.

Lemma pins_unstep (l : list ptr) : pins (Unstep <$> l) = [].
Proof. induction l as [|p l IH]; [reflexivity | exact IH]. Qed.

Lemma pins_tick_events (l : list ptr) (pulses : list bool) :
  pins (tick_events (zip l pulses)) `sublist_of` l.
Proof.
  revert pulses. induction l as [|p l IH]; intros pulses; [constructor|].
  destruct pulses as [|b pulses]; [apply sublist_nil_l|].
  cbn [zip zip_with tick_events pins]. destruct b; cbn [app pins].
  - apply sublist_skip, IH.
  - apply sublist_cons, IH.
Qed.

Section HandlerFacts.

Variable signal_move_finished : ptr -> t -> t.

Lemma signal_loop_no_pins (fuel : nat) (motor bitmask : Z) (s : t) (r : list Event * t) :
  signal_loop signal_move_finished fuel motor bitmask s = Some r ->
  Forall (fun e => is_pin_event e = false) (fst r).
Proof.
  revert motor bitmask s r. induction fuel as [|fuel IH]; intros motor bitmask s r H;
    [discriminate H|].
  cbn [signal_loop] in H.
  repeat step_in H; try (eapply IH; exact H).
  all: inversion H; subst; cbn [fst];
    first [ constructor; [reflexivity | eapply IH; eassumption] | constructor ].
Qed.

Lemma lead_loop_no_pins (fuel : nat) (tc : nat -> Z) (k : nat) (s : t) (r : list Event * t) :
  lead_loop fuel tc k s = Some r ->
  Forall (fun e => is_pin_event e = false) (fst r).
Proof.
  revert k s r. induction fuel as [|fuel IH]; intros k s r H; [discriminate H|].
  cbn [lead_loop] in H. repeat step_in H.
  all: inversion H; subst; cbn [fst];
    first [ constructor; [reflexivity | eapply IH; eassumption] | constructor ].
Qed.

Lemma catch_up_no_pins (tc : nat -> Z) (s : t) (ev : list Event) (s' : t) (k : nat) :
  catch_up tc s = Some (ev, s', k) ->
  Forall (fun e => is_pin_event e = false) ev.
Proof.
  unfold catch_up. intros H. repeat step_in H; inversion H; subst;
    repeat constructor.
Qed.

Lemma irq_moves_finished_no_pins (fuel : nat) (tc : nat -> Z) (s : t) (r : list Event * t) :
  irq_moves_finished signal_move_finished fuel tc s = Some r ->
  Forall (fun e => is_pin_event e = false) (fst r).
Proof.
  unfold irq_moves_finished, signal_moves_finished. intros H.
  destruct (signal_loop signal_move_finished fuel 0 1 _) as [r0|] eqn:H0;
    cbn [mbind option_bind] in H; [|discriminate H].
  destruct (catch_up tc _) as [[[ev2 s2] k]|] eqn:H2;
    cbn [mbind option_bind] in H; [|discriminate H].
  destruct (lead_loop fuel tc k s2) as [r3|] eqn:H3;
    cbn [mbind option_bind] in H; [|discriminate H].
  inversion H; subst. cbn [fst snd] in *.
  constructor; [reflexivity|].
  repeat (apply Forall_app; split).
  - eapply signal_loop_no_pins; eassumption.
  - eapply catch_up_no_pins; eassumption.
  - eapply lead_loop_no_pins; eassumption.
Qed.

End HandlerFacts.

(** *** Two assertions of one pin *)

Lemma app_cons_not_in_l {A : Type} (x : A) (u z l c : list A) :
  x ∉ u -> u ++ z = l ++ x :: c -> exists l', l = u ++ l' /\ z = l' ++ x :: c.
Proof.
  revert l. induction u as [|e u IH]; intros l Hx Heq.
  - exists l. auto.
  - apply not_elem_of_cons in Hx. destruct Hx as [Hne Hx].
    destruct l as [|e' l]; cbn in Heq; inversion Heq; subst; [congruence|].
    destruct (IH l Hx H1) as [l' [-> ->]]. exists l'. auto.
Qed.

Lemma app_cons_not_in_r {A : Type} (x : A) (t r l c : list A) :
  x ∉ r -> t ++ r = l ++ x :: c -> exists t2, t = l ++ x :: t2.
Proof.
  revert t. induction l as [|e l IH]; intros t Hx Heq.
  - destruct t as [|e t]; cbn in Heq.
    + exfalso. apply Hx. rewrite Heq. apply elem_of_cons. auto.
    + inversion Heq; subst. exists t. reflexivity.
  - destruct t as [|e' t]; cbn in Heq.
    + exfalso. apply Hx. rewrite Heq. apply elem_of_cons. right.
      apply elem_of_app. right. apply elem_of_cons. auto.
    + inversion Heq; subst. destruct (IH t Hx H1) as [t2 ->]. exists t2. reflexivity.
Qed.

(** In a run [h ++ u ++ t ++ r] where [x] occurs neither in [u] nor in [r]
    and at most once in [t], and [y] occurs in [u] if [x] occurs in [t]:
    two occurrences of [x] of which the second lies after [h] have [y]
    between them. *)
Lemma between_two_occurrences {A : Type} (x y : A) (h u t r a b c : list A) :
  x ∉ u -> x ∉ r -> (x ∈ t -> y ∈ u) ->
  (forall t1 t2, t = t1 ++ x :: t2 -> x ∉ t1) ->
  h ++ u ++ t ++ r = a ++ x :: b ++ x :: c ->
  (length h <= length a + S (length b))%nat ->
  y ∈ b.
Proof.
  intros Hxu Hxr Hyu Honce Heq Hlen.
  assert (Heq' : h ++ (u ++ t ++ r) = (a ++ x :: b) ++ x :: c)
    by (rewrite Heq, <- app_assoc; reflexivity).
  assert (Hsplit : exists k, a ++ x :: b = h ++ k /\ u ++ t ++ r = k ++ x :: c).
  { apply app_eq_inv in Heq'.
    destruct Heq' as [[k [Hk1 Hk2]]|[k [Hk1 Hk2]]]; [|exists k; auto].
    assert (Hl : length h = length ((a ++ x :: b) ++ k)) by (rewrite <- Hk1; reflexivity).
    rewrite !length_app in Hl. cbn in Hl.
    destruct k as [|e k]; cbn in Hl; [|lia].
    exists []. rewrite app_nil_r in *. auto. }
  destruct Hsplit as [k [Hk1 Hk2]].
  destruct (app_cons_not_in_l x u (t ++ r) k c Hxu Hk2) as [l' [-> Hl']].
  destruct (app_cons_not_in_r x t r l' c Hxr Hl') as [t2 Ht].
  pose proof (Honce l' t2 Ht) as Hnot.
  assert (Hy : y ∈ u).
  { apply Hyu. rewrite Ht. apply elem_of_app. right. apply elem_of_cons. auto. }
  apply app_eq_inv in Hk1.
  destruct Hk1 as [[k' [Hk1 Hk2']]|[k' [Hk1 Hk2']]].
  - exfalso.
    destruct (app_cons_not_in_l x u l' k' b Hxu Hk2') as [l'' [_ ->]].
    apply Hnot. apply elem_of_app. right. apply elem_of_cons. auto.
  - destruct k' as [|e k']; cbn in Hk2'.
    + destruct u as [|e u]; [inversion Hy|].
      inversion Hk2'; subst. exfalso. apply Hxu. apply elem_of_cons. auto.
    + inversion Hk2'; subst. rewrite !elem_of_app. auto.
Qed.

Lemma slots_live_after_mr1 (s : t) : slots_live s -> slots_live (after_mr1 s).
Proof. intros H. exact H. Qed.

Lemma irq_mr1_pending (s : t) :
  Z.land (IR s) (Z.shiftl 1 1) <> 0 ->
  slots_live s ->
  irq_mr1 s = Some (mr1_events s, after_mr1 s).
Proof.
  intros Hir Hlive. unfold irq_mr1.
  destruct (Z.eqb_spec (Z.land (IR s) (Z.shiftl 1 1)) 0) as [|_]; [contradiction|].
  cbn [negb]. fold (after_mr1 s). unfold reset_tick.
  change 1 with (2 ^ Z.of_nat 0) at 2.
  rewrite reset_tick_loop_spec; [reflexivity | reflexivity |].
  intros j Hj. apply (slots_live_after_mr1 s Hlive). lia.
Qed.

Lemma mr0_still_pending (s : t) :
  Z.land (IR s) (Z.shiftl 1 0) <> 0 ->
  Z.land (IR (after_mr1 s)) (Z.shiftl 1 0) <> 0.
Proof.
  intros H. cbn [after_mr1 IR set_MCR set_IR].
  rewrite <- Z.land_assoc.
  replace (Z.land (not32 (Z.shiftl 1 1)) (Z.shiftl 1 0)) with (Z.shiftl 1 0) by reflexivity.
  exact H.
Qed.

Section HandlerOrder.

Variable signal_move_finished : ptr -> t -> t.

(** C2. In an invocation of the timer-0 handler that finds both match
    flags pending, on a ticker whose active slots hold distinct motors:
    the MR1 part returns, having cleared the MR1 interrupt enable and then
    unstepped every active motor; the step loop then returns, having
    ticked every active motor once, in slot order; the handler returns
    when the tick finished no move; and whenever the handler returns, its
    events are those of the MR1 part, then those of the step loop, then
    events that touch no motor. Consequently, appended to any history of
    earlier events, two assertions of the step pin of one motor, the
    second made in this invocation, have an unstep of that motor between
    them. The two hypotheses on the slots hold on every reachable ticker
    ([reachable_slots]); [handler_returns] gives the conditions under
    which the handler returns after a finished move too. *)
Theorem mr1_path_runs_before_ticks (tc : nat -> Z) (s : t) :
  Z.land (IR s) (Z.shiftl 1 1) <> 0 ->
  Z.land (IR s) (Z.shiftl 1 0) <> 0 ->
  slots_live s ->
  NoDup (active_ptrs s) ->
  exists pulses s2,
    length pulses = length (active_ptrs s) /\
    irq_mr1 s = Some (mr1_events s, after_mr1 s) /\
    tick_loop 12 0 1
      (set_IR (Z.land (IR (after_mr1 s)) (not32 (Z.shiftl 1 0))) (after_mr1 s))
      = Some (tick_events (zip (active_ptrs s) pulses), s2) /\
    (reset_step_pins s2 && moves_finished s2 = false ->
     forall fuel, is_Some (TIMER0_IRQHandler signal_move_finished fuel tc s)) /\
    forall fuel evs s',
      TIMER0_IRQHandler signal_move_finished fuel tc s = Some (evs, s') ->
      (exists tail,
         evs = mr1_events s
               ++ WriteIR (Z.shiftl 1 0) :: tick_events (zip (active_ptrs s) pulses)
               ++ tail /\
         Forall (fun e => is_pin_event e = false) tail) /\
      forall (h a b c : list Event) (p : ptr),
        h ++ evs = a ++ StepPin p :: b ++ StepPin p :: c ->
        (length h <= length a + S (length b))%nat ->
        Unstep p ∈ b.
Proof.
  intros Hmr1 Hmr0 Hlive Hnd.
  pose proof (irq_mr1_pending s Hmr1 Hlive) as H1.
  pose proof (mr0_still_pending s Hmr0) as H0.
  set (s0 := set_IR (Z.land (IR (after_mr1 s)) (not32 (Z.shiftl 1 0))) (after_mr1 s)) in *.
  destruct (tick_loop_spec 12 0 s0 eq_refl) as [pulses [s2 [Htick [Hlen _]]]].
  { intros j Hj. apply Hlive. lia. }
  change (2 ^ Z.of_nat 0) with 1 in Htick.
  change (active_from s0 12 0) with (active_ptrs s0) in Htick, Hlen.
  assert (Hact : active_ptrs s0 = active_ptrs s) by (apply active_from_ext; reflexivity).
  rewrite Hact in Htick, Hlen.
  set (ticks := tick_events (zip (active_ptrs s) pulses)) in *.
  assert (Hhandler : forall fuel,
    TIMER0_IRQHandler signal_move_finished fuel tc s =
    if reset_step_pins s2 then
      let mcr := Z.lor (MCR s2) MCR_MR1I in
      let s3 := set_reset_step_pins false (set_MCR mcr s2) in
      if moves_finished s3 then
        r' ← irq_moves_finished signal_move_finished fuel tc s3;
        Some (mr1_events s ++ WriteIR (Z.shiftl 1 0) :: ticks ++ WriteMCR mcr :: fst r', snd r')
      else Some (mr1_events s ++ WriteIR (Z.shiftl 1 0) :: ticks ++ [WriteMCR mcr], s3)
    else Some (mr1_events s ++ WriteIR (Z.shiftl 1 0) :: ticks ++ [WriteMR0 (period s2)],
               set_MR0 (period s2) s2)).
  { intros fuel. unfold TIMER0_IRQHandler. rewrite H1. cbn [mbind option_bind fst snd].
    unfold irq_mr0.
    destruct (Z.eqb_spec (Z.land (IR (after_mr1 s)) (Z.shiftl 1 0)) 0) as [|_]; [contradiction|].
    cbn [negb]. fold s0. rewrite Htick. cbn [mbind option_bind].
    destruct (reset_step_pins s2); [|reflexivity].
    cbn zeta. destruct (moves_finished _); [|reflexivity].
    destruct (irq_moves_finished _ _ _ _); reflexivity. }
  exists pulses, s2.
  split; [exact Hlen|]. split; [exact H1|]. split; [exact Htick|].
  split.
  { intros Hfin fuel. rewrite Hhandler.
    destruct (reset_step_pins s2); [|eexists; reflexivity].
    cbn in Hfin |- *. rewrite Hfin. eexists; reflexivity. }
  intros fuel evs s' Hrun. rewrite Hhandler in Hrun.
  assert (Htail : exists tail,
    evs = mr1_events s ++ WriteIR (Z.shiftl 1 0) :: ticks ++ tail /\
    Forall (fun e => is_pin_event e = false) tail).
  { destruct (reset_step_pins s2).
    - cbn zeta in Hrun. destruct (moves_finished _).
      + destruct (irq_moves_finished _ _ _ _) as [r'|] eqn:Hr';
          cbn [mbind option_bind] in Hrun; [|discriminate Hrun].
        inversion Hrun; subst. eexists. split; [reflexivity|].
        constructor; [reflexivity|].
        eapply irq_moves_finished_no_pins; eassumption.
      + inversion Hrun; subst. eexists. split; [reflexivity|]. repeat constructor.
    - inversion Hrun; subst. eexists. split; [reflexivity|]. repeat constructor. }
  split; [exact Htail|].
  destruct Htail as [tail [-> Htail]].
  intros h a b c p Heq Hlenh.
  assert (Hp : p ∈ active_ptrs s -> Unstep p ∈ mr1_events s).
  { intros Hp. unfold mr1_events. do 2 (apply elem_of_cons; right).
    apply list_elem_of_fmap. exists p. auto. }
  assert (Hxu : StepPin p ∉ mr1_events s).
  { rewrite elem_of_pins. unfold mr1_events. cbn [pins]. rewrite pins_unstep.
    intros H; inversion H. }
  assert (Hxr : StepPin p ∉ tail).
  { rewrite elem_of_pins, pins_no_pin_event by exact Htail. intros H; inversion H. }
  assert (Hpins : NoDup (pins (WriteIR (Z.shiftl 1 0) :: ticks))).
  { cbn [pins]. eapply sublist_NoDup; [exact Hnd | apply pins_tick_events]. }
  assert (Hsub : StepPin p ∈ WriteIR (Z.shiftl 1 0) :: ticks -> p ∈ active_ptrs s).
  { intros Hq. apply elem_of_pins in Hq. cbn [pins] in Hq.
    eapply elem_of_sublist; [exact Hq | apply pins_tick_events]. }
  assert (Honce : forall t1 t2,
    WriteIR (Z.shiftl 1 0) :: ticks = t1 ++ StepPin p :: t2 -> StepPin p ∉ t1).
  { intros t1 t2 Ht. rewrite Ht, pins_app in Hpins. cbn [pins] in Hpins.
    apply NoDup_app in Hpins. destruct Hpins as [_ [Hdisj _]].
    rewrite elem_of_pins. intros Hin. apply (Hdisj p Hin). apply elem_of_cons. auto. }
  eapply (between_two_occurrences (StepPin p) (Unstep p) h (mr1_events s)
            (WriteIR (Z.shiftl 1 0) :: ticks) tail a b c); auto.
Qed.

End HandlerOrder.

Lemma mr1_path_runs_before_ticks_witness :
  let s := both_pending_example in
  Z.land (IR s) (Z.shiftl 1 1) <> 0 /\
  Z.land (IR s) (Z.shiftl 1 0) <> 0 /\
  slots_live s /\
  NoDup (active_ptrs s) /\
  exists evs s',
    TIMER0_IRQHandler finish_motor 20 late_clock s = Some (evs, s') /\
    forall (h a b c : list Event) (p : ptr),
      h ++ evs = a ++ StepPin p :: b ++ StepPin p :: c ->
      (length h <= length a + S (length b))%nat ->
      Unstep p ∈ b.
Proof.
  intros s.
  assert (H1 : Z.land (IR s) (Z.shiftl 1 1) <> 0) by discriminate.
  assert (H2 : Z.land (IR s) (Z.shiftl 1 0) <> 0) by discriminate.
  assert (H3 : slots_live s).
  { intros j Hj Hb.
    destruct j as [|[|j]].
    - exists 1%N. split; [reflexivity | eexists; reflexivity].
    - exists 2%N. split; [reflexivity | eexists; reflexivity].
    - exfalso. do 10 (destruct j as [|j]; [discriminate Hb|]). lia. }
  assert (H4 : NoDup (active_ptrs s)).
  { change (active_ptrs s) with [1%N; 2%N].
    repeat constructor; intros Hin; repeat (apply elem_of_cons in Hin; destruct Hin as [Hin|Hin]);
      try discriminate Hin; inversion Hin. }
  split; [exact H1|]. split; [exact H2|]. split; [exact H3|]. split; [exact H4|].
  destruct (mr1_path_runs_before_ticks finish_motor late_clock s H1 H2 H3 H4)
    as [pulses [s2 [_ [_ [_ [_ Hall]]]]]].
  destruct (TIMER0_IRQHandler finish_motor 20 late_clock s) as [[evs s']|] eqn:Hrun.
  - exists evs, s'. split; [reflexivity|]. exact (proj2 (Hall 20%nat evs s' Hrun)).
  - exfalso. vm_compute in Hrun. discriminate Hrun.
Defined.

(** C2's consequence as it is written fails between invocations in which
    the MR0 flag alone is pending. In [every_tick_example] motor 1 steps
    on every tick; MR1 is 2500 and the period 250, so that no MR1 match
    comes between two MR0 matches. Two MR0 interrupts in a row assert the
    step pin of motor 1 twice, and the events between the two assertions
    are the store that enables the MR1 interrupt, the acknowledgement of
    MR0 and the tick: no unstep. *)
Lemma assertions_without_unstep_between :
  let s := every_tick_example in
  let irqs := [(1, late_clock); (1, late_clock)] in
  slots_live s /\
  NoDup (active_ptrs s) /\
  Z.land (IR s) (Z.shiftl 1 1) = 0 /\
  (exists s',
     irq_run finish_motor 20 irqs s
     = Some ([WriteIR 1; Tick 1%N; StepPin 1%N; WriteMCR 11;
              WriteIR 1; Tick 1%N; StepPin 1%N; WriteMCR 11], s') /\
     Z.land (IR s') (Z.shiftl 1 1) = 0) /\
  ~ unstep_between_assertions finish_motor.
Proof.
  intros s irqs.
  assert (H1 : slots_live s).
  { intros j Hj Hb.
    destruct j as [|j].
    - exists 1%N. split; [reflexivity | eexists; reflexivity].
    - exfalso. do 11 (destruct j as [|j]; [discriminate Hb|]). lia. }
  assert (H2 : NoDup (active_ptrs s)).
  { change (active_ptrs s) with [1%N].
    repeat constructor; intros Hin; inversion Hin. }
  assert (Hrun : exists s',
            irq_run finish_motor 20 irqs s
            = Some ([WriteIR 1; Tick 1%N; StepPin 1%N; WriteMCR 11;
                     WriteIR 1; Tick 1%N; StepPin 1%N; WriteMCR 11], s') /\
            Z.land (IR s') (Z.shiftl 1 1) = 0).
  { destruct (irq_run finish_motor 20 irqs s) as [[ev s']|] eqn:Hr;
      [|vm_compute in Hr; discriminate Hr].
    vm_compute in Hr. injection Hr as Hev Hs'. subst ev s'.
    eexists. split; reflexivity. }
  split; [exact H1|]. split; [exact H2|]. split; [reflexivity|]. split; [exact Hrun|].
  intros Hclaim.
  destruct Hrun as [s' [Hr _]].
  pose proof (Hclaim 20%nat irqs s _ s'
                [WriteIR 1; Tick 1%N] [WriteMCR 11; WriteIR 1; Tick 1%N] [WriteMCR 11] 1%N
                H1 H2 Hr eq_refl) as Habs.
  repeat (apply elem_of_cons in Habs; destruct Habs as [Habs|Habs]; [discriminate Habs|]).
  inversion Habs.
Qed.

(** The events of that invocation: MR1 is acknowledged and disabled, both
    motors are unstepped, then both are ticked and motor 1 steps; its move
    being finished, MR0 is parked, the motor is signalled, and the catch-up
    programs MR0 five periods ahead. *)
Example both_pending_run :
  fst <$> TIMER0_IRQHandler finish_motor 20 late_clock both_pending_example =
  Some [WriteIR 2; WriteMCR 3; Unstep 1%N; Unstep 2%N;
        WriteIR 1; Tick 1%N; StepPin 1%N; Tick 2%N;
        WriteMCR 11; WriteMR0 4294967295; SignalMoveFinished 1%N; WriteMR0 1250].
Proof. vm_compute. reflexivity. Qed.

(** *** The handler returns *)

Lemma count_flagged_mono (ms ms' : gmap ptr StepperMotor) (l : list ptr) :
  (forall q, flagged ms' q = true -> flagged ms q = true) ->
  (count_flagged ms' l <= count_flagged ms l)%nat.
Proof.
  intros Hsub. induction l as [|q l IH]; [reflexivity|].
  cbn [count_flagged]. specialize (Hsub q).
  destruct (flagged ms' q), (flagged ms q); try lia; discriminate (Hsub eq_refl).
Qed.

Lemma count_flagged_drop (ms ms' : gmap ptr StepperMotor) (l : list ptr) (p : ptr) :
  (forall q, flagged ms' q = true -> flagged ms q = true) ->
  p ∈ l -> flagged ms p = true -> flagged ms' p = false ->
  (count_flagged ms' l < count_flagged ms l)%nat.
Proof.
  intros Hsub Hin Hp Hp'. induction l as [|q l IH]; [inversion Hin|].
  cbn [count_flagged]. pose proof (count_flagged_mono ms ms' l Hsub) as Hle.
  apply elem_of_cons in Hin. destruct Hin as [<-|Hin].
  - rewrite Hp, Hp'. lia.
  - specialize (IH Hin). pose proof (Hsub q) as Hq.
    destruct (flagged ms' q), (flagged ms q); try lia; discriminate (Hq eq_refl).
Qed.

Section HandlerReturns.

Variable signal_move_finished : ptr -> t -> t.
Hypothesis Hcb : callback_ok signal_move_finished.

Lemma signal_loop_returns (fuel m : nat) (s : t) :
  (m <= 12)%nat ->
  slots_live s ->
  ((12 - m) + 2 * count_flagged (motors s) (take 12 (stepper_motors s)) < fuel)%nat ->
  exists r, signal_loop signal_move_finished fuel (Z.of_nat m) (2 ^ Z.of_nat m) s = Some r /\
    slots_live (snd r) /\ period (snd r) = period s.
Proof.
  revert m s. induction fuel as [|fuel IH]; intros m s Hm Hlive Hfuel; [lia|].
  cbn [signal_loop].
  destruct (Z.ltb_spec (Z.of_nat m) 12) as [Hlt|Hge];
    [|eexists; split; [reflexivity|]; auto].
  assert (Hnext : wrap8 (Z.of_nat m + 1) = Z.of_nat (S m))
    by (unfold wrap8; rewrite Z.mod_small; lia).
  assert (Hskip : exists r,
    signal_loop signal_move_finished fuel (wrap8 (Z.of_nat m + 1))
                (wrap16 (Z.shiftl (2 ^ Z.of_nat m) 1)) s = Some r /\
    slots_live (snd r) /\ period (snd r) = period s).
  { rewrite Hnext, wrap16_shiftl_bit by lia. apply IH; [lia | exact Hlive | lia]. }
  destruct (bm_test s (2 ^ Z.of_nat m)) eqn:Hb; [|exact Hskip].
  destruct (Hlive m ltac:(lia) Hb) as [p [Hp [m0 Hm0]]].
  rewrite Nat2Z.id, Hp. cbn [mbind option_bind]. rewrite Hm0. cbn [mbind option_bind].
  destruct (is_move_finished m0) eqn:Hfin; [|exact Hskip].
  set (s1 := signal_move_finished p s).
  assert (Hs1 : stepper_motors s1 = stepper_motors s) by apply (cb_slots _ Hcb).
  rewrite Hs1, Hp. cbn [mbind option_bind].
  destruct (cb_keeps _ Hcb p s p) as [m1 Hm1]; [eexists; exact Hm0|].
  fold s1 in Hm1. rewrite Hm1. cbn [mbind option_bind].
  assert (Hdrop : (count_flagged (motors s1) (take 12 (stepper_motors s1))
                   < count_flagged (motors s) (take 12 (stepper_motors s)))%nat).
  { rewrite Hs1. apply (count_flagged_drop _ _ _ p).
    - intros q Hq. apply (cb_flag _ Hcb p s q Hq).
    - apply list_elem_of_lookup. exists m. rewrite lookup_take_lt by lia. exact Hp.
    - unfold flagged. rewrite Hm0. exact Hfin.
    - destruct (flagged (motors s1) p) eqn:Hf; [|reflexivity].
      destruct (cb_flag _ Hcb p s p Hf) as [Hne _]. contradiction. }
  assert (Hlive1 : slots_live s1) by apply (cb_live _ Hcb p s Hlive).
  assert (Hper1 : period s1 = period s) by apply (cb_period _ Hcb).
  assert (Hrec : exists r,
    signal_loop signal_move_finished fuel
      (wrap8 ((if negb (moving m1) && (0 <? Z.of_nat m)
               then wrap8 (Z.of_nat m - 1) else Z.of_nat m) + 1))
      (wrap16 (Z.shiftl (if negb (moving m1) && (0 <? Z.of_nat m)
                         then Z.shiftr (2 ^ Z.of_nat m) 1 else 2 ^ Z.of_nat m) 1)) s1
      = Some r /\ slots_live (snd r) /\ period (snd r) = period s1).
  { destruct (negb (moving m1) && (0 <? Z.of_nat m)) eqn:Hback.
    - apply andb_true_iff in Hback. destruct Hback as [_ Hpos]. apply Z.ltb_lt in Hpos.
      destruct m as [|m']; [lia|].
      assert (Hprev : wrap8 (Z.of_nat (S m') - 1) = Z.of_nat m')
        by (unfold wrap8; rewrite Z.mod_small; lia).
      assert (Hnext' : wrap8 (Z.of_nat m' + 1) = Z.of_nat (S m'))
        by (unfold wrap8; rewrite Z.mod_small; lia).
      assert (Hshr : Z.shiftr (2 ^ Z.of_nat (S m')) 1 = 2 ^ Z.of_nat m').
      { rewrite Z.shiftr_div_pow2 by lia. rewrite Nat2Z.inj_succ, Z.pow_succ_r by lia.
        change (2 ^ 1) with 2. rewrite Z.mul_comm, Z.div_mul by lia. reflexivity. }
      rewrite Hprev, Hnext', Hshr, wrap16_shiftl_bit by lia.
      apply IH; [lia | exact Hlive1 | lia].
    - rewrite Hnext, wrap16_shiftl_bit by lia.
      apply IH; [lia | exact Hlive1 | lia]. }
  destruct Hrec as [r [Hr [Hlr Hpr]]]. rewrite Hr. cbn [mbind option_bind].
  eexists. split; [reflexivity|]. cbn [snd]. split; [exact Hlr | congruence].
Qed.

Lemma count_flagged_le (ms : gmap ptr StepperMotor) (l : list ptr) :
  (count_flagged ms l <= length l)%nat.
Proof.
  induction l as [|q l IH]; [reflexivity|].
  cbn [count_flagged length]. destruct (flagged ms q); lia.
Qed.

Lemma advance_loop_returns (skip : Z) (n i : nat) (s : t) :
  (i + n = 12)%nat ->
  (forall j : nat, (i <= j < 12)%nat -> bm_test s (2 ^ Z.of_nat j) = true ->
     exists p, stepper_motors s !! j = Some p /\ is_Some (motors s !! p)) ->
  exists s', advance_loop n i (2 ^ Z.of_nat i) skip s = Some s' /\ period s' = period s.
Proof.
  revert i s. induction n as [|n IH]; intros i s Hn Hlive; [exists s; auto|].
  cbn [advance_loop]. rewrite wrap32_shiftl_bit by lia.
  destruct (bm_test s (2 ^ Z.of_nat i)) eqn:Hb.
  - destruct (Hlive i ltac:(lia) Hb) as [p [Hp [m Hm]]].
    rewrite Hp. cbn [mbind option_bind]. rewrite Hm. cbn [mbind option_bind].
    destruct (IH (S i) (set_motors (<[p:=advance skip m]> (motors s)) s) ltac:(lia))
      as [s' [Hs' Hper]]; [|exists s'; auto].
    intros j Hj Hbj. destruct (Hlive j ltac:(lia) Hbj) as [q [Hq Hsome]].
    exists q. split; [exact Hq|]. apply lookup_insert_is_Some.
    destruct (decide (p = q)); auto.
  - apply IH; [lia|]. intros j Hj. apply Hlive. lia.
Qed.

Lemma catch_up_returns (tc : nat -> Z) (s : t) :
  slots_live s -> 0 < period s ->
  exists ev s' k, catch_up tc s = Some (ev, s', k) /\
    period s' = period s /\ 0 <= MR0 s'.
Proof.
  intros Hlive Hper. unfold catch_up.
  destruct (period s <? tc 0%nat).
  - destruct (Z.eqb_spec (period s) 0); [lia|].
    destruct (can_skip_loop_spec 12 0 s (ticks_to_skip (tc 2%nat) s) eq_refl)
      as [skip [Hskip _]]; [intros j Hj; apply Hlive; lia|].
    change (2 ^ Z.of_nat 0) with 1 in Hskip. rewrite Hskip. cbn [mbind option_bind].
    destruct (advance_loop_returns skip 12 0 s eq_refl) as [s1 [Hs1 Hp1]];
      [intros j Hj; apply Hlive; lia|].
    change (2 ^ Z.of_nat 0) with 1 in Hs1. rewrite Hs1. cbn [mbind option_bind].
    eexists _, _, _. split; [reflexivity|].
    assert (Hmr : 0 <= wrap32 ((ticks_to_skip (tc 2%nat) s + 1) * period s))
      by (apply Z.mod_pos_bound; reflexivity).
    destruct (0 <? _); cbn; auto.
  - eexists _, _, _. split; [reflexivity|]. cbn. split; [reflexivity | lia].
Qed.

(** X18. With an end-of-move hook as [callback_ok] describes, active
    slots that hold motors, a positive period and a counter that stays
    within a bound a period short of wrapping, the interrupt handler
    returns: fuel of 37 iterations is enough for the loop that signals the
    finished moves, stepping back included, and fuel of one more iteration
    than the bound holds periods is enough for the loop that makes MR0 lead
    the counter. *)
Lemma handler_returns (bound : Z) (fuel : nat) (tc : nat -> Z) (s : t) :
  slots_live s -> 0 < period s ->
  (forall n, tc n <= bound) ->
  bound + period s < 2 ^ 32 ->
  (37 <= fuel)%nat ->
  bound < (Z.of_nat fuel - 1) * period s ->
  is_Some (TIMER0_IRQHandler signal_move_finished fuel tc s).
Proof.
  intros Hlive Hper Htc Hbound Hfuel Hlead.
  unfold TIMER0_IRQHandler.
  assert (H1 : exists ev1 s1, irq_mr1 s = Some (ev1, s1) /\ slots_live s1 /\
                              period s1 = period s).
  { destruct (Z.eqb_spec (Z.land (IR s) (Z.shiftl 1 1)) 0) as [Hz|Hnz].
    - unfold irq_mr1. rewrite Hz. cbn. eauto.
    - rewrite (irq_mr1_pending s Hnz Hlive). eexists _, _. split; [reflexivity|].
      split; [exact (slots_live_after_mr1 s Hlive) | reflexivity]. }
  destruct H1 as [ev1 [s1 [Hr1 [Hlive1 Hper1]]]].
  rewrite Hr1. cbn [mbind option_bind snd fst].
  unfold irq_mr0. destruct (negb _); [|eexists; reflexivity].
  set (s0 := set_IR _ s1).
  destruct (tick_loop_spec 12 0 s0 eq_refl)
    as [pulses [s2 [Htick [_ [Hbm [Hsm [Hkeep [Hper2 _]]]]]]]].
  { intros j Hj. apply Hlive1. lia. }
  change (2 ^ Z.of_nat 0) with 1 in Htick. rewrite Htick. cbn [mbind option_bind].
  destruct (reset_step_pins s2); [|eexists; reflexivity].
  set (s3 := set_reset_step_pins false _).
  destruct (moves_finished s3); [|eexists; reflexivity].
  assert (Hlive3 : slots_live (set_MR0 (wrap32 (Z.lnot 0)) s3)).
  { intros j Hj Hb.
    change (bm_test (set_MR0 (wrap32 (Z.lnot 0)) s3) (2 ^ Z.of_nat j))
      with (negb (Z.land (active_motor_bm s2) (2 ^ Z.of_nat j) =? 0)) in Hb.
    rewrite Hbm in Hb. destruct (Hlive1 j Hj Hb) as [q [Hq Hsome]].
    exists q. split; [cbn; rewrite Hsm; exact Hq | cbn; apply Hkeep; exact Hsome]. }
  unfold irq_moves_finished, signal_moves_finished.
  destruct (signal_loop_returns fuel 0 (set_MR0 (wrap32 (Z.lnot 0)) s3) ltac:(lia) Hlive3)
    as [r [Hr [Hliver Hperr]]].
  { pose proof (count_flagged_le (motors (set_MR0 (wrap32 (Z.lnot 0)) s3))
                  (take 12 (stepper_motors (set_MR0 (wrap32 (Z.lnot 0)) s3)))) as Hc.
    rewrite length_take in Hc. lia. }
  change (2 ^ Z.of_nat 0) with 1 in Hr. change (Z.of_nat 0) with 0 in Hr.
  rewrite Hr. cbn [mbind option_bind fst snd].
  assert (Hper3 : period (snd r) = period s).
  { rewrite Hperr. cbn. rewrite Hper2. cbn. exact Hper1. }
  destruct (catch_up_returns tc (set_moves_finished false (snd r)))
    as [ev4 [s4 [k [Hr4 [Hper4 Hmr4]]]]].
  { exact Hliver. }
  { cbn. lia. }
  rewrite Hr4. cbn [mbind option_bind].
  assert (Hper4' : period s4 = period s) by (rewrite Hper4; cbn; exact Hper3).
  destruct (lead_loop_returns bound fuel tc k s4) as [r5 Hr5]; try lia; try assumption.
  rewrite Hr5. eexists; reflexivity.
Qed.

End HandlerReturns.

(** The callback of the examples is one. *)
Lemma finish_motor_shape (p : ptr) (s : t) :
  (motors s !! p = None /\ finish_motor p s = s) \/
  exists m x mcr,
    motors s !! p = Some m /\
    finish_motor p s =
      set_MCR mcr (set_active_motor_bm (Z.land (active_motor_bm s) x)
        (set_motors (<[p := mkStepperMotor (steps_to_move m) (stepped m) (fx_counter m)
                            (fx_ticks_per_step m) (direction m) false false (rate_ratio m)]>
                       (motors s)) s)).
Proof.
  unfold finish_motor. destruct (motors s !! p) as [m|] eqn:Hm; [|auto].
  right. exists m. cbn zeta.
  set (s1 := set_motors _ s).
  destruct (remove_motor_from_active_list p s1) as [[ev s2]|] eqn:Hr.
  - unfold remove_motor_from_active_list in Hr. change 1 with (2 ^ Z.of_nat 0) in Hr.
    apply remove_loop_inv in Hr; [|reflexivity].
    destruct Hr as [[_ ->]|[x [mcr ->]]].
    + exists (active_motor_bm s), (MCR s). split; [reflexivity|].
      cbn [snd]. unfold s1. destruct s; cbn. rewrite Z.land_diag. reflexivity.
    + exists x, mcr. split; reflexivity.
  - exists (active_motor_bm s), (MCR s). split; [reflexivity|].
    unfold s1. destruct s; cbn. rewrite Z.land_diag. reflexivity.
Qed.

Lemma finish_motor_ok : callback_ok finish_motor.
Proof.
  split.
  - intros p s. destruct (finish_motor_shape p s) as [[_ ->]|[m [x [mcr [_ ->]]]]]; reflexivity.
  - intros p s. destruct (finish_motor_shape p s) as [[_ ->]|[m [x [mcr [_ ->]]]]]; reflexivity.
  - intros p s q Hq.
    destruct (finish_motor_shape p s) as [[_ ->]|[m [x [mcr [_ ->]]]]]; [exact Hq|].
    cbn. apply lookup_insert_is_Some. destruct (decide (p = q)); auto.
  - intros p s Hlive.
    destruct (finish_motor_shape p s) as [[_ ->]|[m [x [mcr [_ ->]]]]]; [exact Hlive|].
    intros j Hj Hb.
    change (bm_test (set_active_motor_bm (Z.land (active_motor_bm s) x) s)
                    (2 ^ Z.of_nat j) = true) in Hb.
    apply bm_test_clear_bits in Hb. destruct (Hlive j Hj Hb) as [q [Hq Hsome]].
    exists q. split; [exact Hq|]. cbn. apply lookup_insert_is_Some.
    destruct (decide (p = q)); auto.
  - intros p s q.
    destruct (finish_motor_shape p s) as [[Hnone ->]|[m [x [mcr [Hm ->]]]]].
    + intros Hq. split; [|exact Hq].
      intros ->. unfold flagged in Hq. rewrite Hnone in Hq. discriminate Hq.
    + unfold flagged. cbn. destruct (decide (p = q)) as [->|Hne].
      * rewrite lookup_insert_eq. intros H. discriminate H.
      * rewrite lookup_insert_ne by exact Hne. auto.
Qed.

End StepTickerProofs.

(** * Properties of the stepper *)

(** ** Comparisons of floats *)

Lemma SFcompare_antisym (a b : float) :
  SFcompare b a = option_map CompOpp (SFcompare a b).
Proof.
  destruct a as [sa|sa| |sa ma ea], b as [sb|sb| |sb mb eb]; cbn;
    try reflexivity;
    try (destruct sa; reflexivity);
    try (destruct sb; reflexivity);
    try (destruct sa, sb; reflexivity).
  destruct sa, sb; try reflexivity;
    rewrite (Z.compare_antisym ea eb);
    destruct (ea ?= eb); cbn; try reflexivity;
    rewrite !Pos.compare_cont_spec; cbn;
    rewrite (Pos.compare_antisym ma mb);
    destruct (ma ?= mb)%positive; reflexivity.
Qed.

Lemma f_lt_irrefl (a : float) : f_lt a a = false.
Proof.
  unfold f_lt, SFltb. pose proof (SFcompare_antisym a a) as H.
  destruct (SFcompare a a) as [[| |]|]; cbn in H; try reflexivity; discriminate H.
Qed.

Lemma f_lt_asym (a b : float) : f_lt a b = true -> f_lt b a = false.
Proof.
  unfold f_lt, SFltb. rewrite (SFcompare_antisym a b).
  destruct (SFcompare a b) as [[| |]|]; cbn; intros H; try discriminate H; reflexivity.
Qed.

Lemma f_le_not_gt (a b : float) : f_le a b = true -> f_gt a b = false.
Proof.
  unfold f_le, f_gt, f_lt, SFleb, SFltb. rewrite (SFcompare_antisym a b).
  destruct (SFcompare a b) as [[| |]|]; cbn; intros H; try discriminate H; reflexivity.
Qed.

(** Floats that compare equal are the same float, or are both zero. *)
Lemma f_eq_cases (a b : float) :
  f_eq a b = true ->
  a = b \/ exists sa sb, a = S754_zero sa /\ b = S754_zero sb.
Proof.
  unfold f_eq, SFeqb.
  destruct a as [sa|sa| |sa ma ea], b as [sb|sb| |sb mb eb]; cbn;
    try (intros H; discriminate H);
    try (destruct sa; intros H; discriminate H);
    try (destruct sb; intros H; discriminate H).
  - intros _. right. eauto.
  - destruct sa, sb; intros H; try discriminate H; auto.
  - destruct sa, sb; try discriminate;
      destruct (Z.compare_spec ea eb) as [->| |]; cbn; try discriminate;
      rewrite Pos.compare_cont_spec; cbn [Pos.switch_Eq];
      destruct (Pos.compare_spec ma mb) as [->| |]; cbn; try discriminate; auto.
Qed.

Lemma f_eq_gt (a b x : float) : f_eq a b = true -> f_gt a x = f_gt b x.
Proof.
  intros H. destruct (f_eq_cases a b H) as [->|[sa [sb [-> ->]]]]; [reflexivity|].
  destruct x as [sx|sx| |sx mx ex]; reflexivity.
Qed.

Module StepperProofs.
Import Stepper StepperSpec.

Section WithSetSpeed.

Variable set_speed : float -> StepperMotor -> StepperMotor.

(** ** Blocks the stepper ignores *)

(** C7. A block whose [millimeters] compare equal to zero, or whose
    ALPHA, BETA and GAMMA step counts are all zero, makes
    [on_block_begin] return with no call made (no [take], no driver
    enabled, no [move]) and with the stepper, the motors included, as it
    was: [current_block], [main_stepper] and the trapezoid rate are
    unchanged. *)
Theorem zero_block_is_ignored (block : Block) (s : t) :
  f_eq (millimeters block) F0_0 = true \/
  (steps block ALPHA_STEPPER = 0 /\ steps block BETA_STEPPER = 0 /\
   steps block GAMMA_STEPPER = 0) ->
  on_block_begin set_speed block s = Some ([], s).
Proof.
  intros [Hmm|[Ha [Hb Hc]]]; unfold on_block_begin.
  - rewrite Hmm. reflexivity.
  - rewrite Ha, Hb, Hc. cbn. destruct (f_eq (millimeters block) F0_0); reflexivity.
Qed.

(** ** Pushing a rate to the motors *)

Lemma speed_events_insert (v : float) (ms : gmap ptr StepperMotor) (l : list ptr)
      (a : ptr) (x : StepperMotor) :
  a ∉ l -> speed_events v (<[a:=x]> ms) l = speed_events v ms l.
Proof.
  induction l as [|a' l IH]; intros Ha; [reflexivity|].
  apply not_elem_of_cons in Ha. destruct Ha as [Hne Ha].
  cbn [speed_events]. rewrite lookup_insert_ne by exact Hne. rewrite IH by exact Ha.
  reflexivity.
Qed.

Lemma set_speed_loop_spec (v : float) (l : list ptr) (ms : gmap ptr StepperMotor) :
  NoDup l ->
  (forall a, a ∈ l -> is_Some (ms !! a)) ->
  exists ms',
    set_speed_loop set_speed l v ms = Some (speed_events v ms l, ms') /\
    (forall a m, a ∈ l -> ms !! a = Some m ->
       ms' !! a = Some (if moving m then set_speed (f_mul v (rate_ratio m)) m else m)) /\
    (forall a, a ∉ l -> ms' !! a = ms !! a).
Proof.
  revert ms. induction l as [|a l IH]; intros ms Hnd Hlive.
  - exists ms. split; [reflexivity|]. split; [|reflexivity].
    intros a m Ha. inversion Ha.
  - apply NoDup_cons in Hnd. destruct Hnd as [Hnotin Hnd].
    destruct (Hlive a) as [m Hm]; [apply elem_of_cons; auto|].
    cbn [set_speed_loop speed_events]. rewrite Hm. cbn [mbind option_bind].
    destruct (moving m) eqn:Hmov.
    + destruct (IH (<[a:=set_speed (f_mul v (rate_ratio m)) m]> ms) Hnd)
        as [ms' [Heq [Hin Hout]]].
      { intros a' Ha'. apply lookup_insert_is_Some.
        destruct (decide (a = a')); [auto|]. right. split; [assumption|].
        apply Hlive. apply elem_of_cons. auto. }
      rewrite Heq. cbn [mbind option_bind fst snd].
      rewrite speed_events_insert by exact Hnotin.
      exists ms'. split; [reflexivity|]. split.
      * intros a' m' Ha' Hm'. apply elem_of_cons in Ha'. destruct Ha' as [->|Ha'].
        -- rewrite Hout by exact Hnotin. rewrite lookup_insert_eq.
           rewrite Hm in Hm'. inversion Hm'; subst. rewrite Hmov. reflexivity.
        -- apply Hin; [exact Ha'|]. rewrite lookup_insert_ne; [exact Hm'|].
           intros ->. contradiction.
      * intros a' Ha'. apply not_elem_of_cons in Ha'. destruct Ha' as [Hne Ha'].
        rewrite Hout by exact Ha'. apply lookup_insert_ne. congruence.
    + destruct (IH ms Hnd) as [ms' [Heq [Hin Hout]]].
      { intros a' Ha'. apply Hlive. apply elem_of_cons. auto. }
      rewrite Heq. exists ms'. split; [reflexivity|]. split.
      * intros a' m' Ha' Hm'. apply elem_of_cons in Ha'. destruct Ha' as [->|Ha'].
        -- rewrite Hout by exact Hnotin.
           rewrite Hm in Hm'. inversion Hm'; subst. rewrite Hmov. exact Hm.
        -- apply Hin; assumption.
      * intros a' Ha'. apply not_elem_of_cons in Ha'. destruct Ha' as [_ Ha'].
        apply Hout. exact Ha'.
Qed.

Lemma set_speed_loop_total (v : float) (l : list ptr) (ms : gmap ptr StepperMotor) :
  (forall a, a ∈ l -> is_Some (ms !! a)) ->
  is_Some (set_speed_loop set_speed l v ms).
Proof.
  revert ms. induction l as [|a l IH]; intros ms Hlive; [eexists; reflexivity|].
  destruct (Hlive a) as [m Hm]; [apply elem_of_cons; auto|].
  cbn [set_speed_loop]. rewrite Hm. cbn [mbind option_bind].
  destruct (moving m).
  - destruct (IH (<[a:=set_speed (f_mul v (rate_ratio m)) m]> ms)) as [r Hr].
    { intros a' Ha'. apply lookup_insert_is_Some.
      destruct (decide (a = a')); [auto|]. right. split; [assumption|].
      apply Hlive. apply elem_of_cons. auto. }
    rewrite Hr. eexists; reflexivity.
  - apply IH. intros a' Ha'. apply Hlive. apply elem_of_cons. auto.
Qed.

(** The call returns and touches nothing but the motors. *)
Lemma set_step_events_per_second_total (r : float) (s : t) :
  actuators_live s ->
  exists ev ms', set_step_events_per_second set_speed r s = Some (ev, set_motors ms' s).
Proof.
  intros Hlive. unfold set_step_events_per_second.
  destruct (set_speed_loop_total
              (applied_rate r (minimum_steps_per_second s)) (actuators s) (motors s) Hlive)
    as [[ev ms'] Hr].
  rewrite Hr. eexists _, _. reflexivity.
Qed.

Lemma applied_rate_not_below (r minimum : float) :
  f_lt (applied_rate r minimum) minimum = false /\
  f_lt (applied_rate r minimum) r = false.
Proof.
  unfold applied_rate. destruct (f_lt r minimum) eqn:H.
  - split; [apply f_lt_irrefl | apply f_lt_asym; exact H].
  - split; [exact H | apply f_lt_irrefl].
Qed.

(** C8. For a call [set_step_events_per_second(r)] on actuators that are
    distinct motors: the call returns; the rate it applies is
    [minimum_steps_per_second] when [r] is less than it and [r] otherwise,
    hence below neither of the two; exactly the actuators with [moving]
    set receive [set_speed(applied * rate_ratio)], in order, followed by the
    speed-change event; every actuator that is not moving, and every other
    motor, is left as it was. *)
Theorem set_speed_reaches_moving_actuators (r : float) (s : t) :
  NoDup (actuators s) ->
  actuators_live s ->
  let v := applied_rate r (minimum_steps_per_second s) in
  exists ms',
    set_step_events_per_second set_speed r s
      = Some (speed_events v (motors s) (actuators s) ++ [SpeedChange], set_motors ms' s) /\
    v = (if f_lt r (minimum_steps_per_second s) then minimum_steps_per_second s else r) /\
    f_lt v (minimum_steps_per_second s) = false /\
    f_lt v r = false /\
    (forall a m, a ∈ actuators s -> motors s !! a = Some m ->
       ms' !! a = Some (if moving m then set_speed (f_mul v (rate_ratio m)) m else m)) /\
    (forall a, a ∉ actuators s -> ms' !! a = motors s !! a).
Proof.
  intros Hnd Hlive v.
  destruct (set_speed_loop_spec v (actuators s) (motors s) Hnd Hlive) as [ms' [Heq [Hin Hout]]].
  exists ms'. unfold set_step_events_per_second. fold v. rewrite Heq.
  split; [reflexivity|]. split; [reflexivity|].
  destruct (applied_rate_not_below r (minimum_steps_per_second s)) as [H1 H2].
  split; [exact H1|]. split; [exact H2|]. split; [exact Hin | exact Hout].
Qed.

(** ** The trapezoid generator *)

Lemma stop_events_insert (ms : gmap ptr StepperMotor) (l : list ptr)
      (a : ptr) (x : StepperMotor) :
  a ∉ l -> stop_events (<[a:=x]> ms) l = stop_events ms l.
Proof.
  induction l as [|a' l IH]; intros Ha; [reflexivity|].
  apply not_elem_of_cons in Ha. destruct Ha as [Hne Ha].
  cbn [stop_events]. rewrite lookup_insert_ne by exact Hne. rewrite IH by exact Ha.
  reflexivity.
Qed.

Lemma stop_loop_spec (l : list ptr) (ms : gmap ptr StepperMotor) :
  NoDup l ->
  (forall a, a ∈ l -> is_Some (ms !! a)) ->
  exists ms',
    stop_loop l ms = Some (stop_events ms l, ms') /\
    (forall a m, a ∈ l -> ms !! a = Some m ->
       ms' !! a = Some (StepperMotor_move (direction m) 0 m)) /\
    (forall a, a ∉ l -> ms' !! a = ms !! a).
Proof.
  revert ms. induction l as [|a l IH]; intros ms Hnd Hlive.
  - exists ms. split; [reflexivity|]. split; [|reflexivity].
    intros a m Ha. inversion Ha.
  - apply NoDup_cons in Hnd. destruct Hnd as [Hnotin Hnd].
    destruct (Hlive a) as [m Hm]; [apply elem_of_cons; auto|].
    cbn [stop_loop stop_events]. rewrite Hm. cbn [mbind option_bind].
    destruct (IH (<[a:=StepperMotor_move (direction m) 0 m]> ms) Hnd)
      as [ms' [Heq [Hin Hout]]].
    { intros a' Ha'. apply lookup_insert_is_Some.
      destruct (decide (a = a')); [auto|]. right. split; [assumption|].
      apply Hlive. apply elem_of_cons. auto. }
    rewrite Heq. cbn [mbind option_bind fst snd].
    rewrite stop_events_insert by exact Hnotin.
    exists ms'. split; [reflexivity|]. split.
    + intros a' m' Ha' Hm'. apply elem_of_cons in Ha'. destruct Ha' as [->|Ha'].
      * rewrite Hout by exact Hnotin. rewrite lookup_insert_eq.
        rewrite Hm in Hm'. inversion Hm'; subst. reflexivity.
      * apply Hin; [exact Ha'|]. rewrite lookup_insert_ne; [exact Hm'|].
        intros ->. contradiction.
    + intros a' Ha'. apply not_elem_of_cons in Ha'. destruct Ha' as [Hne Ha'].
      rewrite Hout by exact Ha'. apply lookup_insert_ne. congruence.
Qed.

(** Past its guard and the test of [force_speed_update], the tick is a
    choice among the flush, acceleration, deceleration and cruise
    branches. *)
Lemma tick_unforced (s : t) (b : Block) (mm : StepperMotor) :
  ticking s b mm ->
  force_speed_update s = false ->
  trapezoid_generator_tick set_speed s =
    let rate := trapezoid_adjusted_rate s in
    let push r := set_step_events_per_second set_speed r (set_trapezoid_adjusted_rate r s) in
    if flush s then
      if f_gt rate (f_mul (rate_delta b) F1_5) then push (f_sub rate (rate_delta b))
      else if f_eq rate (f_mul (rate_delta b) F0_5) then
        r ← stop_loop (actuators s) (motors s);
        Some (fst r ++ [Release], set_motors (snd r) s)
      else push (f_mul (rate_delta b) F0_5)
    else if stepped mm <=? wrap32 (accelerate_until b + 1) then
      push (if f_gt (f_add rate (rate_delta b)) (nominal_rate b)
            then nominal_rate b else f_add rate (rate_delta b))
    else if decelerate_after b <? stepped mm then
      push (let r := if f_gt rate (f_mul (rate_delta b) F1_5)
                     then f_sub rate (rate_delta b)
                     else f_mul (rate_delta b) F0_5 in
            if f_lt r (final_rate b) then final_rate b else r)
    else if f_ne rate (nominal_rate b) then push (nominal_rate b)
    else set_step_events_per_second set_speed rate s.
Proof.
  intros [Hcb [Hp [Hbm [mp [Hmain Hmm]]]]] Hforce.
  unfold trapezoid_generator_tick. rewrite Hcb, Hp, Hmain.
  destruct (Z.eqb_spec (active_motor_bm s) 0) as [|_]; [contradiction|].
  cbn [negb andb mbind option_bind]. rewrite Hmm. cbn [mbind option_bind].
  rewrite Hforce. reflexivity.
Qed.

(** Pushing the new rate returns and leaves it in [trapezoid_adjusted_rate]. *)
Lemma push_rate (r : float) (s : t) :
  actuators_live s ->
  exists ev s',
    set_step_events_per_second set_speed r (set_trapezoid_adjusted_rate r s) = Some (ev, s') /\
    trapezoid_adjusted_rate s' = r /\
    current_block s' = current_block s /\
    main_stepper s' = main_stepper s.
Proof.
  intros Hlive.
  destruct (set_step_events_per_second_total r (set_trapezoid_adjusted_rate r s) Hlive)
    as [ev [ms' Heq]].
  rewrite Heq. eexists _, _. split; [reflexivity|]. auto.
Qed.

(** C6. A trapezoid tick in the acceleration phase (the guard holds, no
    forced speed update, no flush, [main_stepper->stepped <=
    accelerate_until + 1] in 32-bit arithmetic) returns with the rate
    increased by [rate_delta] and then replaced by [nominal_rate] if it
    exceeds it; after the tick the rate does not exceed [nominal_rate]. *)
Theorem acceleration_tick (s : t) (b : Block) (mm : StepperMotor) :
  ticking s b mm ->
  actuators_live s ->
  force_speed_update s = false ->
  flush s = false ->
  stepped mm <= wrap32 (accelerate_until b + 1) ->
  exists ev s',
    trapezoid_generator_tick set_speed s = Some (ev, s') /\
    trapezoid_adjusted_rate s' =
      (if f_gt (f_add (trapezoid_adjusted_rate s) (rate_delta b)) (nominal_rate b)
       then nominal_rate b
       else f_add (trapezoid_adjusted_rate s) (rate_delta b)) /\
    f_gt (trapezoid_adjusted_rate s') (nominal_rate b) = false.
Proof.
  intros Htick Hlive Hforce Hflush Hacc.
  rewrite (tick_unforced s b mm Htick Hforce). cbn zeta. rewrite Hflush.
  destruct (Z.leb_spec (stepped mm) (wrap32 (accelerate_until b + 1))) as [_|]; [|lia].
  destruct (push_rate
              (if f_gt (f_add (trapezoid_adjusted_rate s) (rate_delta b)) (nominal_rate b)
               then nominal_rate b
               else f_add (trapezoid_adjusted_rate s) (rate_delta b)) s Hlive)
    as [ev [s' [Heq [Hrate _]]]].
  exists ev, s'. split; [exact Heq|]. split; [exact Hrate|].
  rewrite Hrate.
  destruct (f_gt (f_add (trapezoid_adjusted_rate s) (rate_delta b)) (nominal_rate b)) eqn:Hgt.
  - apply f_lt_irrefl.
  - exact Hgt.
Qed.

(** C5, as amended. A trapezoid tick in the deceleration phase (the guard
    holds, no forced speed update, no flush, [main_stepper->stepped] above
    both [accelerate_until + 1] and [decelerate_after]) returns with the
    rate decreased by [rate_delta] where it exceeds [rate_delta * 1.5] and
    set to [rate_delta * 0.5] otherwise, and then replaced by [final_rate]
    if it is less; after the tick the rate is not less than
    [final_rate]. *)
Theorem deceleration_tick (s : t) (b : Block) (mm : StepperMotor) :
  ticking s b mm ->
  actuators_live s ->
  force_speed_update s = false ->
  flush s = false ->
  wrap32 (accelerate_until b + 1) < stepped mm ->
  decelerate_after b < stepped mm ->
  exists ev s',
    trapezoid_generator_tick set_speed s = Some (ev, s') /\
    trapezoid_adjusted_rate s' =
      (let r := if f_gt (trapezoid_adjusted_rate s) (f_mul (rate_delta b) F1_5)
                then f_sub (trapezoid_adjusted_rate s) (rate_delta b)
                else f_mul (rate_delta b) F0_5 in
       if f_lt r (final_rate b) then final_rate b else r) /\
    f_lt (trapezoid_adjusted_rate s') (final_rate b) = false.
Proof.
  intros Htick Hlive Hforce Hflush Hacc Hdec.
  rewrite (tick_unforced s b mm Htick Hforce). cbn zeta. rewrite Hflush.
  destruct (Z.leb_spec (stepped mm) (wrap32 (accelerate_until b + 1))) as [|_]; [lia|].
  destruct (Z.ltb_spec (decelerate_after b) (stepped mm)) as [_|]; [|lia].
  set (r := if f_gt (trapezoid_adjusted_rate s) (f_mul (rate_delta b) F1_5)
            then f_sub (trapezoid_adjusted_rate s) (rate_delta b)
            else f_mul (rate_delta b) F0_5).
  destruct (push_rate (if f_lt r (final_rate b) then final_rate b else r) s Hlive)
    as [ev [s' [Heq [Hrate _]]]].
  exists ev, s'. split; [exact Heq|]. split; [exact Hrate|].
  rewrite Hrate. destruct (f_lt r (final_rate b)) eqn:Hlt.
  - apply f_lt_irrefl.
  - exact Hlt.
Qed.

(** C4. While the conveyor flushes and a block executes (the guard holds,
    no forced speed update, the actuators distinct motors), a trapezoid
    tick returns and: with the rate above [rate_delta * 1.5] it decreases
    the rate by [rate_delta]; with the rate not above [rate_delta * 1.5],
    as it is when at or below it, and not equal to [rate_delta * 0.5] it
    sets the rate to [rate_delta * 0.5]; with the rate not above
    [rate_delta * 1.5] and equal to [rate_delta * 0.5] it calls
    [move(direction, 0)] on every actuator, in order, and then releases
    the block, leaving every actuator as that move leaves it and the rate
    as it was. *)
Theorem flush_tick (s : t) (b : Block) (mm : StepperMotor) :
  ticking s b mm ->
  actuators_live s ->
  NoDup (actuators s) ->
  force_speed_update s = false ->
  flush s = true ->
  let rate := trapezoid_adjusted_rate s in
  (f_gt rate (f_mul (rate_delta b) F1_5) = true ->
   exists ev s',
     trapezoid_generator_tick set_speed s = Some (ev, s') /\
     trapezoid_adjusted_rate s' = f_sub rate (rate_delta b) /\
     current_block s' = Some b) /\
  (f_le rate (f_mul (rate_delta b) F1_5) = true ->
   f_gt rate (f_mul (rate_delta b) F1_5) = false) /\
  (f_gt rate (f_mul (rate_delta b) F1_5) = false ->
   f_eq rate (f_mul (rate_delta b) F0_5) = false ->
   exists ev s',
     trapezoid_generator_tick set_speed s = Some (ev, s') /\
     trapezoid_adjusted_rate s' = f_mul (rate_delta b) F0_5 /\
     current_block s' = Some b) /\
  (f_gt rate (f_mul (rate_delta b) F1_5) = false ->
   f_eq rate (f_mul (rate_delta b) F0_5) = true ->
   exists ms',
     trapezoid_generator_tick set_speed s
       = Some (stop_events (motors s) (actuators s) ++ [Release], set_motors ms' s) /\
     (forall a m, a ∈ actuators s -> motors s !! a = Some m ->
        ms' !! a = Some (StepperMotor_move (direction m) 0 m)) /\
     (forall a, a ∉ actuators s -> ms' !! a = motors s !! a)).
Proof.
  intros Htick Hlive Hnd Hforce Hflush rate.
  rewrite (tick_unforced s b mm Htick Hforce). cbn zeta. rewrite Hflush. fold rate.
  assert (Hcb : current_block s = Some b) by apply Htick.
  split; [|split; [|split]].
  - intros Hgt. rewrite Hgt.
    destruct (push_rate (f_sub rate (rate_delta b)) s Hlive) as [ev [s' [Heq [Hrate [Hb _]]]]].
    exists ev, s'. split; [exact Heq|]. split; [exact Hrate | congruence].
  - apply f_le_not_gt.
  - intros Hle Hne. rewrite Hle, Hne.
    destruct (push_rate (f_mul (rate_delta b) F0_5) s Hlive) as [ev [s' [Heq [Hrate [Hb _]]]]].
    exists ev, s'. split; [exact Heq|]. split; [exact Hrate | congruence].
  - intros Hle Heq. rewrite Hle, Heq.
    destruct (stop_loop_spec (actuators s) (motors s) Hnd Hlive) as [ms' [Hstop [Hin Hout]]].
    rewrite Hstop. exists ms'. split; [reflexivity|]. split; [exact Hin | exact Hout].
Qed.

(** For a block whose [rate_delta * 0.5] is not above its [rate_delta *
    1.5], as with every [rate_delta] that is not negative, the tick that
    finds the rate equal to [rate_delta * 0.5] is the one that stops the
    actuators and releases the block. *)
Lemma flush_floor_reached (s : t) (b : Block) (mm : StepperMotor) :
  ticking s b mm ->
  actuators_live s ->
  NoDup (actuators s) ->
  force_speed_update s = false ->
  flush s = true ->
  f_gt (f_mul (rate_delta b) F0_5) (f_mul (rate_delta b) F1_5) = false ->
  f_eq (trapezoid_adjusted_rate s) (f_mul (rate_delta b) F0_5) = true ->
  exists ms',
    trapezoid_generator_tick set_speed s
      = Some (stop_events (motors s) (actuators s) ++ [Release], set_motors ms' s).
Proof.
  intros Htick Hlive Hnd Hforce Hflush Hfloor Heq.
  rewrite (tick_unforced s b mm Htick Hforce). cbn zeta.
  rewrite Hflush, (f_eq_gt _ _ _ Heq), Hfloor, Heq.
  destruct (stop_loop_spec (actuators s) (motors s) Hnd Hlive) as [ms' [Hstop _]].
  rewrite Hstop. exists ms'. reflexivity.
Qed.

(** ** The main stepper *)

Lemma set_step_events_frame (r : float) (s : t) (ev : list Event) (s' : t) :
  set_step_events_per_second set_speed r s = Some (ev, s') ->
  main_stepper s' = main_stepper s /\ actuators s' = actuators s.
Proof.
  unfold set_step_events_per_second. intros H.
  repeat step_in H. inversion H; subst. auto.
Qed.

Lemma tick_frame (s : t) (ev : list Event) (s' : t) :
  trapezoid_generator_tick set_speed s = Some (ev, s') ->
  main_stepper s' = main_stepper s /\ actuators s' = actuators s.
Proof.
  unfold trapezoid_generator_tick. intros H.
  destruct (current_block s) as [b|]; [|inversion H; subst; auto].
  repeat step_in H;
    try (inversion H; subst; auto; fail);
    apply set_step_events_frame in H; destruct H as [Ha Hb];
    cbn in Ha, Hb; split; congruence.
Qed.

Lemma move_loop_frame (block : Block) (n i : nat) (s : t) (r : list Event * t) :
  move_loop block n i s = Some r ->
  main_stepper (snd r) = main_stepper s /\ actuators (snd r) = actuators s.
Proof.
  revert i s r. induction n as [|n IH]; intros i s r H.
  - inversion H; subst. auto.
  - cbn [move_loop] in H. repeat step_in H.
    all: try (apply IH in H; exact H).
    all: inversion H; subst; cbn [snd];
      match goal with Hm : move_loop _ _ _ _ = Some _ |- _ => apply IH in Hm; exact Hm end.
Qed.

(** Whatever the block, the main stepper [on_block_begin] leaves is the
    one the search finds among the motors as they were before the block's
    moves were commanded. *)
Lemma on_block_begin_main_stepper (block : Block) (s : t) (ev : list Event) (s' : t) :
  on_block_begin set_speed block s = Some (ev, s') ->
  ev <> [] ->
  Some (main_stepper s') = find_main_stepper (actuators s) (motors s) None.
Proof.
  unfold on_block_begin. intros H Hev.
  destruct (f_eq (millimeters block) F0_0); [inversion H; subst; contradiction|].
  destruct (_ || _); [|inversion H; subst; contradiction].
  unfold trapezoid_generator_reset in H. cbn [current_block set_current_block] in H.
  cbn [mbind option_bind] in H.
  assert (Hact : actuators (if negb (enable_pins_status s)
                            then turn_enable_pins_on s else ([], s)).2 = actuators s
                 /\ motors (if negb (enable_pins_status s)
                            then turn_enable_pins_on s else ([], s)).2 = motors s)
    by (destruct (negb (enable_pins_status s)); auto).
  destruct Hact as [Hact Hms].
  cbn [actuators motors set_force_speed_update set_trapezoid_adjusted_rate
       set_current_block] in H.
  rewrite Hact, Hms in H.
  destruct (find_main_stepper (actuators s) (motors s) None) as [main|];
    cbn [mbind option_bind] in H; [|discriminate H].
  destruct (move_loop block 3 0 _) as [r5|] eqn:H5;
    cbn [mbind option_bind] in H; [|discriminate H].
  destruct (trapezoid_generator_tick set_speed r5.2) as [[ev6 s6]|] eqn:H6;
    cbn [mbind option_bind fst snd] in H; [|discriminate H].
  destruct (synchronize_acceleration s6) as [[ev7 s7]|] eqn:H7;
    cbn [mbind option_bind fst snd] in H; [|discriminate H].
  inversion H; subst. cbn [snd].
  apply move_loop_frame in H5. apply tick_frame in H6.
  assert (H7' : s' = s6).
  { unfold synchronize_acceleration in H7. repeat step_in H7; inversion H7; reflexivity. }
  subst s'. destruct H5 as [H5 _], H6 as [H6 _]. rewrite H6, H5. reflexivity.
Qed.

End WithSetSpeed.

Lemma ticking_running (b : Block) (done : Z) (rate : float) (flushing : bool) :
  ticking (running b done rate flushing) b
          (mkStepperMotor 400 done 0 (2 ^ 32) false true false (f_of_Z 1)).
Proof.
  split; [reflexivity|]. split; [reflexivity|]. split; [discriminate|].
  exists 1%N. split; reflexivity.
Qed.

Lemma actuators_live_running (b : Block) (done : Z) (rate : float) (flushing : bool) :
  actuators_live (running b done rate flushing).
Proof.
  intros a Ha. change (actuators (running b done rate flushing)) with [1%N; 2%N] in Ha.
  repeat (apply elem_of_cons in Ha; destruct Ha as [->|Ha]);
    [eexists; reflexivity | eexists; reflexivity | inversion Ha].
Qed.

Lemma NoDup_actuators_running (b : Block) (done : Z) (rate : float) (flushing : bool) :
  NoDup (actuators (running b done rate flushing)).
Proof.
  change (actuators (running b done rate flushing)) with [1%N; 2%N].
  repeat constructor; intros Hin; repeat (apply elem_of_cons in Hin; destruct Hin as [Hin|Hin]);
    try discriminate Hin; inversion Hin.
Qed.

Lemma acceleration_tick_witness :
  let s := running block_trapezoid 1 (f_of_Z 950) false in
  let mm := mkStepperMotor 400 1 0 (2 ^ 32) false true false (f_of_Z 1) in
  ticking s block_trapezoid mm /\ actuators_live s /\
  force_speed_update s = false /\ flush s = false /\
  stepped mm <= wrap32 (accelerate_until block_trapezoid + 1) /\
  exists ev s',
    trapezoid_generator_tick keep_speed s = Some (ev, s') /\
    trapezoid_adjusted_rate s' = f_of_Z 1000.
Proof.
  intros s mm.
  assert (H1 := ticking_running block_trapezoid 1 (f_of_Z 950) false).
  assert (H2 := actuators_live_running block_trapezoid 1 (f_of_Z 950) false).
  assert (H5 : stepped mm <= wrap32 (accelerate_until block_trapezoid + 1))
    by (vm_compute; discriminate).
  split; [exact H1|]. split; [exact H2|]. split; [reflexivity|]. split; [reflexivity|].
  split; [exact H5|].
  destruct (acceleration_tick keep_speed s block_trapezoid mm H1 H2 eq_refl eq_refl H5)
    as [ev [s' [Heq [Hrate _]]]].
  exists ev, s'. split; [exact Heq | exact Hrate].
Defined.

Lemma deceleration_tick_witness :
  let s := running block_trapezoid 6 (f_of_Z 500) false in
  let mm := mkStepperMotor 400 6 0 (2 ^ 32) false true false (f_of_Z 1) in
  ticking s block_trapezoid mm /\ actuators_live s /\
  force_speed_update s = false /\ flush s = false /\
  wrap32 (accelerate_until block_trapezoid + 1) < stepped mm /\
  decelerate_after block_trapezoid < stepped mm /\
  exists ev s',
    trapezoid_generator_tick keep_speed s = Some (ev, s') /\
    trapezoid_adjusted_rate s' = f_of_Z 400.
Proof.
  intros s mm.
  assert (H1 := ticking_running block_trapezoid 6 (f_of_Z 500) false).
  assert (H2 := actuators_live_running block_trapezoid 6 (f_of_Z 500) false).
  assert (H5 : wrap32 (accelerate_until block_trapezoid + 1) < stepped mm) by reflexivity.
  assert (H6 : decelerate_after block_trapezoid < stepped mm) by reflexivity.
  split; [exact H1|]. split; [exact H2|]. split; [reflexivity|]. split; [reflexivity|].
  split; [exact H5|]. split; [exact H6|].
  destruct (deceleration_tick keep_speed s block_trapezoid mm H1 H2 eq_refl eq_refl H5 H6)
    as [ev [s' [Heq [Hrate _]]]].
  exists ev, s'. split; [exact Heq | exact Hrate].
Defined.

(** C5 as it is written fails twice over. With a triangle profile
    ([accelerate_until = decelerate_after = 5]) and 6 steps made, the
    tick is past [decelerate_after], yet the acceleration branch, tested
    first, takes it: the rate goes from 500 up to 600. And in the
    deceleration branch at rate 120 with [rate_delta = 100], the
    difference 20 is above zero, yet the rate is set to 50: the test is
    against [rate_delta * 1.5]. So the tick does not do past
    [decelerate_after] what C5 says. *)
Lemma deceleration_claim_fails :
  (let s := running block_triangle 6 (f_of_Z 500) false in
   ticking s block_triangle (mkStepperMotor 400 6 0 (2 ^ 32) false true false (f_of_Z 1)) /\
   force_speed_update s = false /\ flush s = false /\
   decelerate_after block_triangle < 6 /\
   f_sub (f_of_Z 500) (rate_delta block_triangle) = f_of_Z 400 /\
   exists ev s',
     trapezoid_generator_tick keep_speed s = Some (ev, s') /\
     trapezoid_adjusted_rate s' = f_of_Z 600) /\
  (let s := running block_trapezoid 6 (f_of_Z 120) false in
   ticking s block_trapezoid (mkStepperMotor 400 6 0 (2 ^ 32) false true false (f_of_Z 1)) /\
   force_speed_update s = false /\ flush s = false /\
   wrap32 (accelerate_until block_trapezoid + 1) < 6 /\
   decelerate_after block_trapezoid < 6 /\
   f_sub (f_of_Z 120) (rate_delta block_trapezoid) = f_of_Z 20 /\
   f_le (f_of_Z 20) F0_0 = false /\
   exists ev s',
     trapezoid_generator_tick keep_speed s = Some (ev, s') /\
     trapezoid_adjusted_rate s' = f_of_Z 50) /\
  ~ decelerates_past_decelerate_after keep_speed.
Proof.
  split; [|split].
  - split; [apply ticking_running|]. do 4 (split; [reflexivity|]).
    eexists _, _. split; reflexivity.
  - split; [apply ticking_running|]. do 6 (split; [reflexivity|]).
    eexists _, _. split; reflexivity.
  - intros Hclaim.
    pose proof (Hclaim (running block_triangle 6 (f_of_Z 500) false) block_triangle _ _ _
                  (ticking_running block_triangle 6 (f_of_Z 500) false)
                  eq_refl eq_refl eq_refl eq_refl) as Hrate.
    vm_compute in Hrate. discriminate Hrate.
Qed.

Lemma flush_tick_witness :
  let s := running block_trapezoid 3 (f_of_Z 50) true in
  let mm := mkStepperMotor 400 3 0 (2 ^ 32) false true false (f_of_Z 1) in
  ticking s block_trapezoid mm /\ actuators_live s /\ NoDup (actuators s) /\
  force_speed_update s = false /\ flush s = true /\
  exists ms',
    trapezoid_generator_tick keep_speed s
      = Some ([Move 1%N false 0; Move 2%N true 0; Release], set_motors ms' s).
Proof.
  intros s mm.
  assert (H1 := ticking_running block_trapezoid 3 (f_of_Z 50) true).
  assert (H2 := actuators_live_running block_trapezoid 3 (f_of_Z 50) true).
  assert (H3 := NoDup_actuators_running block_trapezoid 3 (f_of_Z 50) true).
  split; [exact H1|]. split; [exact H2|]. split; [exact H3|].
  split; [reflexivity|]. split; [reflexivity|].
  destruct (flush_tick keep_speed s block_trapezoid mm H1 H2 H3 eq_refl eq_refl)
    as [_ [_ [_ Hstop]]].
  destruct (Hstop eq_refl eq_refl) as [ms' [Heq _]].
  exists ms'. exact Heq.
Defined.

(** C3 at a failing input: three actuators that have not moved yet, and a
    block of 10 steps on alpha and 400 on beta. [on_block_begin] searches
    for the main stepper before it commands the block's moves, among step
    counts that are all zero, and keeps the first actuator, alpha; after
    the call alpha is to move 10 steps and beta 400, and [main_stepper] is
    still alpha. *)
Theorem main_stepper_chosen_before_moves :
  steps block_10_400 ALPHA_STEPPER = 10 /\
  steps block_10_400 BETA_STEPPER = 400 /\
  steps block_10_400 GAMMA_STEPPER = 0 /\
  actuators at_rest = [1%N; 2%N; 3%N] /\
  exists ev s',
    on_block_begin keep_speed block_10_400 at_rest = Some (ev, s') /\
    ev = [Take; Move 1%N false 10; Move 2%N false 400; SetPendingTimer2; SyncTimer2] /\
    main_stepper s' = Some 1%N /\
    steps_to_move <$> motors s' !! 1%N = Some 10 /\
    steps_to_move <$> motors s' !! 2%N = Some 400.
Proof.
  do 4 (split; [reflexivity|]).
  eexists _, _. split; [reflexivity|]. repeat split; reflexivity.
Qed.

Lemma set_speed_reaches_moving_actuators_witness :
  let s := running block_trapezoid 3 (f_of_Z 20) false in
  NoDup (actuators s) /\ actuators_live s /\
  exists ms',
    set_step_events_per_second keep_speed (f_of_Z 20) s
      = Some ([SetSpeed 1%N (f_of_Z 50); SetSpeed 2%N (f_of_Z 50); SpeedChange],
              set_motors ms' s).
Proof.
  intros s.
  assert (H1 : NoDup (actuators s)).
  { change (actuators s) with [1%N; 2%N].
    repeat constructor; intros Hin; repeat (apply elem_of_cons in Hin; destruct Hin as [Hin|Hin]);
      try discriminate Hin; inversion Hin. }
  assert (H2 : actuators_live s).
  { intros a Ha. change (actuators s) with [1%N; 2%N] in Ha.
    repeat (apply elem_of_cons in Ha; destruct Ha as [->|Ha]);
      [eexists; reflexivity | eexists; reflexivity | inversion Ha]. }
  split; [exact H1|]. split; [exact H2|].
  destruct (set_speed_reaches_moving_actuators keep_speed (f_of_Z 20) s H1 H2)
    as [ms' [Heq _]].
  exists ms'. exact Heq.
Defined.

Lemma zero_block_is_ignored_witness :
  (f_eq (millimeters block_zero) F0_0 = true \/
   (steps block_zero ALPHA_STEPPER = 0 /\ steps block_zero BETA_STEPPER = 0 /\
    steps block_zero GAMMA_STEPPER = 0)) /\
  on_block_begin keep_speed block_zero at_rest = Some ([], at_rest).
Proof.
  assert (H : f_eq (millimeters block_zero) F0_0 = true \/
              (steps block_zero ALPHA_STEPPER = 0 /\ steps block_zero BETA_STEPPER = 0 /\
               steps block_zero GAMMA_STEPPER = 0)) by (left; reflexivity).
  split; [exact H|].
  exact (zero_block_is_ignored keep_speed block_zero at_rest H).
Defined.

End StepperProofs.

(** * Further properties of the step ticker *)

Module StepTickerExtra.
Import StepTicker StepTickerSpec StepTickerTerms StepTickerProofs.

(** ** The active list *)

Lemma add_loop_first (motor : ptr) (reinit : bool) (j n i : nat) (s : t) :
  (i + n = 12)%nat -> (i <= j < 12)%nat ->
  stepper_motors s !! j = Some motor ->
  (forall k : nat, (i <= k < j)%nat -> stepper_motors s !! k <> Some motor) ->
  add_loop motor reinit n i (2 ^ Z.of_nat i) s =
    let s1 := set_active_motor_bm (Z.lor (active_motor_bm s) (2 ^ Z.of_nat j)) s in
    if reinit
    then Some (arm_stores s,
               set_TCR TCR_ENABLE
                 (set_MCR (Z.land (MCR s) (not32 (Z.lor MCR_MR1R MCR_MR1S))) s1))
    else Some ([], s1).
Proof.
  revert i. induction n as [|n IH]; intros i Hn Hj Hjs Hfirst; [lia|].
  cbn [add_loop].
  destruct (decide (i = j)) as [->|Hne].
  - rewrite Hjs, N.eqb_refl. reflexivity.
  - destruct (stepper_motors s !! i) as [q|] eqn:Hi.
    + destruct (N.eqb_spec q motor) as [->|Hq].
      * exfalso. apply (Hfirst i); [lia|exact Hi].
      * rewrite wrap32_shiftl_bit by lia. apply IH; [lia|lia|exact Hjs|].
        intros k Hk. apply Hfirst. lia.
    + exfalso. apply lookup_ge_None in Hi. apply lookup_lt_Some in Hjs. lia.
Qed.

Lemma remove_loop_first (motor : ptr) (j n i : nat) (s : t) :
  (i + n = 12)%nat -> (i <= j < 12)%nat ->
  stepper_motors s !! j = Some motor ->
  (forall k : nat, (i <= k < j)%nat -> stepper_motors s !! k <> Some motor) ->
  remove_loop motor n i (2 ^ Z.of_nat i) s =
    let s1 := set_active_motor_bm
                (Z.land (active_motor_bm s) (not32 (2 ^ Z.of_nat j))) s in
    if active_motor_bm s1 =? 0
    then Some (stop_stores s, set_MCR (Z.lor (MCR s) (Z.lor MCR_MR1R MCR_MR1S)) s1)
    else Some ([], s1).
Proof.
  revert i. induction n as [|n IH]; intros i Hn Hj Hjs Hfirst; [lia|].
  cbn [remove_loop].
  destruct (decide (i = j)) as [->|Hne].
  - rewrite Hjs, N.eqb_refl. reflexivity.
  - destruct (stepper_motors s !! i) as [q|] eqn:Hi.
    + destruct (N.eqb_spec q motor) as [->|Hq].
      * exfalso. apply (Hfirst i); [lia|exact Hi].
      * rewrite wrap32_shiftl_bit by lia. apply IH; [lia|lia|exact Hjs|].
        intros k Hk. apply Hfirst. lia.
    + exfalso. apply lookup_ge_None in Hi. apply lookup_lt_Some in Hjs. lia.
Qed.

Lemma add_at_first_slot (s : t) (p : ptr) (j : nat) :
  first_slot s p j -> add_motor_to_active_list p s = Some (added j s).
Proof.
  intros [Hj [Hjs Hfirst]]. unfold add_motor_to_active_list, added.
  change (add_loop p (active_motor_bm s =? 0) 12 0 1 s)
    with (add_loop p (active_motor_bm s =? 0) 12 0 (2 ^ Z.of_nat 0) s).
  rewrite (add_loop_first p _ j 12 0 s); [|lia|lia|exact Hjs|intros k Hk; apply Hfirst; lia].
  cbn zeta. destruct (active_motor_bm s =? 0); reflexivity.
Qed.

Lemma remove_at_first_slot (s : t) (p : ptr) (j : nat) :
  first_slot s p j -> remove_motor_from_active_list p s = Some (removed j s).
Proof.
  intros [Hj [Hjs Hfirst]]. unfold remove_motor_from_active_list, removed.
  change (remove_loop p 12 0 1 s) with (remove_loop p 12 0 (2 ^ Z.of_nat 0) s).
  rewrite (remove_loop_first p j 12 0 s); [|lia|lia|exact Hjs|intros k Hk; apply Hfirst; lia].
  cbn zeta.
  destruct (active_motor_bm
              (set_active_motor_bm (Z.land (active_motor_bm s) (not32 (2 ^ Z.of_nat j))) s)
            =? 0); reflexivity.
Qed.

Lemma first_slot_below (l : list ptr) (p : ptr) (n : nat) :
  (forall k : nat, (k < n)%nat -> l !! k <> Some p) \/
  exists j : nat, (j < n)%nat /\ l !! j = Some p /\
    forall k : nat, (k < j)%nat -> l !! k <> Some p.
Proof.
  induction n as [|n [IH|[j [Hj [Hjs Hfirst]]]]].
  - left. intros k Hk. lia.
  - destruct (decide (l !! n = Some p)) as [Hn|Hn].
    + right. exists n. split; [lia|]. split; [exact Hn|exact IH].
    + left. intros k Hk. destruct (decide (k = n)) as [->|]; [exact Hn|apply IH; lia].
  - right. exists j. split; [lia|]. split; [exact Hjs|exact Hfirst].
Qed.

Lemma registered_first_slot (s : t) (p : ptr) :
  registered s p -> exists j, first_slot s p j.
Proof.
  intros [j [Hj Hjs]].
  destruct (first_slot_below (stepper_motors s) p 12) as [Hno|Hex]; [|exact Hex].
  exfalso. exact (Hno j Hj Hjs).
Qed.

Lemma first_slot_keeps (s s' : t) (p : ptr) (j : nat) :
  stepper_motors s' = stepper_motors s -> first_slot s p j -> first_slot s' p j.
Proof. unfold first_slot. intros ->. auto. Qed.

(** Bits of the bitmap. *)
Lemma testbit_not32 (x n : Z) :
  0 <= n -> Z.testbit (not32 x) n = (n <? 32) && negb (Z.testbit x n).
Proof.
  intros Hn. unfold not32, wrap32.
  destruct (Z.ltb_spec n 32).
  - rewrite Z.mod_pow2_bits_low by lia. rewrite Z.lnot_spec by lia. reflexivity.
  - rewrite Z.mod_pow2_bits_high by lia. reflexivity.
Qed.

Lemma testbit_uint32 (x n : Z) : 0 <= x < 2 ^ 32 -> 32 <= n -> Z.testbit x n = false.
Proof.
  intros Hx Hn. rewrite <- (Z.mod_small x (2 ^ 32)) by lia.
  apply Z.mod_pow2_bits_high. lia.
Qed.

Lemma land_lor_not32 (bm : Z) (j : nat) :
  0 <= bm < 2 ^ 32 -> (j < 32)%nat ->
  Z.land bm (2 ^ Z.of_nat j) = 0 ->
  Z.land (Z.lor bm (2 ^ Z.of_nat j)) (not32 (2 ^ Z.of_nat j)) = bm.
Proof.
  intros Hbm Hj Hclear. apply Z.bits_inj'. intros n Hn.
  assert (Hbit : Z.testbit bm n && Z.testbit (2 ^ Z.of_nat j) n = false).
  { rewrite <- Z.land_spec, Hclear. apply Z.bits_0. }
  rewrite Z.land_spec, Z.lor_spec, testbit_not32 by lia.
  destruct (Z.ltb_spec n 32).
  - destruct (Z.testbit bm n), (Z.testbit (2 ^ Z.of_nat j) n); cbn in *; congruence.
  - rewrite (testbit_uint32 bm n) by lia. rewrite andb_false_r. reflexivity.
Qed.

Lemma land_not32_idem (bm x : Z) :
  Z.land (Z.land bm (not32 x)) (not32 x) = Z.land bm (not32 x).
Proof. rewrite <- Z.land_assoc, Z.land_diag. reflexivity. Qed.

Lemma bm_test_other_bit_lor (s : t) (j k : nat) :
  k <> j ->
  bm_test (set_active_motor_bm (Z.lor (active_motor_bm s) (2 ^ Z.of_nat j)) s)
          (2 ^ Z.of_nat k) = bm_test s (2 ^ Z.of_nat k).
Proof.
  intros Hne. unfold bm_test. cbn [active_motor_bm set_active_motor_bm].
  rewrite Z.land_lor_distr_l, (land_pow2_ne j k) by congruence.
  rewrite Z.lor_0_r. reflexivity.
Qed.

Lemma bm_test_other_bit_land (s : t) (j k : nat) :
  k <> j -> (k < 32)%nat ->
  bm_test (set_active_motor_bm (Z.land (active_motor_bm s) (not32 (2 ^ Z.of_nat j))) s)
          (2 ^ Z.of_nat k) = bm_test s (2 ^ Z.of_nat k).
Proof.
  intros Hne Hk. unfold bm_test. cbn [active_motor_bm set_active_motor_bm].
  replace (Z.land (Z.land (active_motor_bm s) (not32 (2 ^ Z.of_nat j))) (2 ^ Z.of_nat k))
    with (Z.land (active_motor_bm s) (2 ^ Z.of_nat k)); [reflexivity|].
  rewrite <- Z.land_assoc. f_equal.
  apply Z.bits_inj'. intros n Hn.
  rewrite Z.land_spec, testbit_not32, !Z.pow2_bits_eqb by lia.
  destruct (Z.eqb_spec (Z.of_nat k) n), (Z.eqb_spec (Z.of_nat j) n),
           (Z.ltb_spec n 32); cbn; try reflexivity; lia.
Qed.

Lemma bm_test_own_bit_lor (s : t) (j : nat) :
  bm_test (set_active_motor_bm (Z.lor (active_motor_bm s) (2 ^ Z.of_nat j)) s)
          (2 ^ Z.of_nat j) = true.
Proof.
  unfold bm_test. cbn [active_motor_bm set_active_motor_bm].
  rewrite Z.land_lor_distr_l, Z.land_diag.
  destruct (Z.eqb_spec (Z.lor (Z.land (active_motor_bm s) (2 ^ Z.of_nat j)) (2 ^ Z.of_nat j)) 0)
    as [H0|]; [|reflexivity].
  apply Z.lor_eq_0_iff in H0. destruct H0 as [_ H0].
  assert (0 < 2 ^ Z.of_nat j) by (apply Z.pow_pos_nonneg; lia). lia.
Qed.

Lemma bm_test_own_bit_land (s : t) (j : nat) :
  (j < 32)%nat ->
  bm_test (set_active_motor_bm (Z.land (active_motor_bm s) (not32 (2 ^ Z.of_nat j))) s)
          (2 ^ Z.of_nat j) = false.
Proof.
  intros Hj. unfold bm_test. cbn [active_motor_bm set_active_motor_bm].
  replace (Z.land (Z.land (active_motor_bm s) (not32 (2 ^ Z.of_nat j))) (2 ^ Z.of_nat j))
    with 0; [reflexivity|].
  symmetry. apply Z.bits_inj'. intros n Hn.
  rewrite !Z.land_spec, testbit_not32, Z.bits_0 by lia.
  destruct (Z.testbit (2 ^ Z.of_nat j) n); cbn; rewrite ?andb_false_r; reflexivity.
Qed.

Lemma reachable_bitmap (s : t) :
  reachable s -> Z.land (active_motor_bm s) (Z.ones 12) = active_motor_bm s.
Proof.
  induction 1 as [period0 mr1_0 tc|p m s Hs IH|c s ev s' Hs IH Hcall].
  - reflexivity.
  - exact IH.
  - destruct c as [p|p]; cbn [do_call] in Hcall.
    + unfold add_motor_to_active_list in Hcall.
      change (add_loop p (active_motor_bm s =? 0) 12 0 1 s)
        with (add_loop p (active_motor_bm s =? 0) 12 0 (2 ^ Z.of_nat 0) s) in Hcall.
      apply add_loop_inv in Hcall; [|reflexivity].
      destruct Hcall as [[_ ->]|[j [Hj [_ [_ [mcr [tcr ->]]]]]]]; [exact IH|].
      cbn [active_motor_bm set_TCR set_MCR set_active_motor_bm].
      rewrite Z.land_lor_distr_l, IH. f_equal.
      rewrite Z.land_ones by lia. apply Z.mod_small.
      split; [apply Z.pow_nonneg; lia|]. apply Z.pow_lt_mono_r; lia.
    + unfold remove_motor_from_active_list in Hcall.
      change (remove_loop p 12 0 1 s)
        with (remove_loop p 12 0 (2 ^ Z.of_nat 0) s) in Hcall.
      apply remove_loop_inv in Hcall; [|reflexivity].
      destruct Hcall as [[_ ->]|[x [mcr ->]]]; [exact IH|].
      cbn [active_motor_bm set_MCR set_active_motor_bm].
      rewrite <- Z.land_assoc, (Z.land_comm x), Z.land_assoc, IH. reflexivity.
Qed.

(** X12. In every ticker that the constructor, [add_stepper_motor] and
    the two active-list functions produce, [active_motor_bm] has no bit
    above the twelve slots, every active slot is a slot of the vector and
    holds a motor, and no two active slots hold the same motor: the loops
    over the active slots visit each active motor once. *)
Theorem active_slots_hold_distinct_motors (s : t) :
  reachable s ->
  0 <= active_motor_bm s < 2 ^ 12 /\
  forall j : nat, (j < 12)%nat -> bm_test s (2 ^ Z.of_nat j) = true ->
    exists p, stepper_motors s !! j = Some p /\ is_Some (motors s !! p) /\
      forall k : nat, (k < 12)%nat -> k <> j -> bm_test s (2 ^ Z.of_nat k) = true ->
        stepper_motors s !! k <> Some p.
Proof.
  intros Hs. split.
  - rewrite <- (reachable_bitmap s Hs), Z.land_ones by lia.
    apply Z.mod_pos_bound. lia.
  - destruct (reachable_well_formed s Hs) as [Hlive Hfirst].
    intros j Hj Hbit. destruct (Hfirst j Hj Hbit) as [p [Hp Hbefore]].
    exists p. split; [exact Hp|]. split.
    + apply Hlive. eapply list_elem_of_lookup_2. exact Hp.
    + intros k Hk Hne Hbitk Hkp.
      destruct (Hfirst k Hk Hbitk) as [q [Hq Hbeforek]].
      rewrite Hkp in Hq. inversion Hq; subst q.
      destruct (Nat.lt_total k j) as [Hlt|[->|Hgt]].
      * exact (Hbefore k Hlt Hkp).
      * congruence.
      * exact (Hbeforek j Hgt Hp).
Qed.

(** X13. Adding a registered motor whose slot is not active and removing
    it again gives [active_motor_bm] back. When other motors were active
    the two calls store nothing to the timer and the whole ticker is as
    before; when none was, the add arms the timer and the remove sets the
    MR1 reset and stop bits, with the timer left enabled. *)
Theorem add_then_remove_restores_bitmap (s : t) (p : ptr) (j : nat) :
  first_slot s p j ->
  0 <= active_motor_bm s < 2 ^ 32 ->
  bm_test s (2 ^ Z.of_nat j) = false ->
  exists ev1 s1 ev2 s2,
    add_motor_to_active_list p s = Some (ev1, s1) /\
    remove_motor_from_active_list p s1 = Some (ev2, s2) /\
    bm_test s1 (2 ^ Z.of_nat j) = true /\
    active_motor_bm s2 = active_motor_bm s /\
    (active_motor_bm s <> 0 -> ev1 = [] /\ ev2 = [] /\ s2 = s) /\
    (active_motor_bm s = 0 ->
     ev1 = arm_stores s /\ ev2 = stop_stores s1 /\ TCR s2 = TCR_ENABLE /\
     MCR s2 = Z.lor (Z.land (MCR s) (not32 (Z.lor MCR_MR1R MCR_MR1S)))
                    (Z.lor MCR_MR1R MCR_MR1S)).
Proof.
  intros Hfirst Hbm Hclear.
  assert (Hj : (j < 12)%nat) by (destruct Hfirst; assumption).
  assert (Hland : Z.land (active_motor_bm s) (2 ^ Z.of_nat j) = 0).
  { unfold bm_test in Hclear. apply negb_false_iff, Z.eqb_eq in Hclear. exact Hclear. }
  assert (Hback : Z.land (Z.lor (active_motor_bm s) (2 ^ Z.of_nat j))
                         (not32 (2 ^ Z.of_nat j)) = active_motor_bm s)
    by (apply land_lor_not32; [exact Hbm|lia|exact Hland]).
  destruct (added j s) as [ev1 s1] eqn:Hadd.
  assert (Hsm : stepper_motors s1 = stepper_motors s).
  { unfold added in Hadd. destruct (active_motor_bm s =? 0); inversion Hadd; reflexivity. }
  destruct (removed j s1) as [ev2 s2] eqn:Hrem.
  exists ev1, s1, ev2, s2.
  split; [rewrite (add_at_first_slot s p j Hfirst), Hadd; reflexivity|].
  split; [rewrite (remove_at_first_slot s1 p j (first_slot_keeps s s1 p j Hsm Hfirst)), Hrem;
          reflexivity|].
  unfold added in Hadd. unfold removed in Hrem.
  destruct (Z.eqb_spec (active_motor_bm s) 0) as [Hz|Hnz]; inversion Hadd; subst ev1 s1;
    clear Hadd; cbn [active_motor_bm set_TCR set_MCR set_active_motor_bm MCR] in Hrem;
    rewrite Hback in Hrem.
  - rewrite Hz in Hrem. cbn [Z.eqb] in Hrem. inversion Hrem; subst ev2 s2. clear Hrem.
    split; [apply bm_test_own_bit_lor|]. split; [cbn; congruence|].
    split; [intros Hne; contradiction|]. intros _.
    split; [reflexivity|]. split; [reflexivity|]. split; reflexivity.
  - destruct (Z.eqb_spec (active_motor_bm s) 0) as [Hz|_]; [contradiction|].
    inversion Hrem; subst ev2 s2. clear Hrem.
    split; [apply bm_test_own_bit_lor|]. split; [reflexivity|].
    split; [|intros Hz; contradiction]. intros _.
    split; [reflexivity|]. split; [reflexivity|]. destruct s; reflexivity.
Qed.

(** X14. Both calls are idempotent on a registered motor: a second add
    of the same motor stores nothing and leaves the ticker as the first
    left it, and a second remove leaves the ticker as the first left it,
    repeating the store to MCR when no motor is active. *)
Theorem active_list_calls_are_idempotent (s : t) (p : ptr) :
  registered s p ->
  (forall ev1 s1, add_motor_to_active_list p s = Some (ev1, s1) ->
     add_motor_to_active_list p s1 = Some ([], s1)) /\
  (forall ev1 s1, remove_motor_from_active_list p s = Some (ev1, s1) ->
     remove_motor_from_active_list p s1 = Some (ev1, s1)).
Proof.
  intros Hreg. destruct (registered_first_slot s p Hreg) as [j Hfirst]. split.
  - intros ev1 s1. rewrite (add_at_first_slot s p j Hfirst). intros Hadd.
    inversion Hadd as [Hadd']. clear Hadd.
    assert (Hshape : stepper_motors s1 = stepper_motors s /\
                     active_motor_bm s1 = Z.lor (active_motor_bm s) (2 ^ Z.of_nat j)).
    { unfold added in Hadd'. destruct (active_motor_bm s =? 0); inversion Hadd'; auto. }
    destruct Hshape as [Hsm Hbm1].
    rewrite (add_at_first_slot s1 p j (first_slot_keeps s s1 p j Hsm Hfirst)).
    unfold added.
    destruct (Z.eqb_spec (active_motor_bm s1) 0) as [Hz|_].
    + exfalso. rewrite Hbm1 in Hz. exact (lor_bit_nonzero _ _ Hz).
    + do 2 f_equal. rewrite Hbm1, <- Z.lor_assoc, Z.lor_diag, <- Hbm1.
      destruct s1; reflexivity.
  - intros ev1 s1. rewrite (remove_at_first_slot s p j Hfirst). intros Hrem.
    inversion Hrem as [Hrem']. clear Hrem.
    assert (Hsm : stepper_motors s1 = stepper_motors s).
    { unfold removed in Hrem'. destruct (_ =? 0); inversion Hrem'; reflexivity. }
    rewrite (remove_at_first_slot s1 p j (first_slot_keeps s s1 p j Hsm Hfirst)).
    unfold removed in Hrem' |- *.
    cbn [active_motor_bm set_active_motor_bm] in Hrem' |- *.
    destruct (Z.eqb_spec (Z.land (active_motor_bm s) (not32 (2 ^ Z.of_nat j))) 0)
      as [Hz|Hnz]; inversion Hrem'; subst ev1 s1; clear Hrem';
      cbn [active_motor_bm set_MCR set_active_motor_bm MCR]; rewrite land_not32_idem.
    + rewrite Hz. cbn [Z.eqb]. unfold stop_stores. cbn [MCR set_MCR set_active_motor_bm].
      rewrite <- Z.lor_assoc, Z.lor_diag. reflexivity.
    + destruct (Z.eqb_spec (Z.land (active_motor_bm s) (not32 (2 ^ Z.of_nat j))) 0)
        as [Hz|_]; [contradiction|].
      reflexivity.
Qed.

(** X15. A call on the active list changes the bit of one slot, the first
    slot that holds the motor, and nothing of the other slots: their bits,
    the vector, the motors, the period, MR0 and the two flags are as
    before. After an add the motor's slot is active, after a remove it is
    not. *)
Theorem active_list_calls_touch_one_slot (c : Call) (s : t) (j : nat) :
  first_slot s (call_motor c) j ->
  exists ev s',
    do_call c s = Some (ev, s') /\
    bm_test s' (2 ^ Z.of_nat j) = (match c with Add _ => true | Remove _ => false end) /\
    (forall k : nat, (k < 32)%nat -> k <> j ->
       bm_test s' (2 ^ Z.of_nat k) = bm_test s (2 ^ Z.of_nat k)) /\
    stepper_motors s' = stepper_motors s /\
    motors s' = motors s /\
    period s' = period s /\
    MR0 s' = MR0 s /\
    moves_finished s' = moves_finished s /\
    reset_step_pins s' = reset_step_pins s.
Proof.
  intros Hfirst.
  assert (Hj : (j < 12)%nat) by (destruct Hfirst; assumption).
  destruct c as [p|p]; cbn [do_call call_motor] in *.
  - rewrite (add_at_first_slot s p j Hfirst). unfold added.
    destruct (active_motor_bm s =? 0); eexists _, _; (split; [reflexivity|]);
      (split; [apply bm_test_own_bit_lor|]);
      (split; [intros k Hk Hne; apply bm_test_other_bit_lor; exact Hne|]);
      repeat split.
  - rewrite (remove_at_first_slot s p j Hfirst). unfold removed.
    destruct (_ =? 0); eexists _, _; (split; [reflexivity|]);
      (split; [apply bm_test_own_bit_land; lia|]);
      (split; [intros k Hk Hne; apply bm_test_other_bit_land; [exact Hne|exact Hk]|]);
      repeat split.
Qed.

(** X16. A thirteenth motor can be registered but never made active:
    once twelve motors are registered, [add_stepper_motor] of a further
    one appends it to the vector, and [add_motor_to_active_list] and
    [remove_motor_from_active_list] on it find it in none of the twelve
    slots they search, store nothing and leave the ticker as it is. *)
Theorem thirteenth_motor_is_never_active (s : t) (p : ptr) (m : StepperMotor) :
  (12 <= length (stepper_motors s))%nat ->
  ~ registered s p ->
  let s1 := add_stepper_motor p m s in
  stepper_motors s1 !! length (stepper_motors s) = Some p /\
  motors s1 !! p = Some m /\
  add_motor_to_active_list p s1 = Some ([], s1) /\
  remove_motor_from_active_list p s1 = Some ([], s1).
Proof.
  intros Hlen Hreg s1.
  assert (Hsm : stepper_motors s1 = stepper_motors s ++ [p]) by reflexivity.
  split.
  { rewrite Hsm, lookup_app_r by lia. rewrite Nat.sub_diag. reflexivity. }
  split; [apply lookup_insert_eq|].
  apply unregistered_noop.
  - intros [k [Hk Hks]]. apply Hreg. exists k. split; [exact Hk|].
    rewrite Hsm, lookup_app_l in Hks by lia. exact Hks.
  - rewrite Hsm, length_app. lia.
Qed.

(** ** Signalling the finished moves *)

Lemma signal_loop_once (cb : ptr -> t -> t) (fuel : nat) (motor bitmask : Z) (s : t)
      (ev : list Event) (s' : t) :
  (forall p s q, flagged (motors (cb p s)) q = true ->
     q <> p /\ flagged (motors s) q = true) ->
  signal_loop cb fuel motor bitmask s = Some (ev, s') ->
  ev = SignalMoveFinished <$> signalled ev /\
  NoDup (signalled ev) /\
  (forall p, p ∈ signalled ev ->
     flagged (motors s) p = true /\ flagged (motors s') p = false) /\
  (forall q, flagged (motors s') q = true -> flagged (motors s) q = true).
Proof.
  intros Hcb. revert motor bitmask s ev s'.
  induction fuel as [|fuel IH]; intros motor bitmask s ev s' H; [discriminate H|].
  cbn [signal_loop] in H.
  destruct (motor <? 12).
  2: { inversion H; subst. cbn. split; [reflexivity|]. split; [constructor|].
       split; [|auto]. intros p Hp. inversion Hp. }
  destruct (bm_test s bitmask); [|exact (IH _ _ _ _ _ H)].
  destruct (stepper_motors s !! Z.to_nat motor) as [p|]; [|discriminate H].
  cbn [mbind option_bind] in H.
  destruct (motors s !! p) as [m|] eqn:Hm; [|discriminate H].
  cbn [mbind option_bind] in H.
  destruct (is_move_finished m) eqn:Hfin; [|exact (IH _ _ _ _ _ H)].
  destruct (stepper_motors (cb p s) !! Z.to_nat motor) as [p1|]; [|discriminate H].
  cbn [mbind option_bind] in H.
  destruct (motors (cb p s) !! p1) as [m1|]; [|discriminate H].
  cbn [mbind option_bind] in H.
  match type of H with
  | context [signal_loop cb fuel ?a ?b (cb p s)] =>
    destruct (signal_loop cb fuel a b (cb p s)) as [[ev1 s1]|] eqn:Hrec; [|discriminate H]
  end.
  cbn [mbind option_bind fst snd] in H. inversion H; subst ev s'. clear H.
  destruct (IH _ _ _ _ _ Hrec) as [Hev [Hnd [Hin Hmono]]].
  assert (Hp : flagged (motors s) p = true) by (unfold flagged; rewrite Hm; exact Hfin).
  assert (Hgone : flagged (motors s1) p = false).
  { destruct (flagged (motors s1) p) eqn:Hf; [|reflexivity].
    exfalso. apply Hmono in Hf. apply Hcb in Hf. destruct Hf as [Hne _]. congruence. }
  cbn [signalled fmap list_fmap]. split; [f_equal; exact Hev|]. split.
  - constructor; [|exact Hnd]. intros Hp1. apply Hin in Hp1. destruct Hp1 as [Hp1 _].
    apply Hcb in Hp1. destruct Hp1 as [Hne _]. congruence.
  - split.
    + intros q Hq. apply elem_of_cons in Hq. destruct Hq as [->|Hq]; [auto|].
      destruct (Hin q Hq) as [Hq1 Hq2]. split; [|exact Hq2].
      apply Hcb in Hq1. tauto.
    + intros q Hq. apply Hmono in Hq. apply Hcb in Hq. tauto.
Qed.

(** X17. When the end-of-move hook lowers the flag of the motor it runs on
    and raises no other, [signal_moves_finished] runs the hook at most once
    on any motor, although its loop steps back after a motor that has
    stopped; it runs it only on motors whose [is_move_finished] was set on
    entry; on return the flag of each of these is lowered, no flag has
    been raised, and [moves_finished] is false. The hooks are the only
    calls it makes. *)
Theorem finished_moves_signalled_once (cb : ptr -> t -> t) (fuel : nat) (s : t)
        (ev : list Event) (s' : t) :
  (forall p s q, flagged (motors (cb p s)) q = true ->
     q <> p /\ flagged (motors s) q = true) ->
  signal_moves_finished cb fuel s = Some (ev, s') ->
  moves_finished s' = false /\
  ev = SignalMoveFinished <$> signalled ev /\
  NoDup (signalled ev) /\
  (forall p, p ∈ signalled ev ->
     flagged (motors s) p = true /\ flagged (motors s') p = false) /\
  (forall q, flagged (motors s') q = true -> flagged (motors s) q = true).
Proof.
  intros Hcb H. unfold signal_moves_finished in H.
  destruct (signal_loop cb fuel 0 1 s) as [[ev1 s1]|] eqn:Hloop; [|discriminate H].
  cbn [mbind option_bind fst snd] in H. inversion H; subst ev s'. clear H.
  split; [reflexivity|].
  exact (signal_loop_once cb fuel 0 1 s ev1 s1 Hcb Hloop).
Qed.

(** ** The loop that makes MR0 lead the counter *)

(** X19. When the loop [while (TC > MR0) MR0 += period] returns after [n]
    additions, MR0 is its value on entry plus [n] periods, modulo 2^32;
    the read of the counter that ended the loop was not above it, each of
    the [n] reads before was above the MR0 of its time, and the loop has
    made [n] stores to MR0 and changed nothing else. *)
Theorem lead_loop_adds_whole_periods (fuel : nat) (tc : nat -> Z) (k : nat) (s : t)
        (ev : list Event) (s' : t) :
  0 <= MR0 s < 2 ^ 32 ->
  lead_loop fuel tc k s = Some (ev, s') ->
  let n := length ev in
  s' = set_MR0 (wrap32 (MR0 s + Z.of_nat n * period s)) s /\
  tc (k + n)%nat <= MR0 s' /\
  (forall i : nat, (i < n)%nat -> wrap32 (MR0 s + Z.of_nat i * period s) < tc (k + i)%nat) /\
  mr0_stores ev
    = (fun i : nat => wrap32 (MR0 s + Z.of_nat (S i) * period s)) <$> seq 0 n /\
  length (mr0_stores ev) = n.
Proof.
  revert k s ev s'. induction fuel as [|fuel IH]; intros k s ev s' Hmr0 H; [discriminate H|].
  cbn [lead_loop] in H.
  destruct (Z.ltb_spec (MR0 s) (tc k)) as [Hlt|Hge].
  - match type of H with
    | context [lead_loop fuel tc (S k) ?s1] =>
      destruct (lead_loop fuel tc (S k) s1) as [[ev1 s1']|] eqn:Hrec; [|discriminate H]
    end.
    cbn [mbind option_bind fst snd] in H. inversion H; subst ev s'. clear H.
    apply IH in Hrec.
    2: { cbn [MR0 set_MR0]. unfold wrap32. apply Z.mod_pos_bound. lia. }
    cbn zeta in Hrec. cbn [MR0 set_MR0 period] in Hrec.
    destruct Hrec as [Hs' [Hend [Hbefore [Hstores Hlen]]]].
    assert (Hshift : forall i : nat,
              wrap32 (wrap32 (MR0 s + period s) + Z.of_nat i * period s)
              = wrap32 (MR0 s + Z.of_nat (S i) * period s)).
    { intros i. unfold wrap32. rewrite Zplus_mod_idemp_l. f_equal. lia. }
    cbn zeta. cbn [length mr0_stores].
    split; [rewrite Hs', Hshift; reflexivity|].
    split; [replace (k + S (length ev1))%nat with (S k + length ev1)%nat by lia; exact Hend|].
    split.
    + intros [|i] Hi.
      * rewrite Z.mul_0_l, Z.add_0_r, Nat.add_0_r. unfold wrap32.
        rewrite Z.mod_small by lia. exact Hlt.
      * rewrite <- Hshift.
        replace (k + S i)%nat with (S k + i)%nat by lia. apply Hbefore. lia.
    + split; [|cbn [length]; rewrite Hlen; reflexivity].
      cbn [seq fmap list_fmap]. f_equal.
      * unfold wrap32. f_equal. lia.
      * rewrite Hstores, <- seq_shift, <- list_fmap_compose.
        apply list_fmap_ext. intros _ i _. cbn. apply Hshift.
  - inversion H; subst ev s'. clear H. cbn zeta. cbn [length].
    rewrite Z.mul_0_l, Z.add_0_r, Nat.add_0_r.
    unfold wrap32. rewrite Z.mod_small by lia.
    split; [destruct s; reflexivity|]. split; [exact Hge|].
    split; [intros i Hi; lia|]. split; reflexivity.
Qed.

(** ** What the catch-up leaves alone *)

Lemma same_but_counter_refl (m : StepperMotor) : same_but_counter m m.
Proof. exists (fx_counter m). destruct m; reflexivity. Qed.

Lemma same_but_counter_trans (m1 m2 m3 : StepperMotor) :
  same_but_counter m1 m2 -> same_but_counter m2 m3 -> same_but_counter m1 m3.
Proof. intros [c1 ->] [c2 ->]. exists c2. reflexivity. Qed.

Lemma advance_loop_frame (n i : nat) (bm skip : Z) (s s' : t) :
  advance_loop n i bm skip s = Some s' ->
  s' = set_motors (motors s') s /\
  (forall p, motors s' !! p = None <-> motors s !! p = None) /\
  (forall p m m', motors s !! p = Some m -> motors s' !! p = Some m' ->
     same_but_counter m m').
Proof.
  revert i bm s. induction n as [|n IH]; intros i bm s H; cbn [advance_loop] in H.
  - inversion H; subst. split; [destruct s'; reflexivity|]. split; [reflexivity|].
    intros p m m' Hm Hm'. rewrite Hm in Hm'. inversion Hm'; subst.
    apply same_but_counter_refl.
  - destruct (bm_test s bm); [|exact (IH _ _ _ H)].
    destruct (stepper_motors s !! i) as [p|]; [|discriminate H].
    cbn [mbind option_bind] in H.
    destruct (motors s !! p) as [m|] eqn:Hm; [|discriminate H].
    cbn [mbind option_bind] in H.
    apply IH in H. cbn [motors set_motors] in H.
    destruct H as [Hs' [Hnone Hsome]].
    split; [rewrite Hs' at 1; reflexivity|]. split.
    + intros q. rewrite Hnone, lookup_insert_None. split; [tauto|].
      intros Hq. split; [exact Hq|]. intros ->. rewrite Hm in Hq. discriminate Hq.
    + intros q mq mq' Hq Hq'. destruct (decide (p = q)) as [->|Hne].
      * rewrite Hm in Hq. inversion Hq; subst mq.
        apply (same_but_counter_trans m (advance skip m) mq').
        -- eexists. reflexivity.
        -- apply (Hsome q); [apply lookup_insert_eq|exact Hq'].
      * apply (Hsome q); [rewrite lookup_insert_ne by exact Hne; exact Hq|exact Hq'].
Qed.

(** X20. Whenever the overrun test and the catch-up of the handler
    return, they have stored once to MR0 and, of the ticker, changed only
    MR0, [last_duration] and the motors' [fx_counter]: no motor appears or
    disappears, each keeps its [stepped], [steps_to_move], direction,
    [moving] and [is_move_finished], and the active list, the period, the
    two flags and the other timer registers are as before. Without an
    overrun the counter is read once and MR0 is the period. *)
Theorem catch_up_changes_counters_only (tc : nat -> Z) (s : t)
        (ev : list Event) (s' : t) (reads : nat) :
  catch_up tc s = Some (ev, s', reads) ->
  ev = [WriteMR0 (MR0 s')] /\
  s' = set_motors (motors s') (set_MR0 (MR0 s') (set_last_duration (last_duration s') s)) /\
  (forall p, motors s' !! p = None <-> motors s !! p = None) /\
  (forall p m m', motors s !! p = Some m -> motors s' !! p = Some m' ->
     same_but_counter m m') /\
  (tc 0%nat <= period s ->
   reads = 1%nat /\ MR0 s' = period s /\ motors s' = motors s /\
   last_duration s' = last_duration s).
Proof.
  unfold catch_up. intros H.
  destruct (Z.ltb_spec (period s) (tc 0%nat)) as [Hlt|Hge].
  - destruct (period s =? 0); [discriminate H|].
    destruct (can_skip_loop 12 0 1 s _) as [skip|]; [|discriminate H].
    cbn [mbind option_bind] in H.
    destruct (advance_loop 12 0 1 skip s) as [s1|] eqn:Hadv; [|discriminate H].
    cbn [mbind option_bind] in H.
    apply advance_loop_frame in Hadv. destruct Hadv as [Hs1 [Hnone Hsome]].
    assert (Hs' : s' = set_motors (motors s')
                         (set_MR0 (MR0 s') (set_last_duration (last_duration s') s)) /\
                  motors s' = motors s1 /\
                  ev = [WriteMR0 (MR0 s')]).
    { destruct (0 <? _); inversion H; subst ev s' reads; clear H;
        (split; [rewrite Hs1; reflexivity|]); split; reflexivity. }
    destruct Hs' as [Hs' [Hmot Hev]].
    split; [exact Hev|]. split; [exact Hs'|]. rewrite Hmot.
    split; [exact Hnone|]. split; [exact Hsome|]. intros Hle. lia.
  - inversion H; subst ev s' reads. clear H. cbn.
    split; [reflexivity|]. split; [destruct s; reflexivity|]. split; [reflexivity|].
    split.
    + intros p m m' Hm Hm'. rewrite Hm in Hm'. inversion Hm'; subst.
      apply same_but_counter_refl.
    + intros _. auto.
Qed.

(** ** One tick of every active motor *)

Lemma pulses_insert_ne (ms : gmap ptr StepperMotor) (p q : ptr) (x : StepperMotor) :
  p <> q -> pulses (<[p:=x]> ms) q = pulses ms q.
Proof. intros Hne. unfold pulses. rewrite lookup_insert_ne by exact Hne. reflexivity. Qed.

Lemma finishes_insert_ne (ms : gmap ptr StepperMotor) (p q : ptr) (x : StepperMotor) :
  p <> q -> finishes (<[p:=x]> ms) q = finishes ms q.
Proof. intros Hne. unfold finishes. rewrite lookup_insert_ne by exact Hne. reflexivity. Qed.

Lemma tick_pairs_insert (ms : gmap ptr StepperMotor) (p : ptr) (x : StepperMotor)
      (l : list ptr) :
  p ∉ l ->
  (fun q => (q, pulses (<[p:=x]> ms) q)) <$> l = (fun q => (q, pulses ms q)) <$> l.
Proof.
  intros Hp. apply list_fmap_ext. intros k q Hq. rewrite pulses_insert_ne; [reflexivity|].
  intros ->. apply Hp. eapply list_elem_of_lookup_2. exact Hq.
Qed.

Lemma existsb_insert (f : gmap ptr StepperMotor -> ptr -> bool)
      (ms : gmap ptr StepperMotor) (p : ptr) (x : StepperMotor) (l : list ptr) :
  (forall q, p <> q -> f (<[p:=x]> ms) q = f ms q) ->
  p ∉ l ->
  existsb (f (<[p:=x]> ms)) l = existsb (f ms) l.
Proof.
  intros Hf. induction l as [|q l IH]; intros Hp; [reflexivity|].
  apply not_elem_of_cons in Hp. destruct Hp as [Hne Hp].
  cbn [existsb]. rewrite Hf by exact Hne. rewrite IH by exact Hp. reflexivity.
Qed.

Lemma tick_loop_once (n i : nat) (s : t) :
  (i + n = 12)%nat ->
  NoDup (active_from s n i) ->
  (forall j : nat, (i <= j < 12)%nat -> bm_test s (2 ^ Z.of_nat j) = true ->
     exists p, stepper_motors s !! j = Some p /\ is_Some (motors s !! p)) ->
  exists s',
    tick_loop n i (2 ^ Z.of_nat i) s
      = Some (tick_events ((fun p => (p, pulses (motors s) p)) <$> active_from s n i), s') /\
    s' = set_motors (motors s')
           (set_reset_step_pins (reset_step_pins s')
              (set_moves_finished (moves_finished s') s)) /\
    (forall p, p ∈ active_from s n i -> motors s' !! p = ticked (motors s) p) /\
    (forall p, p ∉ active_from s n i -> motors s' !! p = motors s !! p) /\
    reset_step_pins s'
      = reset_step_pins s || existsb (pulses (motors s)) (active_from s n i) /\
    moves_finished s'
      = moves_finished s || existsb (finishes (motors s)) (active_from s n i).
Proof.
  revert i s. induction n as [|n IH]; intros i s Hn Hnd Hlive.
  - exists s. cbn. rewrite !orb_false_r.
    split; [reflexivity|]. split; [destruct s; reflexivity|].
    split; [intros p Hp; inversion Hp|]. auto.
  - cbn [tick_loop active_from] in *. rewrite wrap16_shiftl_bit by lia.
    destruct (bm_test s (2 ^ Z.of_nat i)) eqn:Hb.
    + destruct (Hlive i ltac:(lia) Hb) as [p [Hp [m Hm]]].
      rewrite Hp in *. cbn [mbind option_bind app] in *. rewrite Hm. cbn [mbind option_bind].
      apply NoDup_cons in Hnd. destruct Hnd as [Hnotin Hnd].
      assert (Hpulse : pulses (motors s) p = snd (fst (StepperMotor_tick m)))
        by (unfold pulses; rewrite Hm; reflexivity).
      assert (Hfin : finishes (motors s) p = snd (StepperMotor_tick m))
        by (unfold finishes; rewrite Hm; reflexivity).
      assert (Hticked : ticked (motors s) p = Some (fst (fst (StepperMotor_tick m))))
        by (unfold ticked; rewrite Hm; reflexivity).
      destruct (StepperMotor_tick m) as [[m' pulse] fin]. cbn [fst snd] in *.
      set (s3 := if fin then _ else _).
      assert (Hs3 : s3 = set_motors (<[p:=m']> (motors s))
                           (set_reset_step_pins (reset_step_pins s || pulse)
                              (set_moves_finished (moves_finished s || fin) s))).
      { unfold s3. destruct fin, pulse, s; cbn; rewrite ?orb_true_r, ?orb_false_r;
          reflexivity. }
      clearbody s3. subst s3.
      match goal with
      | |- context [tick_loop n (S i) _ ?x] => set (s3 := x)
      end.
      assert (Hact : active_from s3 n (S i) = active_from s n (S i))
        by (apply active_from_ext; reflexivity).
      destruct (IH (S i) s3 ltac:(lia)) as [s' [Heq [Hs' [Hin [Hout [Hrsp Hmf]]]]]].
      { rewrite Hact. exact Hnd. }
      { intros j Hj Hbj. change (bm_test s3 (2 ^ Z.of_nat j)) with (bm_test s (2 ^ Z.of_nat j)) in Hbj.
        destruct (Hlive j ltac:(lia) Hbj) as [q [Hq Hsome]].
        exists q. split; [exact Hq|]. unfold s3. cbn [motors set_motors].
        apply lookup_insert_is_Some. destruct (decide (p = q)); auto. }
      rewrite Heq. cbn [mbind option_bind fst snd].
      rewrite Hact in *.
      change (motors s3) with (<[p:=m']> (motors s)) in *.
      change (reset_step_pins s3) with (reset_step_pins s || pulse) in Hrsp.
      change (moves_finished s3) with (moves_finished s || fin) in Hmf.
      rewrite tick_pairs_insert in Heq |- * by exact Hnotin.
      rewrite (existsb_insert pulses) in Hrsp
        by (exact Hnotin || (intros; apply pulses_insert_ne; assumption)).
      rewrite (existsb_insert finishes) in Hmf
        by (exact Hnotin || (intros; apply finishes_insert_ne; assumption)).
      exists s'. cbn [fmap list_fmap tick_events existsb]. rewrite Hpulse, Hfin.
      split; [reflexivity|]. split; [rewrite Hs' at 1; reflexivity|]. split.
      { intros q Hq. apply elem_of_cons in Hq. destruct Hq as [->|Hq].
        - rewrite Hout by exact Hnotin. rewrite lookup_insert_eq, Hticked. reflexivity.
        - rewrite Hin by exact Hq. unfold ticked. rewrite lookup_insert_ne; [reflexivity|].
          intros ->. contradiction. }
      split.
      { intros q Hq. apply not_elem_of_cons in Hq. destruct Hq as [Hne Hq].
        rewrite Hout by exact Hq. apply lookup_insert_ne. congruence. }
      split; [rewrite Hrsp, orb_assoc; reflexivity|].
      rewrite Hmf, orb_assoc. reflexivity.
    + cbn [app] in *. apply IH; [lia|exact Hnd|]. intros j Hj. apply Hlive. lia.
Qed.

(** X21. The step loop of the handler, on a ticker whose active slots hold
    distinct motors, ticks every active motor once, in slot order, and
    touches no other motor; it raises [reset_step_pins] exactly when one of
    these ticks asserts a step pin and [moves_finished] exactly when one
    of them finishes a move, never lowers either, and changes nothing else
    of the ticker. *)
Theorem step_loop_ticks_each_active_motor_once (s : t) :
  slots_live s ->
  NoDup (active_ptrs s) ->
  exists s',
    tick_loop 12 0 1 s
      = Some (tick_events ((fun p => (p, pulses (motors s) p)) <$> active_ptrs s), s') /\
    s' = set_motors (motors s')
           (set_reset_step_pins (reset_step_pins s')
              (set_moves_finished (moves_finished s') s)) /\
    (forall p, p ∈ active_ptrs s -> motors s' !! p = ticked (motors s) p) /\
    (forall p, p ∉ active_ptrs s -> motors s' !! p = motors s !! p) /\
    reset_step_pins s' = reset_step_pins s || existsb (pulses (motors s)) (active_ptrs s) /\
    moves_finished s' = moves_finished s || existsb (finishes (motors s)) (active_ptrs s).
Proof.
  intros Hlive Hnd.
  apply (tick_loop_once 12 0 s eq_refl Hnd).
  intros j Hj. apply Hlive. lia.
Qed.

Lemma existsb_all_false {A : Type} (f : A -> bool) (l : list A) :
  (forall x, x ∈ l -> f x = false) -> existsb f l = false.
Proof.
  induction l as [|x l IH]; intros H; [reflexivity|].
  cbn [existsb]. rewrite (H x) by (apply elem_of_cons; auto).
  apply IH. intros y Hy. apply H. apply elem_of_cons. auto.
Qed.

Lemma tick_events_no_pulse (f : ptr -> bool) (l : list ptr) :
  (forall p, p ∈ l -> f p = false) ->
  tick_events ((fun p => (p, f p)) <$> l) = Tick <$> l.
Proof.
  induction l as [|x l IH]; intros H; [reflexivity|].
  cbn [fmap list_fmap tick_events]. rewrite (H x) by (apply elem_of_cons; auto).
  cbn [app]. f_equal. apply IH. intros y Hy. apply H. apply elem_of_cons. auto.
Qed.

Lemma set_reset_step_pins_idle (s : t) (b : bool) (v : Z) :
  reset_step_pins s = false ->
  set_reset_step_pins false (set_moves_finished b (set_IR v s))
  = set_moves_finished b (set_IR v s).
Proof. intros H. destruct s; cbn in *; subst; reflexivity. Qed.

(** X22. An MR0 interrupt in which no active motor asserts its step pin
    ticks every active motor once, sets MR0 to the period and returns: it
    does not enable the MR1 interrupt, and it runs no end-of-move hook and
    no catch-up, whatever the fuel, even when one of the ticks, or an
    earlier one, has raised [moves_finished]; the flag stays raised for a
    later interrupt. *)
Theorem tick_without_pulse_only_sets_mr0
    (cb : ptr -> t -> t) (fuel : nat) (tc : nat -> Z) (s : t) :
  Z.land (IR s) (Z.shiftl 1 1) = 0 ->
  Z.land (IR s) (Z.shiftl 1 0) <> 0 ->
  slots_live s ->
  NoDup (active_ptrs s) ->
  reset_step_pins s = false ->
  (forall p, p ∈ active_ptrs s -> pulses (motors s) p = false) ->
  exists s',
    TIMER0_IRQHandler cb fuel tc s
      = Some (WriteIR (Z.shiftl 1 0) :: (Tick <$> active_ptrs s) ++ [WriteMR0 (period s)], s') /\
    s' = set_motors (motors s')
           (set_MR0 (period s)
              (set_moves_finished (moves_finished s')
                 (set_IR (Z.land (IR s) (not32 (Z.shiftl 1 0))) s))) /\
    moves_finished s' = moves_finished s || existsb (finishes (motors s)) (active_ptrs s) /\
    (forall p, p ∈ active_ptrs s -> motors s' !! p = ticked (motors s) p) /\
    (forall p, p ∉ active_ptrs s -> motors s' !! p = motors s !! p).
Proof.
  intros Hir1 Hir0 Hlive Hnd Hrsp Hquiet.
  unfold TIMER0_IRQHandler, irq_mr1. rewrite Hir1. cbn [Z.eqb negb mbind option_bind snd fst].
  unfold irq_mr0.
  destruct (Z.eqb_spec (Z.land (IR s) (Z.shiftl 1 0)) 0) as [|_]; [contradiction|].
  cbn [negb].
  set (s0 := set_IR _ s).
  assert (Hact : active_ptrs s0 = active_ptrs s) by (apply active_from_ext; reflexivity).
  destruct (tick_loop_once 12 0 s0 eq_refl) as [s1 [Heq [Hs1 [Hin [Hout [Hrsp1 Hmf1]]]]]].
  { change (active_from s0 12 0) with (active_ptrs s0). rewrite Hact. exact Hnd. }
  { intros j Hj Hb. apply (Hlive j); [lia|exact Hb]. }
  change (active_from s0 12 0) with (active_ptrs s0) in *.
  rewrite Hact in *. change (motors s0) with (motors s) in *.
  change (reset_step_pins s0) with (reset_step_pins s) in Hrsp1.
  change (moves_finished s0) with (moves_finished s) in Hmf1.
  change (2 ^ Z.of_nat 0) with 1 in Heq.
  rewrite Heq. cbn [mbind option_bind].
  rewrite (existsb_all_false _ _ Hquiet), Hrsp in Hrsp1. cbn [orb] in Hrsp1.
  rewrite Hrsp1, (tick_events_no_pulse _ _ Hquiet).
  assert (Hper : period s1 = period s) by (rewrite Hs1; reflexivity).
  rewrite Hper. cbn [app fst snd].
  eexists. split; [reflexivity|]. cbn [motors moves_finished set_MR0].
  split; [|split; [exact Hmf1|split; [exact Hin|exact Hout]]].
  rewrite Hs1 at 1. rewrite Hrsp1. unfold s0.
  rewrite (set_reset_step_pins_idle s _ _ Hrsp). reflexivity.
Qed.

Lemma set_moves_finished_idle (s : t) (v : Z) :
  moves_finished s = false ->
  set_moves_finished false (set_IR v s) = set_IR v s.
Proof. intros H. destruct s; cbn in *; subst; reflexivity. Qed.

Lemma existsb_some_true {A : Type} (f : A -> bool) (l : list A) (x : A) :
  x ∈ l -> f x = true -> existsb f l = true.
Proof.
  intros Hx Hf. induction l as [|y l IH]; [inversion Hx|].
  cbn [existsb]. apply elem_of_cons in Hx. destruct Hx as [<-|Hx].
  - rewrite Hf. reflexivity.
  - rewrite (IH Hx). apply orb_true_r.
Qed.

(** X28. An MR0 interrupt in which an active motor asserts its step pin
    and no move finishes ticks every active motor once, enables the MR1
    interrupt that will lower the pins, lowers [reset_step_pins] and
    returns: it stores nothing to MR0, and it runs no end-of-move hook and
    no catch-up, whatever the fuel. *)
Theorem tick_with_pulse_enables_mr1
    (cb : ptr -> t -> t) (fuel : nat) (tc : nat -> Z) (s : t) :
  Z.land (IR s) (Z.shiftl 1 1) = 0 ->
  Z.land (IR s) (Z.shiftl 1 0) <> 0 ->
  slots_live s ->
  NoDup (active_ptrs s) ->
  moves_finished s = false ->
  (exists p, p ∈ active_ptrs s /\ pulses (motors s) p = true) ->
  (forall p, p ∈ active_ptrs s -> finishes (motors s) p = false) ->
  exists s',
    TIMER0_IRQHandler cb fuel tc s
      = Some (WriteIR (Z.shiftl 1 0)
                :: tick_events ((fun p => (p, pulses (motors s) p)) <$> active_ptrs s)
                ++ [WriteMCR (Z.lor (MCR s) MCR_MR1I)], s') /\
    s' = set_motors (motors s')
           (set_reset_step_pins false
              (set_MCR (Z.lor (MCR s) MCR_MR1I)
                 (set_IR (Z.land (IR s) (not32 (Z.shiftl 1 0))) s))) /\
    (forall p, p ∈ active_ptrs s -> motors s' !! p = ticked (motors s) p) /\
    (forall p, p ∉ active_ptrs s -> motors s' !! p = motors s !! p).
Proof.
  intros Hir1 Hir0 Hlive Hnd Hmf [q [Hq Hpulse]] Hnofin.
  unfold TIMER0_IRQHandler, irq_mr1. rewrite Hir1. cbn [Z.eqb negb mbind option_bind snd fst].
  unfold irq_mr0.
  destruct (Z.eqb_spec (Z.land (IR s) (Z.shiftl 1 0)) 0) as [|_]; [contradiction|].
  cbn [negb].
  set (s0 := set_IR _ s).
  assert (Hact : active_ptrs s0 = active_ptrs s) by (apply active_from_ext; reflexivity).
  destruct (tick_loop_once 12 0 s0 eq_refl) as [s1 [Heq [Hs1 [Hin [Hout [Hrsp1 Hmf1]]]]]].
  { change (active_from s0 12 0) with (active_ptrs s0). rewrite Hact. exact Hnd. }
  { intros j Hj Hb. apply (Hlive j); [lia|exact Hb]. }
  change (active_from s0 12 0) with (active_ptrs s0) in *.
  rewrite Hact in *. change (motors s0) with (motors s) in *.
  change (reset_step_pins s0) with (reset_step_pins s) in Hrsp1.
  change (moves_finished s0) with (moves_finished s) in Hmf1.
  change (2 ^ Z.of_nat 0) with 1 in Heq.
  rewrite Heq. cbn [mbind option_bind].
  rewrite (existsb_some_true _ _ q Hq Hpulse), orb_true_r in Hrsp1.
  rewrite (existsb_all_false _ _ Hnofin), Hmf in Hmf1. cbn [orb] in Hmf1.
  assert (Hmcr : MCR s1 = MCR s) by (rewrite Hs1; reflexivity).
  rewrite Hrsp1. cbn [moves_finished set_reset_step_pins set_MCR].
  rewrite Hmf1, Hmcr. cbn [fst snd].
  eexists. split; [reflexivity|]. cbn [motors set_reset_step_pins set_MCR].
  split; [|split; [exact Hin|exact Hout]].
  rewrite Hs1 at 1. rewrite Hmf1. unfold s0.
  rewrite (set_moves_finished_idle s _ Hmf). reflexivity.
Qed.

(** X23. An interrupt with only the MR1 flag pending acknowledges it,
    clears the MR1 interrupt enable and calls [unstep()] on every active
    motor in slot order; it ticks no motor, runs no hook, and leaves the
    motors, the active list, MR0 and the two flags as they are. *)
Theorem pulse_reset_interrupt_only_unsteps
    (cb : ptr -> t -> t) (fuel : nat) (tc : nat -> Z) (s : t) :
  Z.land (IR s) (Z.shiftl 1 1) <> 0 ->
  Z.land (IR s) (Z.shiftl 1 0) = 0 ->
  slots_live s ->
  TIMER0_IRQHandler cb fuel tc s = Some (mr1_events s, after_mr1 s) /\
  motors (after_mr1 s) = motors s /\
  active_motor_bm (after_mr1 s) = active_motor_bm s /\
  MR0 (after_mr1 s) = MR0 s /\
  moves_finished (after_mr1 s) = moves_finished s /\
  reset_step_pins (after_mr1 s) = reset_step_pins s.
Proof.
  intros Hir1 Hir0 Hlive. split; [|repeat split].
  unfold TIMER0_IRQHandler. rewrite (irq_mr1_pending s Hir1 Hlive).
  cbn [mbind option_bind fst snd]. unfold irq_mr0.
  replace (Z.land (IR (after_mr1 s)) (Z.shiftl 1 0)) with 0.
  - cbn [Z.eqb negb mbind option_bind fst snd]. rewrite app_nil_r. reflexivity.
  - cbn [IR after_mr1 set_MCR set_IR].
    rewrite <- Z.land_assoc, (Z.land_comm (not32 _)), Z.land_assoc, Hir0. reflexivity.
Qed.

(** ** MR0 after a finished move *)

Lemma mr0_stores_app (l1 l2 : list Event) :
  mr0_stores (l1 ++ l2) = mr0_stores l1 ++ mr0_stores l2.
Proof.
  induction l1 as [|e l1 IH]; [reflexivity|].
  destruct e; cbn [app mr0_stores]; rewrite IH; reflexivity.
Qed.

(** The hooks make no store to MR0 of their own in the events, and a field
    that the hook keeps is kept by the loop that runs the hooks. *)
Lemma signal_loop_keeps {A : Type} (f : t -> A) (cb : ptr -> t -> t) :
  (forall p s, f (cb p s) = f s) ->
  forall (fuel : nat) (motor bitmask : Z) (s : t) (r : list Event * t),
    signal_loop cb fuel motor bitmask s = Some r ->
    f (snd r) = f s /\ mr0_stores (fst r) = [].
Proof.
  intros Hcb. induction fuel as [|fuel IH]; intros motor bitmask s r H; [discriminate H|].
  cbn [signal_loop] in H.
  destruct (motor <? 12).
  2: { inversion H; subst r. split; reflexivity. }
  destruct (bm_test s bitmask); [|exact (IH _ _ _ _ H)].
  destruct (stepper_motors s !! Z.to_nat motor) as [p|]; [|discriminate H].
  cbn [mbind option_bind] in H.
  destruct (motors s !! p) as [m|]; [|discriminate H].
  cbn [mbind option_bind] in H.
  destruct (is_move_finished m); [|exact (IH _ _ _ _ H)].
  destruct (stepper_motors (cb p s) !! Z.to_nat motor) as [p1|]; [|discriminate H].
  cbn [mbind option_bind] in H.
  destruct (motors (cb p s) !! p1) as [m1|]; [|discriminate H].
  cbn [mbind option_bind] in H.
  match type of H with
  | context [signal_loop cb fuel ?a ?b (cb p s)] =>
    destruct (signal_loop cb fuel a b (cb p s)) as [r1|] eqn:Hrec; [|discriminate H]
  end.
  cbn [mbind option_bind] in H. inversion H; subst r. clear H.
  destruct (IH _ _ _ _ Hrec) as [Hf Hst]. cbn [fst snd mr0_stores].
  split; [rewrite Hf; apply Hcb | exact Hst].
Qed.

(** The overrun test and the catch-up where the 32-bit arithmetic does
    not wrap: MR0 is [base] periods, with [base] one more than
    [ticks_to_skip] after an overrun and one otherwise. *)
Lemma catch_up_exact (tc : nat -> Z) (s : t) (ev : list Event) (s' : t) (reads : nat) :
  0 < period s ->
  0 <= last_duration s ->
  0 <= tc 2%nat ->
  tc 2%nat + last_duration s + period s < 2 ^ 32 ->
  catch_up tc s = Some (ev, s', reads) ->
  let overrun := period s <? tc 0%nat in
  let base := if overrun then ticks_to_skip (tc 2%nat) s + 1 else 1 in
  reads = (if overrun then 4%nat else 1%nat) /\
  ev = [WriteMR0 (base * period s)] /\
  MR0 s' = base * period s /\
  period s' = period s /\
  1 <= base.
Proof.
  intros Hper Hld Htc Hfit H. cbn zeta. unfold catch_up in H.
  destruct (period s <? tc 0%nat).
  - destruct (Z.eqb_spec (period s) 0) as [|_]; [lia|].
    destruct (can_skip_loop 12 0 1 s _) as [skip|]; [|discriminate H].
    cbn [mbind option_bind] in H.
    destruct (advance_loop 12 0 1 skip s) as [s1|] eqn:Hadv; [|discriminate H].
    cbn [mbind option_bind] in H.
    apply advance_loop_frame in Hadv. destruct Hadv as [Hs1 _].
    assert (Hper1 : period s1 = period s) by (rewrite Hs1; reflexivity).
    pose proof (ticks_to_skip_nonneg (tc 2%nat) s Hper) as Htts.
    assert (Hexact : wrap32 ((ticks_to_skip (tc 2%nat) s + 1) * period s)
                     = (ticks_to_skip (tc 2%nat) s + 1) * period s).
    { unfold wrap32. apply Z.mod_small.
      assert (Hle : period s * ticks_to_skip (tc 2%nat) s
                    <= tc 2%nat + last_duration s).
      { unfold ticks_to_skip, wrap32. rewrite Z.mod_small by lia.
        apply Z.mul_div_le. exact Hper. }
      nia. }
    rewrite Hexact in H.
    destruct (0 <? _); inversion H; subst ev s' reads; cbn [MR0 period set_MR0 set_last_duration];
      (split; [reflexivity|]); (split; [reflexivity|]); (split; [reflexivity|]);
      (split; [exact Hper1 | lia]).
  - inversion H; subst ev s' reads. cbn [MR0 period set_MR0].
    rewrite Z.mul_1_l. repeat split. lia.
Qed.

(** The loop on MR0 where the additions do not wrap. *)
Lemma lead_loop_exact (fuel : nat) (tc : nat -> Z) (k : nat) (s : t)
      (ev : list Event) (s' : t) :
  (forall i : nat, tc i + period s < 2 ^ 32) ->
  0 <= MR0 s ->
  0 <= period s ->
  lead_loop fuel tc k s = Some (ev, s') ->
  exists n : nat,
    mr0_stores ev = (fun i : nat => MR0 s + Z.of_nat (S i) * period s) <$> seq 0 n /\
    MR0 s' = MR0 s + Z.of_nat n * period s /\
    period s' = period s /\
    tc (k + n)%nat <= MR0 s' /\
    (forall i : nat, (i < n)%nat -> MR0 s + Z.of_nat i * period s < tc (k + i)%nat).
Proof.
  intros Hfit. revert k s ev s' Hfit.
  induction fuel as [|fuel IH]; intros k s ev s' Hfit Hmr0 Hper H; [discriminate H|].
  cbn [lead_loop] in H.
  destruct (Z.ltb_spec (MR0 s) (tc k)) as [Hlt|Hge].
  - assert (Hexact : wrap32 (MR0 s + period s) = MR0 s + period s).
    { unfold wrap32. apply Z.mod_small. pose proof (Hfit k). lia. }
    rewrite Hexact in H.
    match type of H with
    | context [lead_loop fuel tc (S k) ?s1] =>
      destruct (lead_loop fuel tc (S k) s1) as [[ev1 s1']|] eqn:Hrec; [|discriminate H]
    end.
    cbn [mbind option_bind fst snd] in H. inversion H; subst ev s'. clear H.
    apply IH in Hrec; cbn [MR0 set_MR0 period]; [|exact Hfit|lia|exact Hper].
    cbn [MR0 set_MR0 period] in Hrec.
    destruct Hrec as [n [Hstores [Hend [Hper' [Hlast Hbefore]]]]].
    exists (S n). cbn [mr0_stores].
    split; [|split; [|split; [exact Hper'|split]]].
    + cbn [seq fmap list_fmap]. f_equal; [lia|].
      rewrite Hstores, <- seq_shift, <- list_fmap_compose.
      apply list_fmap_ext. intros _ i _. cbn [compose]. lia.
    + rewrite Hend. lia.
    + replace (k + S n)%nat with (S k + n)%nat by lia. exact Hlast.
    + intros [|i] Hi.
      * rewrite Z.mul_0_l, Z.add_0_r, Nat.add_0_r. exact Hlt.
      * replace (k + S i)%nat with (S k + i)%nat by lia.
        specialize (Hbefore i ltac:(lia)). lia.
  - inversion H; subst ev s'. clear H. exists 0%nat.
    rewrite Z.mul_0_l, Z.add_0_r, Nat.add_0_r.
    split; [reflexivity|]. split; [reflexivity|]. split; [reflexivity|].
    split; [exact Hge|]. intros i Hi. lia.
Qed.

(** X25. The part of the handler that follows a finished move (MR0
    parked, hooks run, overrun test and catch-up, then the loop on MR0),
    where the hooks keep the period and [last_duration] and no read of the
    counter is so late that the 32-bit arithmetic wraps. With [base] one
    more than [ticks_to_skip] after an overrun and one otherwise, and [n]
    the number of additions of the loop: the stores to MR0 are the parking
    value and then [base], [base + 1], ..., [base + n] periods; MR0 is
    left at [(base + n)] periods, a whole number of periods that is at
    least one; the last read of the counter, the one that ended the loop,
    was not above it; and each of the [n] reads of the loop before was
    above the MR0 of its time. *)
Theorem finished_move_path_leaves_mr0_on_grid
    (cb : ptr -> t -> t) (fuel : nat) (tc : nat -> Z) (s : t)
    (ev : list Event) (s' : t) :
  (forall p s, period (cb p s) = period s) ->
  (forall p s, last_duration (cb p s) = last_duration s) ->
  0 < period s ->
  0 <= last_duration s ->
  (forall i : nat, 0 <= tc i /\ tc i + last_duration s + period s < 2 ^ 32) ->
  irq_moves_finished cb fuel tc s = Some (ev, s') ->
  let overrun := period s <? tc 0%nat in
  let reads := if overrun then 4%nat else 1%nat in
  let base := if overrun then ticks_to_skip (tc 2%nat) s + 1 else 1 in
  exists n : nat,
    mr0_stores ev
    = wrap32 (Z.lnot 0)
        :: ((fun i : nat => (base + Z.of_nat i) * period s) <$> seq 0 (S n)) /\
    MR0 s' = (base + Z.of_nat n) * period s /\
    1 <= base /\
    period s' = period s /\
    tc (reads + n)%nat <= MR0 s' /\
    (forall i : nat, (i < n)%nat -> (base + Z.of_nat i) * period s < tc (reads + i)%nat).
Proof.
  intros Hcbp Hcbl Hper Hld Htc H. cbn zeta.
  unfold irq_moves_finished, signal_moves_finished in H. cbn zeta in H.
  destruct (signal_loop cb fuel 0 1 _) as [r1|] eqn:Hsig; [|discriminate H].
  cbn [mbind option_bind fst snd] in H.
  destruct (signal_loop_keeps period cb Hcbp _ _ _ _ _ Hsig) as [Hp1 Hst1].
  destruct (signal_loop_keeps last_duration cb Hcbl _ _ _ _ _ Hsig) as [Hl1 _].
  cbn [period last_duration set_MR0] in Hp1, Hl1.
  set (s1 := set_moves_finished false (snd r1)) in *.
  assert (Hp1' : period s1 = period s) by exact Hp1.
  assert (Hl1' : last_duration s1 = last_duration s) by exact Hl1.
  assert (Htts : ticks_to_skip (tc 2%nat) s1 = ticks_to_skip (tc 2%nat) s).
  { unfold ticks_to_skip. rewrite Hp1', Hl1'. reflexivity. }
  destruct (catch_up tc s1) as [[[ev2 s2] reads]|] eqn:Hcu; [|discriminate H].
  cbn [mbind option_bind] in H.
  destruct (lead_loop fuel tc reads s2) as [[ev3 s3]|] eqn:Hll; [|discriminate H].
  cbn [mbind option_bind fst snd] in H. inversion H; subst ev s'. clear H.
  apply catch_up_exact in Hcu;
    [|rewrite Hp1'; exact Hper | rewrite Hl1'; exact Hld | apply Htc
     |rewrite Hp1', Hl1'; apply Htc].
  cbn zeta in Hcu. rewrite Hp1', Htts in Hcu.
  destruct Hcu as [Hreads [Hev2 [Hmr2 [Hper2 Hbase]]]].
  set (base := if period s <? tc 0%nat then ticks_to_skip (tc 2%nat) s + 1 else 1) in *.
  apply lead_loop_exact in Hll;
    [|intros i; rewrite Hper2; pose proof (Htc i); lia
     |rewrite Hmr2; nia
     |rewrite Hper2; lia].
  destruct Hll as [n [Hst3 [Hmr3 [Hper3 [Hlast Hbefore]]]]].
  rewrite Hmr2, Hper2 in Hst3, Hmr3, Hbefore. rewrite Hper2 in Hper3.
  exists n. subst reads.
  split; [|split; [rewrite Hmr3; lia|split; [exact Hbase|split; [exact Hper3|split]]]].
  - cbn [mr0_stores]. f_equal.
    rewrite !mr0_stores_app, Hst1, Hev2, Hst3. cbn [mr0_stores app seq fmap list_fmap].
    f_equal; [f_equal; lia|].
    rewrite <- seq_shift, <- list_fmap_compose.
    apply list_fmap_ext. intros _ i _. cbn [compose]. lia.
  - exact Hlast.
  - intros i Hi. specialize (Hbefore i Hi). lia.
Qed.

(** ** Registering and activating *)

(** X26. While fewer than twelve motors are registered, a motor that
    [add_stepper_motor] has just registered can be made active:
    [add_motor_to_active_list] returns, without reading the vector past
    its end, with the bit of the motor's first slot set, and the motor
    object is the one that was registered. *)
Theorem registered_motor_can_be_activated (s : t) (p : ptr) (m : StepperMotor) :
  (length (stepper_motors s) < 12)%nat ->
  let s1 := add_stepper_motor p m s in
  exists j ev s2,
    first_slot s1 p j /\
    add_motor_to_active_list p s1 = Some (ev, s2) /\
    bm_test s2 (2 ^ Z.of_nat j) = true /\
    stepper_motors s2 = stepper_motors s ++ [p] /\
    motors s2 !! p = Some m.
Proof.
  intros Hlen s1.
  assert (Hreg : registered s1 p).
  { exists (length (stepper_motors s)). split; [exact Hlen|].
    unfold s1. cbn [stepper_motors add_stepper_motor set_motors set_stepper_motors].
    rewrite lookup_app_r by lia. rewrite Nat.sub_diag. reflexivity. }
  destruct (registered_first_slot s1 p Hreg) as [j Hfirst].
  exists j, (fst (added j s1)), (snd (added j s1)).
  split; [exact Hfirst|].
  split; [rewrite (add_at_first_slot s1 p j Hfirst); destruct (added j s1); reflexivity|].
  unfold added. destruct (active_motor_bm s1 =? 0); cbn [snd].
  - split; [apply (bm_test_own_bit_lor s1 j)|]. split; [reflexivity|].
    apply lookup_insert_eq.
  - split; [apply (bm_test_own_bit_lor s1 j)|]. split; [reflexivity|].
    apply lookup_insert_eq.
Qed.

(** ** The two step loops *)

Lemma tick_each_eq (n i : nat) (s : t) :
  (i + n = 12)%nat ->
  tick_each n i (2 ^ Z.of_nat i) s = tick_loop n i (2 ^ Z.of_nat i) s.
Proof.
  revert i s. induction n as [|n IH]; intros i s Hn; [reflexivity|].
  cbn [tick_each tick_loop].
  rewrite wrap32_shiftl_bit, wrap16_shiftl_bit by lia.
  destruct (bm_test s (2 ^ Z.of_nat i)); [|apply IH; lia].
  destruct (stepper_motors s !! i) as [p|]; [|reflexivity]. cbn [mbind option_bind].
  destruct (motors s !! p) as [m|]; [|reflexivity]. cbn [mbind option_bind].
  destruct (StepperMotor_tick m) as [[m' pulse] fin].
  rewrite IH by lia. reflexivity.
Qed.

(** X27. Apart from the stores to [_isr_context] that bracket it,
    [StepTicker::tick] and the step loop that the interrupt handler spells
    out instead of calling it do the same on every ticker: the same ticks
    in the same order and the same ticker afterwards, or the same
    undefined access. The 32-bit mask of the one and the 16-bit mask of
    the other agree over the twelve slots. *)
Theorem tick_is_the_handler_step_loop (s : t) : tick s = tick_loop 12 0 1 s.
Proof. exact (tick_each_eq 12 0 s eq_refl). Qed.

(** ** The properties on examples *)

Lemma two_slots_live (s : t) :
  active_motor_bm s = 3 ->
  (exists l, stepper_motors s = 1%N :: 2%N :: l) ->
  is_Some (motors s !! 1%N) -> is_Some (motors s !! 2%N) ->
  slots_live s /\ NoDup (active_ptrs s) /\ active_ptrs s = [1%N; 2%N].
Proof.
  intros Hbm [l Hsm] H1 H2.
  assert (Hact : active_ptrs s = [1%N; 2%N]).
  { unfold active_ptrs, active_from, bm_test. rewrite Hbm, Hsm. reflexivity. }
  split; [|split; [|exact Hact]].
  - intros j Hj Hb. unfold bm_test in Hb. rewrite Hbm in Hb. rewrite Hsm.
    destruct j as [|[|j]].
    + exists 1%N. split; [reflexivity|exact H1].
    + exists 2%N. split; [reflexivity|exact H2].
    + exfalso. do 10 (destruct j as [|j]; [discriminate Hb|]). lia.
  - rewrite Hact.
    repeat constructor; intros Hin;
      repeat (apply elem_of_cons in Hin; destruct Hin as [Hin|Hin]);
      try discriminate Hin; inversion Hin.
Qed.

Lemma reachable_booted : reachable booted.
Proof. unfold booted. repeat apply reach_register. apply reach_new. Qed.

Lemma run_reachable (calls : list Call) (s : t) (r : list Event * t) :
  reachable s -> run calls s = Some r -> reachable (snd r).
Proof.
  revert s r. induction calls as [|c calls IH]; intros s r Hs H; cbn [run] in H.
  - inversion H; subst. exact Hs.
  - destruct (do_call c s) as [[ev1 s1]|] eqn:Hc; [|discriminate H].
    cbn [mbind option_bind fst snd] in H.
    destruct (run calls s1) as [r'|] eqn:Hr'; [|discriminate H].
    cbn [mbind option_bind] in H. inversion H; subst. cbn [snd].
    apply (IH s1 r'); [|exact Hr']. exact (reach_call c s ev1 s1 Hs Hc).
Qed.

Lemma reachable_two_active : reachable two_active.
Proof.
  unfold two_active.
  destruct (run [Add 1%N; Add 2%N] booted) as [r|] eqn:H.
  - exact (run_reachable _ _ _ reachable_booted H).
  - exact reachable_booted.
Qed.

Lemma first_slot_booted_1 : first_slot booted 1%N 0.
Proof. split; [lia|]. split; [reflexivity|]. intros k Hk. lia. Qed.

Lemma first_slot_booted_2 : first_slot booted 2%N 1.
Proof.
  split; [lia|]. split; [reflexivity|]. intros k Hk.
  destruct k as [|k]; [discriminate|lia].
Qed.

Lemma active_slots_hold_distinct_motors_witness :
  reachable two_active /\
  active_motor_bm two_active = 3 /\
  0 <= active_motor_bm two_active < 2 ^ 12 /\
  forall j : nat, (j < 12)%nat -> bm_test two_active (2 ^ Z.of_nat j) = true ->
    exists p, stepper_motors two_active !! j = Some p /\
      is_Some (motors two_active !! p) /\
      forall k : nat, (k < 12)%nat -> k <> j ->
        bm_test two_active (2 ^ Z.of_nat k) = true ->
        stepper_motors two_active !! k <> Some p.
Proof.
  split; [exact reachable_two_active|]. split; [reflexivity|].
  exact (active_slots_hold_distinct_motors two_active reachable_two_active).
Defined.

Lemma add_then_remove_restores_bitmap_witness :
  first_slot booted 1%N 0 /\
  0 <= active_motor_bm booted < 2 ^ 32 /\
  bm_test booted (2 ^ Z.of_nat 0) = false /\
  exists ev1 s1 ev2 s2,
    add_motor_to_active_list 1%N booted = Some (ev1, s1) /\
    remove_motor_from_active_list 1%N s1 = Some (ev2, s2) /\
    bm_test s1 (2 ^ Z.of_nat 0) = true /\
    active_motor_bm s2 = active_motor_bm booted /\
    ev1 = [WriteMCR 3; WriteTCR 3; WriteTCR 1] /\ ev2 = stop_stores s1.
Proof.
  assert (H2 : 0 <= active_motor_bm booted < 2 ^ 32) by (cbn; lia).
  split; [exact first_slot_booted_1|]. split; [exact H2|]. split; [reflexivity|].
  destruct (add_then_remove_restores_bitmap booted 1%N 0 first_slot_booted_1 H2 eq_refl)
    as [ev1 [s1 [ev2 [s2 [Hadd [Hrem [Hset [Hbm [_ Hidle]]]]]]]]].
  destruct (Hidle eq_refl) as [Hev1 [Hev2 _]].
  exists ev1, s1, ev2, s2. split; [exact Hadd|]. split; [exact Hrem|].
  split; [exact Hset|]. split; [exact Hbm|].
  split; [rewrite Hev1; reflexivity|exact Hev2].
Defined.

Lemma active_list_calls_are_idempotent_witness :
  registered booted 2%N /\
  exists s1,
    add_motor_to_active_list 2%N booted
      = Some ([WriteMCR 3; WriteTCR 3; WriteTCR 1], s1) /\
    add_motor_to_active_list 2%N s1 = Some ([], s1).
Proof.
  assert (H : registered booted 2%N) by (exists 1%nat; split; [lia|reflexivity]).
  split; [exact H|].
  eexists. split; [reflexivity|].
  apply (proj1 (active_list_calls_are_idempotent booted 2%N H)
           [WriteMCR 3; WriteTCR 3; WriteTCR 1]).
  reflexivity.
Defined.

Lemma active_list_calls_touch_one_slot_witness :
  first_slot booted (call_motor (Add 2%N)) 1 /\
  exists ev s',
    do_call (Add 2%N) booted = Some (ev, s') /\
    bm_test s' (2 ^ Z.of_nat 1) = true /\
    bm_test s' (2 ^ Z.of_nat 0) = bm_test booted (2 ^ Z.of_nat 0) /\
    motors s' = motors booted.
Proof.
  split; [exact first_slot_booted_2|].
  destruct (active_list_calls_touch_one_slot (Add 2%N) booted 1 first_slot_booted_2)
    as [ev [s' [Hcall [Hown [Hother [_ [Hmot _]]]]]]].
  exists ev, s'. split; [exact Hcall|]. split; [exact Hown|].
  split; [apply Hother; lia|exact Hmot].
Defined.

Lemma thirteenth_motor_is_never_active_witness :
  (12 <= length (stepper_motors twelve_motors))%nat /\
  ~ registered twelve_motors 13%N /\
  let s1 := add_stepper_motor 13%N idle_motor twelve_motors in
  stepper_motors s1 !! 12%nat = Some 13%N /\
  add_motor_to_active_list 13%N s1 = Some ([], s1).
Proof.
  assert (H1 : (12 <= length (stepper_motors twelve_motors))%nat) by (cbn; lia).
  assert (H2 : ~ registered twelve_motors 13%N).
  { intros [j [Hj Hjs]].
    do 12 (destruct j as [|j]; [discriminate Hjs|]). lia. }
  split; [exact H1|]. split; [exact H2|].
  destruct (thirteenth_motor_is_never_active twelve_motors 13%N idle_motor H1 H2)
    as [Hlast [_ [Hadd _]]].
  split; [exact Hlast|exact Hadd].
Defined.

Lemma finished_moves_signalled_once_witness :
  (forall p s q, flagged (motors (finish_motor p s)) q = true ->
     q <> p /\ flagged (motors s) q = true) /\
  exists ev s',
    signal_moves_finished finish_motor 20 finished_example = Some (ev, s') /\
    ev = [SignalMoveFinished 1%N] /\
    moves_finished s' = false /\
    NoDup (signalled ev) /\
    flagged (motors s') 1%N = false.
Proof.
  assert (Hcb := cb_flag finish_motor finish_motor_ok).
  split; [exact Hcb|].
  destruct (signal_moves_finished finish_motor 20 finished_example) as [[ev s']|] eqn:H.
  - destruct (finished_moves_signalled_once finish_motor 20 finished_example ev s' Hcb H)
      as [Hmf [_ [Hnd [Hin _]]]].
    assert (Hev : ev = [SignalMoveFinished 1%N]).
    { vm_compute in H. inversion H. reflexivity. }
    exists ev, s'. split; [reflexivity|]. split; [exact Hev|]. split; [exact Hmf|].
    split; [exact Hnd|].
    apply Hin. rewrite Hev. apply elem_of_cons. auto.
  - exfalso. vm_compute in H. discriminate H.
Defined.

Lemma slots_live_both_pending :
  slots_live both_pending_example /\ NoDup (active_ptrs both_pending_example) /\
  active_ptrs both_pending_example = [1%N; 2%N].
Proof.
  apply two_slots_live; [reflexivity|exists []; reflexivity| |]; eexists; reflexivity.
Qed.

Lemma handler_returns_witness :
  let tc := fun _ : nat => 1000 in
  callback_ok finish_motor /\
  slots_live both_pending_example /\ 0 < period both_pending_example /\
  (forall n, tc n <= 1000) /\
  1000 + period both_pending_example < 2 ^ 32 /\
  (37 <= 37)%nat /\
  1000 < (Z.of_nat 37 - 1) * period both_pending_example /\
  is_Some (TIMER0_IRQHandler finish_motor 37 tc both_pending_example).
Proof.
  intros tc.
  assert (H1 := proj1 slots_live_both_pending).
  assert (H2 : 0 < period both_pending_example) by reflexivity.
  assert (H3 : forall n, tc n <= 1000) by (intros n; unfold tc; lia).
  assert (H4 : 1000 + period both_pending_example < 2 ^ 32) by reflexivity.
  assert (H5 : (37 <= 37)%nat) by lia.
  assert (H6 : 1000 < (Z.of_nat 37 - 1) * period both_pending_example) by reflexivity.
  split; [exact finish_motor_ok|]. split; [exact H1|]. split; [exact H2|].
  split; [exact H3|]. split; [exact H4|]. split; [exact H5|]. split; [exact H6|].
  exact (handler_returns finish_motor finish_motor_ok 1000 37 tc both_pending_example
           H1 H2 H3 H4 H5 H6).
Defined.

Lemma lead_loop_adds_whole_periods_witness :
  let s := set_MR0 250 booted in
  0 <= MR0 s < 2 ^ 32 /\
  exists ev s',
    lead_loop 20 late_clock 0 s = Some (ev, s') /\
    length ev = 4%nat /\
    MR0 s' = 1250 /\
    late_clock 4 <= MR0 s' /\
    mr0_stores ev = [500; 750; 1000; 1250].
Proof.
  intros s.
  assert (H1 : 0 <= MR0 s < 2 ^ 32) by (cbn; lia).
  split; [exact H1|].
  destruct (lead_loop 20 late_clock 0 s) as [[ev s']|] eqn:H.
  - destruct (lead_loop_adds_whole_periods 20 late_clock 0 s ev s' H1 H)
      as [Hs' [Hend [_ [Hstores _]]]].
    assert (Hlen : length ev = 4%nat).
    { vm_compute in H. inversion H. reflexivity. }
    rewrite Hlen in Hs', Hend, Hstores.
    exists ev, s'. split; [reflexivity|]. split; [exact Hlen|].
    split; [rewrite Hs'; reflexivity|]. split; [exact Hend|].
    rewrite Hstores. reflexivity.
  - exfalso. vm_compute in H. discriminate H.
Defined.

Lemma catch_up_changes_counters_only_witness :
  let tc := fun _ : nat => 1000 in
  exists ev s' reads,
    catch_up tc overrun_example = Some (ev, s', reads) /\
    ev = [WriteMR0 (MR0 s')] /\
    (forall p m m', motors overrun_example !! p = Some m -> motors s' !! p = Some m' ->
       same_but_counter m m').
Proof.
  intros tc.
  destruct (catch_up tc overrun_example) as [[[ev s'] reads]|] eqn:H.
  - destruct (catch_up_changes_counters_only tc overrun_example ev s' reads H)
      as [Hev [_ [_ [Hsame _]]]].
    exists ev, s', reads. split; [reflexivity|]. split; [exact Hev|exact Hsame].
  - exfalso. vm_compute in H. discriminate H.
Defined.

Lemma step_loop_ticks_each_active_motor_once_witness :
  slots_live both_pending_example /\ NoDup (active_ptrs both_pending_example) /\
  exists s',
    tick_loop 12 0 1 both_pending_example
      = Some ([Tick 1%N; StepPin 1%N; Tick 2%N], s') /\
    reset_step_pins s' = true /\ moves_finished s' = true.
Proof.
  destruct slots_live_both_pending as [H1 [H2 Hact]].
  split; [exact H1|]. split; [exact H2|].
  destruct (step_loop_ticks_each_active_motor_once both_pending_example H1 H2)
    as [s' [Heq [_ [_ [_ [Hrsp Hmf]]]]]].
  rewrite Hact in Heq, Hrsp, Hmf.
  exists s'. split; [exact Heq|]. split; [exact Hrsp|exact Hmf].
Defined.

Lemma slots_live_quiet :
  slots_live quiet_example /\ NoDup (active_ptrs quiet_example) /\
  active_ptrs quiet_example = [1%N; 2%N].
Proof.
  apply two_slots_live; [reflexivity|exists []; reflexivity| |]; eexists; reflexivity.
Qed.

Lemma tick_without_pulse_only_sets_mr0_witness :
  let s := quiet_example in
  Z.land (IR s) (Z.shiftl 1 1) = 0 /\
  Z.land (IR s) (Z.shiftl 1 0) <> 0 /\
  slots_live s /\ NoDup (active_ptrs s) /\
  reset_step_pins s = false /\
  (forall p, p ∈ active_ptrs s -> pulses (motors s) p = false) /\
  exists s',
    TIMER0_IRQHandler finish_motor 0 late_clock s
      = Some ([WriteIR 1; Tick 1%N; Tick 2%N; WriteMR0 250], s').
Proof.
  intros s.
  destruct slots_live_quiet as [H3 [H4 Hact]].
  assert (H2 : Z.land (IR s) (Z.shiftl 1 0) <> 0) by discriminate.
  assert (H6 : forall p, p ∈ active_ptrs s -> pulses (motors s) p = false).
  { intros p Hp. fold s in Hact. rewrite Hact in Hp.
    repeat (apply elem_of_cons in Hp; destruct Hp as [->|Hp]);
      [reflexivity | reflexivity | inversion Hp]. }
  split; [reflexivity|]. split; [exact H2|]. split; [exact H3|]. split; [exact H4|].
  split; [reflexivity|]. split; [exact H6|].
  destruct (tick_without_pulse_only_sets_mr0 finish_motor 0 late_clock s
              eq_refl H2 H3 H4 eq_refl H6) as [s' [Heq _]].
  fold s in Hact. rewrite Hact in Heq.
  exists s'. exact Heq.
Defined.

Lemma slots_live_unstep :
  slots_live unstep_example /\ NoDup (active_ptrs unstep_example) /\
  active_ptrs unstep_example = [1%N; 2%N].
Proof.
  apply two_slots_live; [reflexivity|exists []; reflexivity| |]; eexists; reflexivity.
Qed.

Lemma pulse_reset_interrupt_only_unsteps_witness :
  let s := unstep_example in
  Z.land (IR s) (Z.shiftl 1 1) <> 0 /\
  Z.land (IR s) (Z.shiftl 1 0) = 0 /\
  slots_live s /\
  fst <$> TIMER0_IRQHandler finish_motor 0 late_clock s
    = Some [WriteIR 2; WriteMCR 3; Unstep 1%N; Unstep 2%N].
Proof.
  intros s.
  destruct slots_live_unstep as [H3 [_ Hact]].
  assert (H1 : Z.land (IR s) (Z.shiftl 1 1) <> 0) by discriminate.
  split; [exact H1|]. split; [reflexivity|]. split; [exact H3|].
  destruct (pulse_reset_interrupt_only_unsteps finish_motor 0 late_clock s H1 eq_refl H3)
    as [Heq _].
  rewrite Heq. unfold mr1_events. fold s in Hact. rewrite Hact. reflexivity.
Defined.

Lemma finished_move_path_leaves_mr0_on_grid_witness :
  let s := set_reset_step_pins false finished_example in
  let tc := stalled_clock in
  0 < period s /\
  0 <= last_duration s /\
  (forall i : nat, 0 <= tc i /\ tc i + last_duration s + period s < 2 ^ 32) /\
  exists ev s',
    irq_moves_finished finish_motor 20 tc s = Some (ev, s') /\
    mr0_stores ev = [4294967295; 1250; 1500] /\
    MR0 s' = 1500 /\
    exists n : nat,
      mr0_stores ev
      = wrap32 (Z.lnot 0)
          :: ((fun i : nat => (ticks_to_skip (tc 2%nat) s + 1 + Z.of_nat i) * period s)
                <$> seq 0 (S n)) /\
      MR0 s' = (ticks_to_skip (tc 2%nat) s + 1 + Z.of_nat n) * period s /\
      1 <= ticks_to_skip (tc 2%nat) s + 1 /\
      period s' = period s /\
      tc (4 + n)%nat <= MR0 s' /\
      (forall i : nat, (i < n)%nat ->
         (ticks_to_skip (tc 2%nat) s + 1 + Z.of_nat i) * period s < tc (4 + i)%nat).
Proof.
  intros s tc.
  assert (Hper : 0 < period s) by reflexivity.
  assert (Hld : 0 <= last_duration s) by discriminate.
  assert (Htc : forall i : nat, 0 <= tc i /\ tc i + last_duration s + period s < 2 ^ 32).
  { intros i. unfold tc, stalled_clock.
    change (last_duration s) with 0. change (period s) with 250.
    destruct (i <? 3)%nat; lia. }
  assert (Hcbl : forall p s, last_duration (finish_motor p s) = last_duration s).
  { intros p s0.
    destruct (finish_motor_shape p s0) as [[_ ->]|[m [x [mcr [_ ->]]]]]; reflexivity. }
  split; [exact Hper|]. split; [exact Hld|]. split; [exact Htc|].
  destruct (irq_moves_finished finish_motor 20 tc s) as [[ev s']|] eqn:H.
  - assert (Hs' : mr0_stores ev = [4294967295; 1250; 1500] /\ MR0 s' = 1500).
    { vm_compute in H. inversion H. split; reflexivity. }
    destruct Hs' as [Hst Hmr0].
    exists ev, s'. split; [reflexivity|]. split; [exact Hst|]. split; [exact Hmr0|].
    exact (finished_move_path_leaves_mr0_on_grid finish_motor 20 tc s ev s'
             (cb_period finish_motor finish_motor_ok) Hcbl Hper Hld Htc H).
  - exfalso. vm_compute in H. discriminate H.
Defined.

Lemma registered_motor_can_be_activated_witness :
  (length (stepper_motors booted) < 12)%nat /\
  let s1 := add_stepper_motor 4%N idle_motor booted in
  exists j ev s2,
    first_slot s1 4%N j /\
    add_motor_to_active_list 4%N s1 = Some (ev, s2) /\
    bm_test s2 (2 ^ Z.of_nat j) = true /\
    motors s2 !! 4%N = Some idle_motor.
Proof.
  assert (H : (length (stepper_motors booted) < 12)%nat) by (cbn; lia).
  split; [exact H|]. intros s1.
  destruct (registered_motor_can_be_activated booted 4%N idle_motor H)
    as [j [ev [s2 [H1 [H2 [H3 [_ H5]]]]]]].
  exists j, ev, s2. split; [exact H1|]. split; [exact H2|]. split; [exact H3|exact H5].
Defined.

Lemma slots_live_stepping :
  slots_live stepping_example /\ NoDup (active_ptrs stepping_example) /\
  active_ptrs stepping_example = [1%N; 2%N].
Proof.
  apply two_slots_live; [reflexivity|exists []; reflexivity| |]; eexists; reflexivity.
Qed.

Lemma tick_with_pulse_enables_mr1_witness :
  let s := stepping_example in
  Z.land (IR s) (Z.shiftl 1 1) = 0 /\
  Z.land (IR s) (Z.shiftl 1 0) <> 0 /\
  slots_live s /\ NoDup (active_ptrs s) /\
  moves_finished s = false /\
  (exists p, p ∈ active_ptrs s /\ pulses (motors s) p = true) /\
  (forall p, p ∈ active_ptrs s -> finishes (motors s) p = false) /\
  exists s',
    TIMER0_IRQHandler finish_motor 0 late_clock s
      = Some ([WriteIR 1; Tick 1%N; StepPin 1%N; Tick 2%N; WriteMCR 11], s') /\
    MR0 s' = MR0 s.
Proof.
  intros s.
  destruct slots_live_stepping as [H3 [H4 Hact]]. fold s in Hact.
  assert (H2 : Z.land (IR s) (Z.shiftl 1 0) <> 0) by discriminate.
  assert (H6 : exists p, p ∈ active_ptrs s /\ pulses (motors s) p = true).
  { exists 1%N. split; [rewrite Hact; apply elem_of_cons; auto|reflexivity]. }
  assert (H7 : forall p, p ∈ active_ptrs s -> finishes (motors s) p = false).
  { intros p Hp. rewrite Hact in Hp.
    repeat (apply elem_of_cons in Hp; destruct Hp as [->|Hp]);
      [reflexivity | reflexivity | inversion Hp]. }
  split; [reflexivity|]. split; [exact H2|]. split; [exact H3|]. split; [exact H4|].
  split; [reflexivity|]. split; [exact H6|]. split; [exact H7|].
  destruct (tick_with_pulse_enables_mr1 finish_motor 0 late_clock s
              eq_refl H2 H3 H4 eq_refl H6 H7) as [s' [Heq [Hs' _]]].
  rewrite Hact in Heq.
  exists s'. split; [exact Heq|]. rewrite Hs'. reflexivity.
Defined.

End StepTickerExtra.

(** * Further properties of the stepper *)

Module StepperExtra.
Import Stepper StepperSpec StepperTerms StepperProofs.

(** ** The search for the main stepper *)

Lemma find_main_stepper_acc (l : list ptr) (ms : gmap ptr StepperMotor)
      (mp : ptr) (mm : StepperMotor) :
  ms !! mp = Some mm ->
  (forall a, a ∈ l -> is_Some (ms !! a)) ->
  exists r mr,
    find_main_stepper l ms (Some mp) = Some (Some r) /\
    ms !! r = Some mr /\
    steps_to_move mm <= steps_to_move mr /\
    ((r = mp /\
      forall a m, a ∈ l -> ms !! a = Some m -> steps_to_move m <= steps_to_move mm) \/
     (exists pre post,
        l = pre ++ r :: post /\
        steps_to_move mm < steps_to_move mr /\
        (forall a m, a ∈ pre -> ms !! a = Some m -> steps_to_move m < steps_to_move mr) /\
        (forall a m, a ∈ post -> ms !! a = Some m -> steps_to_move m <= steps_to_move mr))).
Proof.
  revert mp mm. induction l as [|a l IH]; intros mp mm Hmp Hlive.
  - exists mp, mm. split; [reflexivity|]. split; [exact Hmp|]. split; [lia|].
    left. split; [reflexivity|]. intros a m Ha. inversion Ha.
  - destruct (Hlive a) as [ma Hma]; [apply elem_of_cons; auto|].
    assert (Hlive' : forall a', a' ∈ l -> is_Some (ms !! a')).
    { intros a' Ha'. apply Hlive. apply elem_of_cons. auto. }
    cbn [find_main_stepper]. rewrite Hma, Hmp. cbn [mbind option_bind].
    destruct (steps_to_move mm <? steps_to_move ma) eqn:Hlt.
    + apply Z.ltb_lt in Hlt.
      destruct (IH a ma Hma Hlive') as [r [mr [Heq [Hr [Hle Hcase]]]]].
      exists r, mr. split; [exact Heq|]. split; [exact Hr|]. split; [lia|].
      right. destruct Hcase as [[-> Hall]|[pre [post [-> [Hlt' [Hpre Hpost]]]]]].
      * exists [], l. rewrite Hma in Hr. inversion Hr; subst mr.
        split; [reflexivity|]. split; [exact Hlt|]. split; [|exact Hall].
        intros a' m' Ha'. inversion Ha'.
      * exists (a :: pre), post. split; [reflexivity|]. split; [lia|].
        split; [|exact Hpost].
        intros a' m' Ha' Hm'. apply elem_of_cons in Ha'. destruct Ha' as [->|Ha'].
        -- rewrite Hma in Hm'. inversion Hm'; subst. exact Hlt'.
        -- eapply Hpre; eassumption.
    + apply Z.ltb_ge in Hlt.
      destruct (IH mp mm Hmp Hlive') as [r [mr [Heq [Hr [Hle Hcase]]]]].
      exists r, mr. split; [exact Heq|]. split; [exact Hr|]. split; [exact Hle|].
      destruct Hcase as [[-> Hall]|[pre [post [-> [Hlt' [Hpre Hpost]]]]]].
      * left. split; [reflexivity|].
        intros a' m' Ha' Hm'. apply elem_of_cons in Ha'. destruct Ha' as [->|Ha'].
        -- rewrite Hma in Hm'. inversion Hm'; subst. exact Hlt.
        -- eapply Hall; eassumption.
      * right. exists (a :: pre), post. split; [reflexivity|]. split; [exact Hlt'|].
        split; [|exact Hpost].
        intros a' m' Ha' Hm'. apply elem_of_cons in Ha'. destruct Ha' as [->|Ha'].
        -- rewrite Hma in Hm'. inversion Hm'; subst. lia.
        -- eapply Hpre; eassumption.
Qed.

(** X1. Over a non-empty list of actuators that all designate motors, the
    search of [on_block_begin] returns the first actuator of the list whose
    [steps_to_move] is the largest: every actuator before it has strictly
    fewer steps, every actuator after it has no more. *)
Theorem main_stepper_is_first_maximum (l : list ptr) (ms : gmap ptr StepperMotor) :
  l <> [] ->
  (forall a, a ∈ l -> is_Some (ms !! a)) ->
  exists r mr pre post,
    find_main_stepper l ms None = Some (Some r) /\
    l = pre ++ r :: post /\
    ms !! r = Some mr /\
    (forall a m, a ∈ pre -> ms !! a = Some m -> steps_to_move m < steps_to_move mr) /\
    (forall a m, a ∈ post -> ms !! a = Some m -> steps_to_move m <= steps_to_move mr).
Proof.
  intros Hne Hlive. destruct l as [|a l]; [congruence|].
  destruct (Hlive a) as [ma Hma]; [apply elem_of_cons; auto|].
  destruct (find_main_stepper_acc l ms a ma Hma) as [r [mr [Heq [Hr [Hle Hcase]]]]].
  { intros a' Ha'. apply Hlive. apply elem_of_cons. auto. }
  cbn [find_main_stepper].
  destruct Hcase as [[-> Hall]|[pre [post [-> [Hlt [Hpre Hpost]]]]]].
  - rewrite Hma in Hr. inversion Hr; subst mr.
    exists a, ma, [], l. split; [exact Heq|]. split; [reflexivity|].
    split; [exact Hma|]. split; [|exact Hall].
    intros a' m' Ha'. inversion Ha'.
  - exists r, mr, (a :: pre), post. split; [exact Heq|]. split; [reflexivity|].
    split; [exact Hr|]. split; [|exact Hpost].
    intros a' m' Ha' Hm'. apply elem_of_cons in Ha'. destruct Ha' as [->|Ha'].
    + rewrite Hma in Hm'. inversion Hm'; subst. exact Hlt.
    + eapply Hpre; eassumption.
Qed.

(** ** What [on_block_begin] does with a block it takes *)

Lemma axis_direction_eq (b : Block) (i : nat) :
  negb (Z.land (Z.shiftr (direction_bits b) (Z.of_nat i)) 1 =? 0) = axis_direction b i.
Proof.
  unfold axis_direction.
  change 1 with (Z.ones 1). rewrite Z.land_ones by lia.
  rewrite <- Z.bit0_mod, Z.shiftr_spec by lia. rewrite Z.add_0_l.
  destruct (Z.testbit (direction_bits b) (Z.of_nat i)); reflexivity.
Qed.

Lemma move_loop_inv (block : Block) (n i : nat) (s : t) (r : list Event * t) :
  move_loop block n i s = Some r ->
  fst r = axis_moves block (actuators s) n i /\
  exists ms', snd r = set_motors ms' s /\
    forall p, is_Some (ms' !! p) <-> is_Some (motors s !! p).
Proof.
  revert i s r. induction n as [|n IH]; intros i s r H; cbn [move_loop axis_moves] in *.
  - inversion H; subst. split; [reflexivity|]. exists (motors s).
    split; [destruct s; reflexivity|]. reflexivity.
  - destruct (steps block i =? 0) eqn:Hz; cbn [negb] in H.
    + apply IH in H. exact H.
    + destruct (actuators s !! i) as [a|] eqn:Ha; [|discriminate H].
      cbn [mbind option_bind] in H.
      destruct (motors s !! a) as [m|] eqn:Hm; [|discriminate H].
      cbn [mbind option_bind] in H.
      match type of H with
      | context [move_loop block n (S i) ?s1] =>
        destruct (move_loop block n (S i) s1) as [r1|] eqn:Hr1; [|discriminate H]
      end.
      cbn [mbind option_bind] in H. inversion H; subst r. clear H.
      apply IH in Hr1. destruct Hr1 as [Hev [ms' [Hs Hdom]]].
      cbn [fst snd]. rewrite Hev, axis_direction_eq. split; [reflexivity|].
      exists ms'. split; [rewrite Hs; reflexivity|].
      intros p. rewrite Hdom. cbn [motors set_motors].
      rewrite lookup_insert_is_Some. split.
      * intros [<-|[_ Hp]]; [rewrite Hm; eauto|exact Hp].
      * intros Hp. destruct (decide (a = p)); auto.
Qed.

Lemma stop_loop_inv (l : list ptr) (ms : gmap ptr StepperMotor)
      (r : list Event * gmap ptr StepperMotor) :
  stop_loop l ms = Some r ->
  Forall (fun e => is_move e = true) (fst r) /\
  forall p, is_Some (snd r !! p) <-> is_Some (ms !! p).
Proof.
  revert ms r. induction l as [|a l IH]; intros ms r H; cbn [stop_loop] in H.
  - inversion H; subst. split; [constructor|]. reflexivity.
  - destruct (ms !! a) as [m|] eqn:Hm; [|discriminate H]. cbn [mbind option_bind] in H.
    match type of H with
    | context [stop_loop l ?ms1] =>
      destruct (stop_loop l ms1) as [r1|] eqn:Hr1; [|discriminate H]
    end.
    cbn [mbind option_bind] in H. inversion H; subst r. clear H.
    apply IH in Hr1. destruct Hr1 as [Hev Hdom]. cbn [fst snd].
    split; [constructor; [reflexivity|exact Hev]|].
    intros p. rewrite Hdom, lookup_insert_is_Some. split.
    + intros [<-|[_ Hp]]; [rewrite Hm; eauto|exact Hp].
    + intros Hp. destruct (decide (a = p)); auto.
Qed.

Lemma any_moving_spec (l : list ptr) (ms : gmap ptr StepperMotor) (b : bool) :
  any_moving l ms = Some b ->
  b = true <-> some_moving l ms.
Proof.
  revert b. induction l as [|a l IH]; intros b H; cbn [any_moving] in H.
  - inversion H; subst. split; [discriminate|].
    intros [a [m [Ha _]]]. inversion Ha.
  - destruct (ms !! a) as [m|] eqn:Hm; [|discriminate H]. cbn [mbind option_bind] in H.
    destruct (moving m) eqn:Hmov.
    + inversion H; subst. split; [|reflexivity]. intros _.
      exists a, m. split; [apply elem_of_cons; auto|]. auto.
    + rewrite (IH b H). split.
      * intros [a' [m' [Ha' Hrest]]]. exists a', m'.
        split; [apply elem_of_cons; auto|exact Hrest].
      * intros [a' [m' [Ha' [Hm' Hmov']]]]. apply elem_of_cons in Ha'.
        destruct Ha' as [->|Ha'].
        -- rewrite Hm in Hm'. inversion Hm'; subst. congruence.
        -- exists a', m'. auto.
Qed.

Lemma any_moving_true (l : list ptr) (ms : gmap ptr StepperMotor) :
  (forall a, a ∈ l -> is_Some (ms !! a)) ->
  some_moving l ms ->
  any_moving l ms = Some true.
Proof.
  intros Hlive Hsome.
  assert (Htotal : exists b, any_moving l ms = Some b).
  { clear Hsome. induction l as [|a l IH]; cbn [any_moving]; [eauto|].
    destruct (Hlive a) as [m Hm]; [apply elem_of_cons; auto|].
    rewrite Hm. cbn [mbind option_bind]. destruct (moving m); [eauto|].
    apply IH. intros a' Ha'. apply Hlive. apply elem_of_cons. auto. }
  destruct Htotal as [b Hb]. rewrite Hb. f_equal.
  apply (any_moving_spec l ms b Hb). exact Hsome.
Qed.

Lemma move_loop_keeps_moving (block : Block) (n i : nat) (s : t) (r : list Event * t)
      (a : ptr) (m : StepperMotor) :
  (forall j, 0 <= steps block j) ->
  move_loop block n i s = Some r ->
  motors s !! a = Some m -> moving m = true ->
  exists m', motors (snd r) !! a = Some m' /\ moving m' = true.
Proof.
  intros Hpos. revert i s r m. induction n as [|n IH]; intros i s r m H Hm Hmov;
    cbn [move_loop] in H.
  - inversion H; subst. eauto.
  - destruct (Z.eqb_spec (steps block i) 0) as [Hz|Hnz]; cbn [negb] in H.
    + exact (IH _ _ _ _ H Hm Hmov).
    + destruct (actuators s !! i) as [a0|]; [|discriminate H].
      cbn [mbind option_bind] in H.
      destruct (motors s !! a0) as [m0|]; [|discriminate H].
      cbn [mbind option_bind] in H.
      match type of H with
      | context [move_loop block n (S i) ?s1] =>
        destruct (move_loop block n (S i) s1) as [r1|] eqn:Hr1; [|discriminate H]
      end.
      cbn [mbind option_bind] in H. inversion H; subst r. clear H. cbn [snd].
      destruct (decide (a0 = a)) as [->|Hne].
      * eapply (IH _ _ _ _ Hr1); [apply lookup_insert_eq|].
        cbn. apply Z.ltb_lt. specialize (Hpos i). lia.
      * eapply (IH _ _ _ _ Hr1); [|exact Hmov].
        cbn [motors set_motors]. rewrite lookup_insert_ne by exact Hne. exact Hm.
Qed.

Lemma move_loop_starts (block : Block) (n i : nat) (s : t) (r : list Event * t) (j : nat) :
  (forall k, 0 <= steps block k) ->
  move_loop block n i s = Some r ->
  (i <= j < i + n)%nat -> steps block j <> 0 ->
  exists a m', actuators s !! j = Some a /\ motors (snd r) !! a = Some m' /\
    moving m' = true.
Proof.
  intros Hpos. revert i s r. induction n as [|n IH]; intros i s r H Hj Hnz; [lia|].
  cbn [move_loop] in H.
  destruct (Z.eqb_spec (steps block i) 0) as [Hz|Hnz']; cbn [negb] in H.
  - apply (IH _ _ _ H); [|exact Hnz].
    destruct (decide (j = i)) as [->|]; [contradiction|lia].
  - destruct (actuators s !! i) as [a0|] eqn:Ha0; [|discriminate H].
    cbn [mbind option_bind] in H.
    destruct (motors s !! a0) as [m0|]; [|discriminate H].
    cbn [mbind option_bind] in H.
    match type of H with
    | context [move_loop block n (S i) ?s1] =>
      destruct (move_loop block n (S i) s1) as [r1|] eqn:Hr1; [|discriminate H]
    end.
    cbn [mbind option_bind] in H. inversion H; subst r. clear H. cbn [snd].
    destruct (decide (j = i)) as [->|Hne].
    + destruct (move_loop_keeps_moving _ _ _ _ _ a0 _ Hpos Hr1 (lookup_insert_eq _ _ _))
        as [m' [Hm' Hmov']].
      { cbn. apply Z.ltb_lt. specialize (Hpos i). lia. }
      exists a0, m'. auto.
    + apply (IH _ _ _ Hr1); [lia|exact Hnz].
Qed.

Section WithSetSpeed.

Variable set_speed : float -> StepperMotor -> StepperMotor.

Lemma set_speed_loop_inv (l : list ptr) (v : float) (ms : gmap ptr StepperMotor)
      (r : list Event * gmap ptr StepperMotor) :
  set_speed_loop set_speed l v ms = Some r ->
  Forall (fun e => is_speed e = true) (fst r) /\
  forall p, is_Some (snd r !! p) <-> is_Some (ms !! p).
Proof.
  revert ms r. induction l as [|a l IH]; intros ms r H; cbn [set_speed_loop] in H.
  - inversion H; subst. split; [constructor|]. reflexivity.
  - destruct (ms !! a) as [m|] eqn:Hm; [|discriminate H]. cbn [mbind option_bind] in H.
    destruct (moving m).
    + match type of H with
      | context [set_speed_loop set_speed l v ?ms1] =>
        destruct (set_speed_loop set_speed l v ms1) as [r1|] eqn:Hr1; [|discriminate H]
      end.
      cbn [mbind option_bind] in H. inversion H; subst r. clear H.
      apply IH in Hr1. destruct Hr1 as [Hev Hdom]. cbn [fst snd].
      split; [constructor; [reflexivity|exact Hev]|].
      intros p. rewrite Hdom, lookup_insert_is_Some. split.
      * intros [<-|[_ Hp]]; [rewrite Hm; eauto|exact Hp].
      * intros Hp. destruct (decide (a = p)); auto.
    + apply IH in H. exact H.
Qed.

Lemma set_step_events_inv (r : float) (s : t) (ev : list Event) (s' : t) :
  set_step_events_per_second set_speed r s = Some (ev, s') ->
  Forall (fun e => is_speed e = true) ev /\
  exists ms', s' = set_motors ms' s /\
    forall p, is_Some (ms' !! p) <-> is_Some (motors s !! p).
Proof.
  unfold set_step_events_per_second. intros H.
  match type of H with
  | context [set_speed_loop set_speed ?l ?v ?ms] =>
    destruct (set_speed_loop set_speed l v ms) as [r1|] eqn:Hr1; [|discriminate H]
  end.
  cbn [mbind option_bind] in H. inversion H; subst. clear H.
  apply set_speed_loop_inv in Hr1. destruct Hr1 as [Hev Hdom].
  split.
  - apply Forall_app. split; [exact Hev|]. constructor; [reflexivity|constructor].
  - exists (snd r1). split; [reflexivity|exact Hdom].
Qed.

(** What a tick can change: nothing when its guard fails; otherwise the
    rate, the motors, and [force_speed_update], which it leaves false. *)
Lemma tick_inv (s : t) (ev : list Event) (s' : t) :
  trapezoid_generator_tick set_speed s = Some (ev, s') ->
  (tick_guard s = false /\ ev = [] /\ s' = s) \/
  (tick_guard s = true /\
   exists r ms',
     s' = set_motors ms' (set_force_speed_update false (set_trapezoid_adjusted_rate r s)) /\
     (forall p, is_Some (ms' !! p) <-> is_Some (motors s !! p)) /\
     (force_speed_update s = true ->
      r = trapezoid_adjusted_rate s /\ Forall (fun e => is_speed e = true) ev)).
Proof.
  unfold trapezoid_generator_tick, tick_guard. intros H.
  destruct (current_block s) as [b|] eqn:Hb;
    [|left; inversion H; subst; auto].
  destruct (negb (paused s) && negb (active_motor_bm s =? 0)) eqn:Hg;
    [|left; inversion H; subst; auto].
  right. split; [reflexivity|].
  destruct (main_stepper s) as [mp|]; [|discriminate H]. cbn [mbind option_bind] in H.
  destruct (motors s !! mp) as [mm|]; [|discriminate H]. cbn [mbind option_bind] in H.
  destruct (force_speed_update s) eqn:Hf.
  - apply set_step_events_inv in H. destruct H as [Hev [ms' [-> Hdom]]].
    exists (trapezoid_adjusted_rate s), ms'. split.
    + destruct s; reflexivity.
    + split; [exact Hdom|]. intros _. split; [reflexivity|exact Hev].
  - assert (Hpush : forall r,
      set_step_events_per_second set_speed
        (trapezoid_adjusted_rate (set_trapezoid_adjusted_rate r s))
        (set_trapezoid_adjusted_rate r s) = Some (ev, s') ->
      exists r0 ms',
        s' = set_motors ms'
               (set_force_speed_update false (set_trapezoid_adjusted_rate r0 s)) /\
        (forall p, is_Some (ms' !! p) <-> is_Some (motors s !! p)) /\
        (false = true ->
         r0 = trapezoid_adjusted_rate s /\ Forall (fun e => is_speed e = true) ev)).
    { intros r Hr. apply set_step_events_inv in Hr. destruct Hr as [_ [ms' [-> Hdom]]].
      exists r, ms'. split; [|split; [exact Hdom|discriminate]].
      destruct s; cbn in *; subst; reflexivity. }
    repeat match type of H with
    | context [if ?c then _ else _] => destruct c eqn:?
    end.
    all: try (eapply Hpush; exact H).
    destruct (stop_loop (actuators s) (motors s)) as [r1|] eqn:Hr1; [|discriminate H].
    cbn [mbind option_bind] in H. inversion H; subst. clear H.
    apply stop_loop_inv in Hr1. destruct Hr1 as [_ Hdom].
    exists (trapezoid_adjusted_rate s), (snd r1).
    split; [|split; [exact Hdom|discriminate]].
    destruct s; cbn in *; subst; reflexivity.
Qed.

Lemma synchronize_acceleration_inv (s : t) (ev : list Event) (s' : t) :
  synchronize_acceleration s = Some (ev, s') ->
  s' = s /\ Forall (fun e => is_sync e = true) ev /\
  exists mp, main_stepper s = Some mp /\ is_Some (motors s !! mp).
Proof.
  unfold synchronize_acceleration. intros H.
  destruct (main_stepper s) as [mp|]; [|discriminate H]. cbn [mbind option_bind] in H.
  destruct (motors s !! mp) as [mm|] eqn:Hmm; [|discriminate H].
  cbn [mbind option_bind] in H.
  assert (Hmp : exists mp0, Some mp = Some mp0 /\ is_Some (motors s !! mp0))
    by (exists mp; rewrite Hmm; eauto).
  destruct (stepped mm =? 0).
  - destruct (current_block s) as [b|]; [|discriminate H]. cbn [mbind option_bind] in H.
    inversion H; subst. split; [reflexivity|]. split; [|exact Hmp].
    destruct ((0 <? decelerate_after b) && (decelerate_after b <? steps_to_move mm));
      repeat constructor.
  - inversion H; subst. split; [reflexivity|]. split; [|exact Hmp]. repeat constructor.
Qed.

Lemma on_block_begin_inv (block : Block) (s : t) (ev : list Event) (s' : t) :
  real_block block ->
  on_block_begin set_speed block s = Some (ev, s') ->
  exists main ms5 ev6 ev7,
    find_main_stepper (actuators s) (motors s) None = Some main /\
    let s4 := set_main_stepper main (block_taken block s) in
    move_loop block 3 0 s4
      = Some (axis_moves block (actuators s) 3 0, set_motors ms5 s4) /\
    (forall p, is_Some (ms5 !! p) <-> is_Some (motors s !! p)) /\
    trapezoid_generator_tick set_speed (set_motors ms5 s4) = Some (ev6, s') /\
    synchronize_acceleration s' = Some (ev7, s') /\
    ev = Take :: enable_events s ++ axis_moves block (actuators s) 3 0 ++ ev6 ++ ev7.
Proof.
  intros [Hmm Hsteps] H. unfold on_block_begin in H. rewrite Hmm in H.
  assert (Hany : (0 <? steps block ALPHA_STEPPER) || (0 <? steps block BETA_STEPPER)
                 || (0 <? steps block GAMMA_STEPPER) = true).
  { destruct Hsteps as [Hs|[Hs|Hs]]; apply Z.ltb_lt in Hs; rewrite Hs;
      rewrite ?orb_true_r; reflexivity. }
  rewrite Hany in H.
  set (r1 := if negb (enable_pins_status s) then turn_enable_pins_on s else ([], s)) in H.
  assert (Hr1 : fst r1 = enable_events s /\
                set_current_block (Some block) (snd r1)
                = set_current_block (Some block) (set_enable_pins_status true s)).
  { unfold r1, enable_events. destruct (enable_pins_status s) eqn:He; cbn.
    - split; [reflexivity|]. destruct s; cbn in *; subst; reflexivity.
    - split; reflexivity. }
  destruct Hr1 as [Hev1 Hs1]. rewrite Hs1, Hev1 in H. clear Hs1 Hev1 r1.
  cbn [trapezoid_generator_reset current_block set_current_block mbind option_bind] in H.
  fold (block_taken block s) in H.
  change (actuators (block_taken block s)) with (actuators s) in H.
  change (motors (block_taken block s)) with (motors s) in H.
  destruct (find_main_stepper (actuators s) (motors s) None) as [main|] eqn:Hmain;
    [|discriminate H].
  cbn [mbind option_bind] in H.
  destruct (move_loop block 3 0 (set_main_stepper main (block_taken block s)))
    as [r5|] eqn:Hr5; [|discriminate H].
  cbn [mbind option_bind] in H.
  destruct (move_loop_inv _ _ _ _ _ Hr5) as [Hev5 [ms5 [Hs5 Hdom5]]].
  destruct r5 as [ev5 s5]. cbn [fst snd] in *. subst ev5 s5.
  destruct (trapezoid_generator_tick set_speed _) as [[ev6 s6]|] eqn:Hr6;
    [|discriminate H].
  cbn [mbind option_bind fst snd] in H.
  destruct (synchronize_acceleration s6) as [[ev7 s7]|] eqn:Hr7; [|discriminate H].
  cbn [mbind option_bind fst snd] in H.
  destruct (synchronize_acceleration_inv _ _ _ Hr7) as [-> _].
  inversion H; subst. clear H.
  exists main, ms5, ev6, ev7. split; [reflexivity|]. cbn zeta.
  split; [exact Hr5|]. split; [exact Hdom5|]. split; [exact Hr6|].
  split; [exact Hr7|]. reflexivity.
Qed.

Lemma find_main_stepper_elem (l : list ptr) (ms : gmap ptr StepperMotor)
      (main res : option ptr) :
  find_main_stepper l ms main = Some res ->
  res = main \/ exists r, res = Some r /\ r ∈ l.
Proof.
  revert main. induction l as [|a l IH]; intros main H; cbn [find_main_stepper] in H.
  - inversion H; subst. left. reflexivity.
  - assert (Hstep : forall main', find_main_stepper l ms main' = Some res ->
                      main' = Some a \/ main' = main ->
                      res = main \/ exists r, res = Some r /\ r ∈ a :: l).
    { intros main' H' Hm. apply IH in H'. destruct H' as [->|[r [-> Hr]]].
      - destruct Hm as [->| ->]; [right|left; reflexivity].
        exists a. split; [reflexivity|]. apply elem_of_cons. auto.
      - right. exists r. split; [reflexivity|]. apply elem_of_cons. auto. }
    destruct main as [mp|]; [|apply (Hstep _ H); auto].
    destruct (ms !! a) as [ma|]; [|discriminate H]. cbn [mbind option_bind] in H.
    destruct (ms !! mp) as [mm|]; [|discriminate H]. cbn [mbind option_bind] in H.
    destruct (steps_to_move mm <? steps_to_move ma); apply (Hstep _ H); auto.
Qed.

(** X2. When [on_block_begin] returns from a block it acts upon, the block
    is the current block, the trapezoid rate is the block's
    [initial_rate], the drivers are enabled, and [main_stepper] designates
    one of the robot's actuators, which holds a motor. The pause flag, the
    actuator list, the minimum rate and the set of motor objects are as
    before. *)
Theorem on_block_begin_takes_block (block : Block) (s : t) (ev : list Event) (s' : t) :
  real_block block ->
  on_block_begin set_speed block s = Some (ev, s') ->
  current_block s' = Some block /\
  trapezoid_adjusted_rate s' = initial_rate block /\
  enable_pins_status s' = true /\
  (exists mp, main_stepper s' = Some mp /\ mp ∈ actuators s /\ is_Some (motors s' !! mp)) /\
  paused s' = paused s /\
  actuators s' = actuators s /\
  minimum_steps_per_second s' = minimum_steps_per_second s /\
  (forall p, is_Some (motors s' !! p) <-> is_Some (motors s !! p)).
Proof.
  intros Hreal H.
  destruct (on_block_begin_inv block s ev s' Hreal H)
    as [main [ms5 [ev6 [ev7 [Hmain [_ [Hdom5 [Htick [Hsync _]]]]]]]]].
  apply synchronize_acceleration_inv in Hsync. destruct Hsync as [_ [_ [mp [Hmp Hlive]]]].
  assert (Hshape : exists ms' f,
            s' = set_motors ms' (set_force_speed_update f
                   (set_main_stepper main (block_taken block s))) /\
            forall p, is_Some (ms' !! p) <-> is_Some (motors s !! p)).
  { apply tick_inv in Htick. destruct Htick as [[_ [_ ->]]|[_ [r [ms' [-> [Hdom Hforce]]]]]].
    - exists ms5, true. split; [reflexivity|exact Hdom5].
    - destruct (Hforce eq_refl) as [-> _].
      exists ms', false. split; [reflexivity|].
      intros p. rewrite Hdom. exact (Hdom5 p). }
  destruct Hshape as [ms' [f [-> Hdom]]]. cbn in Hmp. cbn.
  split; [reflexivity|]. split; [reflexivity|]. split; [reflexivity|].
  split; [|auto].
  exists mp. split; [exact Hmp|]. split; [|exact Hlive].
  subst main. apply find_main_stepper_elem in Hmain.
  destruct Hmain as [Hnone|[r [Hr Hin]]]; [discriminate Hnone|].
  inversion Hr; subst. exact Hin.
Qed.

(** X3. The calls [on_block_begin] makes for a block it acts upon, in
    order: [take] on the block; [enable(true)] on every actuator if the
    drivers were off, and no [enable] otherwise; [move] on the actuators of
    the axes, among the first three, that have steps, in axis order, with
    the axis' bit of [direction_bits] and the axis' step count; after
    these, only speed updates and the calls of
    [synchronize_acceleration]. *)
Theorem on_block_begin_calls (block : Block) (s : t) (ev : list Event) (s' : t) :
  real_block block ->
  on_block_begin set_speed block s = Some (ev, s') ->
  exists tail,
    ev = Take :: enable_events s ++ axis_moves block (actuators s) 3 0 ++ tail /\
    Forall (fun e => is_speed e || is_sync e = true) tail.
Proof.
  intros Hreal H.
  destruct (on_block_begin_inv block s ev s' Hreal H)
    as [main [ms5 [ev6 [ev7 [_ [_ [_ [Htick [Hsync ->]]]]]]]]].
  exists (ev6 ++ ev7). split; [reflexivity|].
  apply synchronize_acceleration_inv in Hsync. destruct Hsync as [_ [Hev7 _]].
  apply Forall_app. split.
  - apply tick_inv in Htick. destruct Htick as [[_ [-> _]]|[_ [r [ms' [_ [_ Hforce]]]]]].
    + constructor.
    + destruct (Hforce eq_refl) as [_ Hev6].
      eapply Forall_impl; [exact Hev6|]. cbn. intros e ->. reflexivity.
  - eapply Forall_impl; [exact Hev7|]. cbn. intros e ->. apply orb_true_r.
Qed.

Lemma move_loop_total (block : Block) (n i : nat) (s : t) :
  (forall j : nat, (i <= j < i + n)%nat -> steps block j <> 0 ->
     exists a, actuators s !! j = Some a /\ is_Some (motors s !! a)) ->
  is_Some (move_loop block n i s).
Proof.
  revert i s. induction n as [|n IH]; intros i s Hlive; cbn [move_loop]; [eauto|].
  destruct (steps block i =? 0) eqn:Hz; cbn [negb].
  - apply IH. intros j Hj. apply Hlive. lia.
  - apply Z.eqb_neq in Hz.
    destruct (Hlive i) as [a [Ha [m Hm]]]; [lia|exact Hz|].
    rewrite Ha. cbn [mbind option_bind]. rewrite Hm. cbn [mbind option_bind].
    match goal with
    | |- context [move_loop block n (S i) ?s1] =>
      destruct (IH (S i) s1) as [r Hr]
    end.
    + intros j Hj Hnz. destruct (Hlive j) as [a' [Ha' Hm']]; [lia|exact Hnz|].
      exists a'. split; [exact Ha'|]. cbn [motors set_motors].
      apply lookup_insert_is_Some. destruct (decide (a = a')); auto.
    + rewrite Hr. cbn [mbind option_bind]. eauto.
Qed.

Lemma move_loop_in_range (block : Block) (n i : nat) (s : t) (r : list Event * t) :
  move_loop block n i s = Some r ->
  forall j : nat, (i <= j < i + n)%nat -> steps block j <> 0 ->
    is_Some (actuators s !! j).
Proof.
  revert i s r. induction n as [|n IH]; intros i s r H j Hj Hnz; [lia|].
  cbn [move_loop] in H.
  destruct (steps block i =? 0) eqn:Hz; cbn [negb] in H.
  - apply Z.eqb_eq in Hz. apply (IH _ _ _ H). 2: exact Hnz.
    destruct (decide (j = i)) as [->|]; [contradiction|lia].
  - destruct (actuators s !! i) as [a|] eqn:Ha; [|discriminate H].
    cbn [mbind option_bind] in H.
    destruct (motors s !! a) as [m|]; [|discriminate H]. cbn [mbind option_bind] in H.
    match type of H with
    | context [move_loop block n (S i) ?s1] =>
      destruct (move_loop block n (S i) s1) as [r1|] eqn:Hr1; [|discriminate H]
    end.
    destruct (decide (j = i)) as [->|]; [rewrite Ha; eauto|].
    apply (IH _ _ _ Hr1 j); [lia|exact Hnz].
Qed.

(** X4. With at least three actuators, each designating a motor,
    [on_block_begin] returns from every block it acts upon: no index
    leaves the actuator list and no pointer it follows, [main_stepper]
    included, is null or dangling. *)
Theorem on_block_begin_returns (block : Block) (s : t) :
  real_block block ->
  actuators_live s ->
  (3 <= length (actuators s))%nat ->
  is_Some (on_block_begin set_speed block s).
Proof.
  intros [Hmm Hsteps] Hlive Hlen. unfold on_block_begin. rewrite Hmm.
  assert (Hany : (0 <? steps block ALPHA_STEPPER) || (0 <? steps block BETA_STEPPER)
                 || (0 <? steps block GAMMA_STEPPER) = true).
  { destruct Hsteps as [Hs|[Hs|Hs]]; apply Z.ltb_lt in Hs; rewrite Hs;
      rewrite ?orb_true_r; reflexivity. }
  rewrite Hany.
  set (s1 := snd (if negb (enable_pins_status s) then turn_enable_pins_on s else ([], s))).
  assert (Hact : actuators s1 = actuators s)
    by (unfold s1; destruct (enable_pins_status s); reflexivity).
  assert (Hmot : motors s1 = motors s)
    by (unfold s1; destruct (enable_pins_status s); reflexivity).
  cbn [trapezoid_generator_reset current_block set_current_block mbind option_bind].
  cbn [actuators motors set_force_speed_update set_trapezoid_adjusted_rate set_current_block].
  rewrite Hact, Hmot.
  destruct (actuators s) as [|a l] eqn:Hl; [cbn in Hlen; lia|].
  destruct (Hlive a) as [ma Hma]; [rewrite Hl; apply elem_of_cons; auto|].
  destruct (find_main_stepper_acc l (motors s) a ma Hma) as [r [mr [Hfind [Hr _]]]].
  { intros a' Ha'. apply Hlive. rewrite Hl. apply elem_of_cons. auto. }
  cbn [find_main_stepper]. rewrite Hfind. cbn [mbind option_bind].
  match goal with
  | |- context [move_loop block 3 0 ?s4] =>
    destruct (move_loop_total block 3 0 s4) as [r5 Hr5]
  end.
  { intros j Hj _. cbn [actuators motors set_main_stepper set_force_speed_update
                        set_trapezoid_adjusted_rate set_current_block].
    rewrite Hact, Hmot, ?Hl.
    assert (Hjl : (j < length (a :: l))%nat) by (cbn [length] in *; lia).
    apply lookup_lt_is_Some in Hjl. destruct Hjl as [a' Ha'].
    exists a'. split; [exact Ha'|]. apply Hlive. rewrite Hl.
    eapply list_elem_of_lookup_2. exact Ha'. }
  rewrite Hr5. cbn [mbind option_bind].
  destruct (move_loop_inv _ _ _ _ _ Hr5) as [_ [ms5 [Hs5 Hdom5]]].
  rewrite Hs5. clear Hr5 Hs5.
  match goal with
  | |- context [trapezoid_generator_tick set_speed ?x] => set (s5 := x)
  end.
  assert (Hdom5' : forall p, is_Some (motors s5 !! p) <-> is_Some (motors s !! p)).
  { intros p. unfold s5. cbn [motors set_motors]. rewrite Hdom5.
    cbn [motors set_main_stepper set_force_speed_update
         set_trapezoid_adjusted_rate set_current_block]. rewrite Hmot. reflexivity. }
  assert (Hmain5 : main_stepper s5 = Some r) by reflexivity.
  assert (Hblock5 : current_block s5 = Some block) by reflexivity.
  assert (Hlive5 : actuators_live s5).
  { intros a' Ha'. apply Hdom5'. apply Hlive. rewrite Hl.
    change (actuators s5) with (actuators s1) in Ha'. rewrite Hact, ?Hl in Ha'. exact Ha'. }
  assert (Hr5 : is_Some (motors s5 !! r)) by (apply Hdom5'; rewrite Hr; eauto).
  assert (Htick : exists ev6 s6, trapezoid_generator_tick set_speed s5 = Some (ev6, s6)).
  { unfold trapezoid_generator_tick. rewrite Hblock5, Hmain5.
    destruct (negb (paused s5) && negb (active_motor_bm s5 =? 0)); [|eauto].
    cbn [mbind option_bind]. destruct Hr5 as [m5 Hm5]. rewrite Hm5.
    cbn [mbind option_bind].
    change (force_speed_update s5) with true. cbn iota.
    destruct (set_step_events_per_second_total set_speed
                (trapezoid_adjusted_rate (set_force_speed_update false s5))
                (set_force_speed_update false s5)) as [ev6 [ms6 Heq]];
      [exact Hlive5|].
    rewrite Heq. eauto. }
  destruct Htick as [ev6 [s6 Htick]]. rewrite Htick. cbn [mbind option_bind fst snd].
  assert (Hs6 : main_stepper s6 = Some r /\ current_block s6 = Some block /\
                is_Some (motors s6 !! r)).
  { apply tick_inv in Htick.
    destruct Htick as [[_ [_ ->]]|[_ [r0 [ms' [-> [Hdom _]]]]]]; cbn.
    - auto.
    - split; [reflexivity|]. split; [reflexivity|]. apply Hdom. exact Hr5. }
  destruct Hs6 as [Hmain6 [Hblock6 [m6 Hm6]]].
  unfold synchronize_acceleration. rewrite Hmain6. cbn [mbind option_bind].
  rewrite Hm6. cbn [mbind option_bind]. rewrite Hblock6. cbn [mbind option_bind].
  destruct (stepped m6 =? 0); eauto.
Qed.

(** X5. When the block has steps on one of its first three axes and the
    robot has no actuator at that index, [on_block_begin] indexes the
    actuator list past its end: the call has no defined result. *)
Theorem on_block_begin_missing_actuator (block : Block) (s : t) (i : nat) :
  real_block block ->
  (i < 3)%nat ->
  steps block i <> 0 ->
  actuators s !! i = None ->
  on_block_begin set_speed block s = None.
Proof.
  intros Hreal Hi Hnz Hnone.
  destruct (on_block_begin set_speed block s) as [[ev s']|] eqn:H; [|reflexivity].
  exfalso.
  destruct (on_block_begin_inv block s ev s' Hreal H)
    as [main [ms5 [ev6 [ev7 [_ [Hmove _]]]]]].
  cbn zeta in Hmove.
  destruct (move_loop_in_range _ _ _ _ _ Hmove i) as [a Ha]; [lia|exact Hnz|].
  cbn in Ha. rewrite Hnone in Ha. discriminate Ha.
Qed.

(** ** The cruise phase and the forced update *)

(** X6. A trapezoid tick in the cruise phase (the guard holds, no forced
    speed update, no flush, [main_stepper->stepped] above
    [accelerate_until + 1] and not above [decelerate_after]) returns with
    the rate set to [nominal_rate] when the two compared different and
    left as it is when they compared equal; unless [nominal_rate] is not a
    number, the rate then compares equal to it. The block stays
    current. *)
Theorem cruise_tick (s : t) (b : Block) (mm : StepperMotor) :
  ticking s b mm ->
  actuators_live s ->
  force_speed_update s = false ->
  flush s = false ->
  wrap32 (accelerate_until b + 1) < stepped mm ->
  stepped mm <= decelerate_after b ->
  exists ev s',
    trapezoid_generator_tick set_speed s = Some (ev, s') /\
    trapezoid_adjusted_rate s' =
      (if f_ne (trapezoid_adjusted_rate s) (nominal_rate b)
       then nominal_rate b else trapezoid_adjusted_rate s) /\
    (f_eq (nominal_rate b) (nominal_rate b) = true ->
     f_eq (trapezoid_adjusted_rate s') (nominal_rate b) = true) /\
    current_block s' = Some b.
Proof.
  intros Htick Hlive Hforce Hflush Hacc Hdec.
  rewrite (tick_unforced set_speed s b mm Htick Hforce). cbn zeta. rewrite Hflush.
  destruct (Z.leb_spec (stepped mm) (wrap32 (accelerate_until b + 1))) as [Hle|_]; [lia|].
  destruct (Z.ltb_spec (decelerate_after b) (stepped mm)) as [Hlt|_]; [lia|].
  destruct Htick as [Hcb _].
  destruct (f_ne (trapezoid_adjusted_rate s) (nominal_rate b)) eqn:Hne.
  - destruct (push_rate set_speed (nominal_rate b) s Hlive) as [ev [s' [Heq [Hrate [Hblock _]]]]].
    exists ev, s'. split; [exact Heq|]. split; [exact Hrate|].
    split; [rewrite Hrate; auto|]. rewrite Hblock. exact Hcb.
  - destruct (set_step_events_per_second_total set_speed (trapezoid_adjusted_rate s) s Hlive)
      as [ev [ms' Heq]].
    exists ev, (set_motors ms' s). split; [exact Heq|]. split; [reflexivity|].
    split; [|exact Hcb].
    intros _. unfold f_ne in Hne. apply negb_false_iff in Hne. exact Hne.
Qed.

(** X7. A tick that finds [force_speed_update] set, as
    [trapezoid_generator_reset] leaves it, does no trapezoid arithmetic,
    whatever the flush flag and the step count: it clears the flag, leaves
    the rate as it is, and pushes that rate, raised to the minimum if it
    is below, to every moving actuator. *)
Theorem forced_tick_pushes_rate_unchanged (s : t) (b : Block) (mm : StepperMotor) :
  ticking s b mm ->
  actuators_live s ->
  NoDup (actuators s) ->
  force_speed_update s = true ->
  let v := applied_rate (trapezoid_adjusted_rate s) (minimum_steps_per_second s) in
  exists ms',
    trapezoid_generator_tick set_speed s
      = Some (speed_events v (motors s) (actuators s) ++ [SpeedChange],
              set_motors ms' (set_force_speed_update false s)) /\
    (forall a m, a ∈ actuators s -> motors s !! a = Some m ->
       ms' !! a = Some (if moving m then set_speed (f_mul v (rate_ratio m)) m else m)) /\
    (forall a, a ∉ actuators s -> ms' !! a = motors s !! a).
Proof.
  intros [Hcb [Hp [Hbm [mp [Hmain Hmm]]]]] Hlive Hnd Hforce v.
  unfold trapezoid_generator_tick. rewrite Hcb, Hp, Hmain.
  destruct (Z.eqb_spec (active_motor_bm s) 0) as [|_]; [contradiction|].
  cbn [negb andb mbind option_bind]. rewrite Hmm. cbn [mbind option_bind].
  rewrite Hforce. unfold set_step_events_per_second.
  cbn [minimum_steps_per_second trapezoid_adjusted_rate actuators motors
       set_force_speed_update].
  fold v.
  destruct (set_speed_loop_spec set_speed v (actuators s) (motors s) Hnd Hlive)
    as [ms' [Heq [Hin Hout]]].
  rewrite Heq. cbn [mbind option_bind fst snd].
  exists ms'. split; [reflexivity|]. split; [exact Hin|exact Hout].
Qed.

(** X8. Whatever branch it takes, a trapezoid tick changes only the rate,
    the motors and [force_speed_update]: the current block (even when the
    flush branch releases it), the pause flag, the enable status, the
    minimum rate, [main_stepper] and the actuator list are as before, and
    no motor object appears or disappears. A tick after which
    [force_speed_update] is still set did nothing at all, and neither does
    a tick without a current block, while paused, or with no active
    motor. *)
Theorem tick_changes_rate_and_motors_only (s : t) (ev : list Event) (s' : t) :
  trapezoid_generator_tick set_speed s = Some (ev, s') ->
  current_block s' = current_block s /\
  paused s' = paused s /\
  enable_pins_status s' = enable_pins_status s /\
  minimum_steps_per_second s' = minimum_steps_per_second s /\
  main_stepper s' = main_stepper s /\
  actuators s' = actuators s /\
  active_motor_bm s' = active_motor_bm s /\
  flush s' = flush s /\
  (forall p, is_Some (motors s' !! p) <-> is_Some (motors s !! p)) /\
  (force_speed_update s' = true -> ev = [] /\ s' = s) /\
  (current_block s = None \/ paused s = true \/ active_motor_bm s = 0 ->
   ev = [] /\ s' = s).
Proof.
  intros H. apply tick_inv in H.
  destruct H as [[_ [-> ->]]|[Hguard [r [ms' [-> [Hdom _]]]]]].
  - repeat (split; [reflexivity|]). auto.
  - cbn. repeat (split; [reflexivity|]). split; [exact Hdom|].
    split; [discriminate|].
    unfold tick_guard in Hguard. intros [Hb|[Hp|Hbm]]; exfalso.
    + rewrite Hb in Hguard. discriminate Hguard.
    + rewrite Hp in Hguard. destruct (current_block s); discriminate Hguard.
    + rewrite Hbm in Hguard. cbn in Hguard. rewrite andb_false_r in Hguard.
      destruct (current_block s); discriminate Hguard.
Qed.

(** ** Drivers that start off *)

Lemma axis_moves_are_moves (b : Block) (acts : list ptr) (n i : nat) :
  Forall (fun e => is_move e = true) (axis_moves b acts n i).
Proof.
  revert i. induction n as [|n IH]; intros i; cbn [axis_moves]; [constructor|].
  apply Forall_app. split; [|apply IH].
  destruct (steps b i =? 0); [constructor|].
  destruct (acts !! i); repeat constructor.
Qed.

(** X24. [on_config_reload] stores the configured minimum rate and
    switches the drivers off, with [enable(false)] on every actuator. The
    next block the stepper acts upon switches them on again: after [take],
    [on_block_begin] calls [enable(true)] on every actuator, once and in
    order, before any other call, and the minimum rate is still the
    configured one. *)
Theorem block_after_config_reload_enables_drivers
    (minimum : float) (block : Block) (s : t) (ev : list Event) (s' : t) :
  real_block block ->
  on_block_begin set_speed block (snd (on_config_reload minimum s)) = Some (ev, s') ->
  fst (on_config_reload minimum s) = map (fun a => Enable a false) (actuators s) /\
  enable_pins_status (snd (on_config_reload minimum s)) = false /\
  enable_pins_status s' = true /\
  minimum_steps_per_second s' = minimum /\
  exists tail,
    ev = Take :: map (fun a => Enable a true) (actuators s) ++ tail /\
    Forall (fun e => is_enable e = false) tail.
Proof.
  intros Hreal H. split; [reflexivity|]. split; [reflexivity|].
  set (s0 := snd (on_config_reload minimum s)) in *.
  destruct (on_block_begin_inv block s0 ev s' Hreal H)
    as [main [ms5 [ev6 [ev7 [_ [_ [_ [Htick [Hsync ->]]]]]]]]].
  apply synchronize_acceleration_inv in Hsync. destruct Hsync as [_ [Hev7 _]].
  apply tick_inv in Htick.
  assert (Hshape : (enable_pins_status s' = true /\ minimum_steps_per_second s' = minimum) /\
                   Forall (fun e => is_speed e = true) ev6).
  { destruct Htick as [[_ [-> ->]]|[_ [r [ms' [-> [_ Hforce]]]]]].
    - split; [split; reflexivity|constructor].
    - split; [split; reflexivity|]. exact (proj2 (Hforce eq_refl)). }
  destruct Hshape as [[He Hmin] Hev6].
  split; [exact He|]. split; [exact Hmin|].
  exists (axis_moves block (actuators s0) 3 0 ++ ev6 ++ ev7). split; [reflexivity|].
  apply Forall_app; split; [|apply Forall_app; split].
  - eapply Forall_impl; [apply axis_moves_are_moves|]. intros [] He'; try discriminate He'; reflexivity.
  - eapply Forall_impl; [exact Hev6|]. intros [] He'; try discriminate He'; reflexivity.
  - eapply Forall_impl; [exact Hev7|]. intros [] He'; try discriminate He'; reflexivity.
Qed.

(** ** A block that has just begun *)

Lemma set_speed_loop_keeps_moving (l : list ptr) (v : float)
      (ms : gmap ptr StepperMotor) (r : list Event * gmap ptr StepperMotor) :
  (forall w m, moving (set_speed w m) = moving m) ->
  set_speed_loop set_speed l v ms = Some r ->
  forall a m, ms !! a = Some m ->
    exists m', snd r !! a = Some m' /\ moving m' = moving m.
Proof.
  intros Hss. revert ms r. induction l as [|a0 l IH]; intros ms r H a m Hm;
    cbn [set_speed_loop] in H.
  - inversion H; subst. eauto.
  - destruct (ms !! a0) as [m0|] eqn:Hm0; [|discriminate H].
    cbn [mbind option_bind] in H.
    destruct (moving m0) eqn:Hmov0; [|exact (IH _ _ H a m Hm)].
    match type of H with
    | context [set_speed_loop set_speed l v ?ms1] =>
      destruct (set_speed_loop set_speed l v ms1) as [r1|] eqn:Hr1; [|discriminate H]
    end.
    cbn [mbind option_bind] in H. inversion H; subst r. clear H. cbn [snd].
    destruct (decide (a0 = a)) as [->|Hne].
    + rewrite Hm0 in Hm. inversion Hm; subst m0.
      destruct (IH _ _ Hr1 a _ (lookup_insert_eq _ _ _)) as [m' [Hm' Hmov']].
      exists m'. split; [exact Hm'|]. rewrite Hmov'. apply Hss.
    + apply (IH _ _ Hr1). rewrite lookup_insert_ne by exact Hne. exact Hm.
Qed.

Lemma forced_tick_keeps_moving (s : t) (ev : list Event) (s' : t) :
  (forall w m, moving (set_speed w m) = moving m) ->
  force_speed_update s = true ->
  trapezoid_generator_tick set_speed s = Some (ev, s') ->
  forall a m, motors s !! a = Some m ->
    exists m', motors s' !! a = Some m' /\ moving m' = moving m.
Proof.
  intros Hss Hforce H a m Hm. unfold trapezoid_generator_tick in H.
  destruct (current_block s) as [b|]; [|inversion H; subst; eauto].
  destruct (negb (paused s) && negb (active_motor_bm s =? 0));
    [|inversion H; subst; eauto].
  destruct (main_stepper s) as [mp|]; [|discriminate H]. cbn [mbind option_bind] in H.
  destruct (motors s !! mp) as [mm|]; [|discriminate H]. cbn [mbind option_bind] in H.
  rewrite Hforce in H. unfold set_step_events_per_second in H.
  match type of H with
  | context [set_speed_loop set_speed ?l ?v ?ms] =>
    destruct (set_speed_loop set_speed l v ms) as [r1|] eqn:Hr1; [|discriminate H]
  end.
  cbn [mbind option_bind] in H. inversion H; subst. clear H.
  exact (set_speed_loop_keeps_moving _ _ _ _ Hss Hr1 a m Hm).
Qed.

(** X30. A block that has just begun is not released by a stray
    end-of-move signal. When [set_speed] leaves [moving] as it is and the
    step counts are not negative, as unsigned counts are, [on_block_begin]
    on a block it acts upon leaves at least one actuator moving, so that
    [stepper_motor_finished_move] right after it makes no call. *)
Theorem begun_block_is_not_released (block : Block) (s : t) (ev : list Event) (s' : t) :
  (forall w m, moving (set_speed w m) = moving m) ->
  (forall i, 0 <= steps block i) ->
  real_block block ->
  actuators_live s ->
  on_block_begin set_speed block s = Some (ev, s') ->
  some_moving (actuators s') (motors s') /\
  stepper_motor_finished_move s' = Some ([], s').
Proof.
  intros Hss Hpos Hreal Hlive H.
  destruct (on_block_begin_inv block s ev s' Hreal H)
    as [main [ms5 [ev6 [ev7 [_ [Hmove [Hdom5 [Htick _]]]]]]]].
  cbn zeta in Hmove.
  assert (Haxis : exists i : nat, (i < 3)%nat /\ steps block i <> 0).
  { destruct Hreal as [_ [Hs|[Hs|Hs]]].
    - exists ALPHA_STEPPER. split; [unfold ALPHA_STEPPER; lia|lia].
    - exists BETA_STEPPER. split; [unfold BETA_STEPPER; lia|lia].
    - exists GAMMA_STEPPER. split; [unfold GAMMA_STEPPER; lia|lia]. }
  destruct Haxis as [i [Hi Hnz]].
  destruct (move_loop_starts _ _ _ _ _ i Hpos Hmove ltac:(lia) Hnz)
    as [a [m5 [Ha [Hm5 Hmov5]]]].
  cbn [snd actuators set_main_stepper] in Ha, Hm5.
  change (actuators (block_taken block s)) with (actuators s) in Ha.
  destruct (forced_tick_keeps_moving
              (set_motors ms5 (set_main_stepper main (block_taken block s))) ev6 s'
              Hss eq_refl Htick a m5 Hm5)
    as [m' [Hm' Hmov']].
  assert (Hshape : actuators s' = actuators s /\
                   forall p, is_Some (motors s' !! p) <-> is_Some (motors s !! p)).
  { apply tick_inv in Htick.
    destruct Htick as [[_ [_ ->]]|[_ [r [ms' [-> [Hdom _]]]]]].
    - split; [reflexivity|exact Hdom5].
    - split; [reflexivity|]. intros p. cbn [motors set_motors] in Hdom |- *.
      rewrite Hdom. exact (Hdom5 p). }
  destruct Hshape as [Hact Hdom].
  assert (Hsome : some_moving (actuators s') (motors s')).
  { exists a, m'. rewrite Hact. split; [eapply list_elem_of_lookup_2; exact Ha|].
    split; [exact Hm'|]. rewrite Hmov'. exact Hmov5. }
  split; [exact Hsome|].
  assert (Hlive' : forall a', a' ∈ actuators s' -> is_Some (motors s' !! a')).
  { intros a' Ha'. apply Hdom. apply Hlive. rewrite <- Hact. exact Ha'. }
  unfold stepper_motor_finished_move. rewrite (any_moving_true _ _ Hlive' Hsome).
  reflexivity.
Qed.

End WithSetSpeed.

(** ** Pause and play *)

(** X9. From a stepper that is not paused, [on_pause] followed by
    [on_play] gives the stepper back as it was; the first calls [pause()]
    on every actuator in order and the second [unpause()]. In between, a
    trapezoid tick makes no call and changes nothing: the block stays
    assigned and the rate frozen. *)
Theorem pause_play_round_trip
    (set_speed : float -> StepperMotor -> StepperMotor) (s : t) :
  paused s = false ->
  let sp := snd (on_pause s) in
  snd (on_play sp) = s /\
  fst (on_pause s) = Pause <$> actuators s /\
  fst (on_play sp) = Unpause <$> actuators s /\
  current_block sp = current_block s /\
  trapezoid_generator_tick set_speed sp = Some ([], sp).
Proof.
  intros Hp. cbn.
  split; [destruct s; cbn in *; subst; reflexivity|].
  split; [reflexivity|]. split; [reflexivity|]. split; [reflexivity|].
  unfold trapezoid_generator_tick. cbn.
  destruct (current_block s); reflexivity.
Qed.

(** ** The gcodes of the enable pins *)

(** X10. Every gcode that [on_gcode_execute] acts upon is one that
    [on_gcode_received] has appended to the conveyor. When it acts, it
    calls [enable] on every actuator in order and sets the enable status,
    to on for M17 and to off otherwise (M18 and M84 without an E
    word). *)
Theorem executed_gcodes_are_queued (gcode : Gcode.t) (s : t) :
  on_gcode_execute gcode s <> ([], s) ->
  on_gcode_received gcode = [AppendGcode gcode] /\
  fst (on_gcode_execute gcode s)
    = map (fun a => Enable a (Gcode.m gcode =? 17)) (actuators s) /\
  enable_pins_status (snd (on_gcode_execute gcode s)) = (Gcode.m gcode =? 17) /\
  (Gcode.m gcode = 17 \/
   (Gcode.m gcode = 18 \/ Gcode.m gcode = 84) /\ Gcode.has_letter gcode "E"%char = false).
Proof.
  unfold on_gcode_execute, on_gcode_received. intros H.
  destruct (Gcode.has_m gcode); [|contradiction].
  destruct (Z.eqb_spec (Gcode.m gcode) 17) as [H17|H17].
  - rewrite orb_true_r. cbn. auto.
  - destruct (Z.eqb_spec (Gcode.m gcode) 84) as [H84|H84];
      destruct (Z.eqb_spec (Gcode.m gcode) 18) as [H18|H18];
      destruct (Gcode.has_letter gcode "E"%char);
      cbn in H |- *; try contradiction; repeat split; auto.
Qed.

(** ** The end of a move *)

(** X11. The end-of-move handler never changes the stepper, and it
    releases the block exactly when there is a current block and no
    actuator of the robot is moving; otherwise it makes no call. *)
Theorem finished_move_releases_when_all_stopped (s : t) (ev : list Event) (s' : t) :
  stepper_motor_finished_move s = Some (ev, s') ->
  s' = s /\
  (ev = [] \/ ev = [Release]) /\
  (ev = [Release] <->
   is_Some (current_block s) /\ ~ some_moving (actuators s) (motors s)).
Proof.
  unfold stepper_motor_finished_move. intros H.
  destruct (any_moving (actuators s) (motors s)) as [b|] eqn:Hany; [|discriminate H].
  apply any_moving_spec in Hany.
  destruct b.
  - inversion H; subst. split; [reflexivity|]. split; [auto|].
    split; [discriminate|]. intros [_ Hno]. exfalso. apply Hno, Hany. reflexivity.
  - assert (Hno : ~ some_moving (actuators s) (motors s)).
    { intros Hsome. apply Hany in Hsome. discriminate Hsome. }
    destruct (current_block s) as [blk|]; inversion H; subst.
    + split; [reflexivity|]. split; [auto|]. split; [eauto|reflexivity].
    + split; [reflexivity|]. split; [auto|]. split; [discriminate|].
      intros [[x Hx] _]. discriminate Hx.
Qed.

(** X29. Once [on_block_end] has discarded the block, nothing drives the
    motors from the stepper until a block begins: a trapezoid tick makes no
    call and changes nothing, an end-of-move signal releases nothing, and
    the rate, the motors and the pause flag are kept as they were. *)
Theorem block_end_silences_stepper
    (set_speed : float -> StepperMotor -> StepperMotor) (s : t) :
  let s0 := on_block_end s in
  trapezoid_generator_tick set_speed s0 = Some ([], s0) /\
  (forall ev s', stepper_motor_finished_move s0 = Some (ev, s') -> ev = [] /\ s' = s0) /\
  current_block s0 = None /\
  trapezoid_adjusted_rate s0 = trapezoid_adjusted_rate s /\
  motors s0 = motors s /\
  paused s0 = paused s.
Proof.
  cbn zeta. split; [reflexivity|]. split; [|repeat split].
  intros ev s' H. unfold stepper_motor_finished_move in H.
  cbn [on_block_end actuators motors current_block set_current_block] in H.
  destruct (any_moving (actuators s) (motors s)) as [[|]|]; inversion H; auto.
Qed.

(** ** The properties on examples *)

Lemma real_block_10_400 : real_block block_10_400.
Proof. split; [reflexivity|]. left. reflexivity. Qed.

Lemma actuators_live_at_rest : actuators_live at_rest.
Proof.
  intros a Ha. change (actuators at_rest) with [1%N; 2%N; 3%N] in Ha.
  repeat (apply elem_of_cons in Ha; destruct Ha as [->|Ha]);
    [eexists; reflexivity | eexists; reflexivity | eexists; reflexivity | inversion Ha].
Qed.

Lemma main_stepper_is_first_maximum_witness :
  [1%N; 2%N; 3%N] <> [] /\
  (forall a, a ∈ [1%N; 2%N; 3%N] -> is_Some (uneven_motors !! a)) /\
  find_main_stepper [1%N; 2%N; 3%N] uneven_motors None = Some (Some 2%N) /\
  exists r mr pre post,
    find_main_stepper [1%N; 2%N; 3%N] uneven_motors None = Some (Some r) /\
    [1%N; 2%N; 3%N] = pre ++ r :: post /\
    uneven_motors !! r = Some mr /\
    (forall a m, a ∈ pre -> uneven_motors !! a = Some m ->
       steps_to_move m < steps_to_move mr) /\
    (forall a m, a ∈ post -> uneven_motors !! a = Some m ->
       steps_to_move m <= steps_to_move mr).
Proof.
  assert (H1 : [1%N; 2%N; 3%N] <> []) by discriminate.
  assert (H2 : forall a, a ∈ [1%N; 2%N; 3%N] -> is_Some (uneven_motors !! a)).
  { intros a Ha.
    repeat (apply elem_of_cons in Ha; destruct Ha as [->|Ha]);
      [eexists; reflexivity | eexists; reflexivity | eexists; reflexivity | inversion Ha]. }
  split; [exact H1|]. split; [exact H2|]. split; [reflexivity|].
  exact (main_stepper_is_first_maximum [1%N; 2%N; 3%N] uneven_motors H1 H2).
Defined.

Lemma on_block_begin_takes_block_witness :
  real_block block_10_400 /\
  exists ev s',
    on_block_begin keep_speed block_10_400 drivers_off = Some (ev, s') /\
    current_block s' = Some block_10_400 /\
    trapezoid_adjusted_rate s' = f_of_Z 100 /\
    enable_pins_status drivers_off = false /\
    enable_pins_status s' = true.
Proof.
  split; [exact real_block_10_400|].
  destruct (on_block_begin keep_speed block_10_400 drivers_off) as [[ev s']|] eqn:H.
  - exists ev, s'. split; [reflexivity|].
    destruct (on_block_begin_takes_block keep_speed block_10_400 drivers_off ev s'
                real_block_10_400 H) as [Hb [Hr [He _]]].
    split; [exact Hb|]. split; [exact Hr|]. split; [reflexivity|exact He].
  - exfalso. vm_compute in H. discriminate H.
Defined.

Lemma on_block_begin_calls_witness :
  real_block block_10_400 /\
  exists ev s' tail,
    on_block_begin keep_speed block_10_400 drivers_off = Some (ev, s') /\
    ev = Take :: [Enable 1%N true; Enable 2%N true; Enable 3%N true]
              ++ [Move 1%N false 10; Move 2%N false 400] ++ tail /\
    Forall (fun e => is_speed e || is_sync e = true) tail.
Proof.
  split; [exact real_block_10_400|].
  destruct (on_block_begin keep_speed block_10_400 drivers_off) as [[ev s']|] eqn:H.
  - destruct (on_block_begin_calls keep_speed block_10_400 drivers_off ev s'
                real_block_10_400 H) as [tail [Hev Htail]].
    exists ev, s', tail. split; [reflexivity|]. split; [exact Hev|exact Htail].
  - exfalso. vm_compute in H. discriminate H.
Defined.

Lemma on_block_begin_returns_witness :
  real_block block_10_400 /\ actuators_live at_rest /\
  (3 <= length (actuators at_rest))%nat /\
  is_Some (on_block_begin keep_speed block_10_400 at_rest).
Proof.
  assert (H3 : (3 <= length (actuators at_rest))%nat) by (cbn; lia).
  split; [exact real_block_10_400|]. split; [exact actuators_live_at_rest|].
  split; [exact H3|].
  exact (on_block_begin_returns keep_speed block_10_400 at_rest
           real_block_10_400 actuators_live_at_rest H3).
Defined.

Lemma on_block_begin_missing_actuator_witness :
  let s := running block_trapezoid 400 (f_of_Z 100) false in
  real_block block_gamma /\ (2 < 3)%nat /\ steps block_gamma 2 <> 0 /\
  actuators s = [1%N; 2%N] /\
  on_block_begin keep_speed block_gamma s = None.
Proof.
  intros s.
  assert (H1 : real_block block_gamma).
  { split; [reflexivity|]. right. right. reflexivity. }
  assert (H2 : (2 < 3)%nat) by lia.
  assert (H3 : steps block_gamma 2 <> 0) by discriminate.
  split; [exact H1|]. split; [exact H2|]. split; [exact H3|]. split; [reflexivity|].
  exact (on_block_begin_missing_actuator keep_speed block_gamma s 2 H1 H2 H3 eq_refl).
Defined.

Lemma cruise_tick_witness :
  let s := running block_trapezoid 4 (f_of_Z 700) false in
  let mm := mkStepperMotor 400 4 0 (2 ^ 32) false true false (f_of_Z 1) in
  ticking s block_trapezoid mm /\ actuators_live s /\
  force_speed_update s = false /\ flush s = false /\
  wrap32 (accelerate_until block_trapezoid + 1) < stepped mm /\
  stepped mm <= decelerate_after block_trapezoid /\
  exists ev s',
    trapezoid_generator_tick keep_speed s = Some (ev, s') /\
    trapezoid_adjusted_rate s' = f_of_Z 1000.
Proof.
  intros s mm.
  assert (H1 := ticking_running block_trapezoid 4 (f_of_Z 700) false).
  assert (H2 := actuators_live_running block_trapezoid 4 (f_of_Z 700) false).
  assert (H5 : wrap32 (accelerate_until block_trapezoid + 1) < stepped mm)
    by (vm_compute; reflexivity).
  assert (H6 : stepped mm <= decelerate_after block_trapezoid)
    by (vm_compute; discriminate).
  split; [exact H1|]. split; [exact H2|]. split; [reflexivity|]. split; [reflexivity|].
  split; [exact H5|]. split; [exact H6|].
  destruct (cruise_tick keep_speed s block_trapezoid mm H1 H2 eq_refl eq_refl H5 H6)
    as [ev [s' [Heq [Hrate _]]]].
  exists ev, s'. split; [exact Heq | exact Hrate].
Defined.

Lemma forced_tick_pushes_rate_unchanged_witness :
  let s := set_force_speed_update true (running block_trapezoid 9 (f_of_Z 20) true) in
  let mm := mkStepperMotor 400 9 0 (2 ^ 32) false true false (f_of_Z 1) in
  ticking s block_trapezoid mm /\ actuators_live s /\ NoDup (actuators s) /\
  force_speed_update s = true /\
  exists ms',
    trapezoid_generator_tick keep_speed s
      = Some ([SetSpeed 1%N (f_of_Z 50); SetSpeed 2%N (f_of_Z 50); SpeedChange],
              set_motors ms' (running block_trapezoid 9 (f_of_Z 20) true)).
Proof.
  intros s mm.
  assert (H1 : ticking s block_trapezoid mm).
  { split; [reflexivity|]. split; [reflexivity|]. split; [discriminate|].
    exists 1%N. split; reflexivity. }
  assert (H2 : actuators_live s)
    by exact (actuators_live_running block_trapezoid 9 (f_of_Z 20) true).
  assert (H3 : NoDup (actuators s))
    by exact (NoDup_actuators_running block_trapezoid 9 (f_of_Z 20) true).
  split; [exact H1|]. split; [exact H2|]. split; [exact H3|]. split; [reflexivity|].
  destruct (forced_tick_pushes_rate_unchanged keep_speed s block_trapezoid mm
              H1 H2 H3 eq_refl) as [ms' [Heq _]].
  exists ms'. exact Heq.
Defined.

Lemma tick_changes_rate_and_motors_only_witness :
  let s := running block_trapezoid 3 (f_of_Z 50) true in
  exists ev s',
    trapezoid_generator_tick keep_speed s = Some (ev, s') /\
    ev = [Move 1%N false 0; Move 2%N true 0; Release] /\
    current_block s' = Some block_trapezoid /\
    main_stepper s' = Some 1%N.
Proof.
  intros s.
  destruct (trapezoid_generator_tick keep_speed s) as [[ev s']|] eqn:H.
  - exists ev, s'. split; [reflexivity|].
    destruct (tick_changes_rate_and_motors_only keep_speed s ev s' H)
      as [Hb [_ [_ [_ [Hm _]]]]].
    split; [|split; [exact Hb|exact Hm]].
    vm_compute in H. inversion H. reflexivity.
  - exfalso. vm_compute in H. discriminate H.
Defined.

Lemma pause_play_round_trip_witness :
  let s := running block_trapezoid 4 (f_of_Z 700) false in
  paused s = false /\
  snd (on_play (snd (on_pause s))) = s /\
  fst (on_pause s) = [Pause 1%N; Pause 2%N] /\
  trapezoid_generator_tick keep_speed (snd (on_pause s)) = Some ([], snd (on_pause s)).
Proof.
  intros s.
  destruct (pause_play_round_trip keep_speed s eq_refl) as [H1 [H2 [_ [_ H5]]]].
  split; [reflexivity|]. split; [exact H1|]. split; [exact H2|exact H5].
Defined.

Lemma executed_gcodes_are_queued_witness :
  let g := gcode_M 84 [] in
  on_gcode_execute g at_rest <> ([], at_rest) /\
  on_gcode_received g = [AppendGcode g] /\
  fst (on_gcode_execute g at_rest) = [Enable 1%N false; Enable 2%N false; Enable 3%N false] /\
  on_gcode_execute (gcode_M 84 ["E"%char]) at_rest = ([], at_rest).
Proof.
  intros g.
  assert (H : on_gcode_execute g at_rest <> ([], at_rest)).
  { intros Heq. apply (f_equal fst) in Heq. discriminate Heq. }
  destruct (executed_gcodes_are_queued g at_rest H) as [H1 [H2 _]].
  split; [exact H|]. split; [exact H1|]. split; [exact H2|]. reflexivity.
Defined.

Lemma finished_move_releases_when_all_stopped_witness :
  let s := set_current_block (Some block_10_400) at_rest in
  stepper_motor_finished_move s = Some ([Release], s) /\
  is_Some (current_block s) /\ ~ some_moving (actuators s) (motors s).
Proof.
  intros s.
  assert (H : stepper_motor_finished_move s = Some ([Release], s)) by reflexivity.
  split; [exact H|].
  destruct (finished_move_releases_when_all_stopped s [Release] s H) as [_ [_ Hiff]].
  apply Hiff. reflexivity.
Defined.

Lemma block_after_config_reload_enables_drivers_witness :
  real_block block_10_400 /\
  exists ev s',
    on_block_begin keep_speed block_10_400 (snd (on_config_reload (f_of_Z 50) at_rest))
      = Some (ev, s') /\
    fst (on_config_reload (f_of_Z 50) at_rest)
      = [Enable 1%N false; Enable 2%N false; Enable 3%N false] /\
    enable_pins_status s' = true /\
    exists tail,
      ev = Take :: [Enable 1%N true; Enable 2%N true; Enable 3%N true] ++ tail /\
      Forall (fun e => is_enable e = false) tail.
Proof.
  split; [exact real_block_10_400|].
  destruct (on_block_begin keep_speed block_10_400 (snd (on_config_reload (f_of_Z 50) at_rest)))
    as [[ev s']|] eqn:H.
  - destruct (block_after_config_reload_enables_drivers keep_speed (f_of_Z 50)
                block_10_400 at_rest ev s' real_block_10_400 H)
      as [Hoff [_ [Hon [_ Htail]]]].
    exists ev, s'. split; [reflexivity|]. split; [exact Hoff|]. split; [exact Hon|exact Htail].
  - exfalso. vm_compute in H. discriminate H.
Defined.

Lemma block_end_silences_stepper_witness :
  let s := running block_trapezoid 400 (f_of_Z 100) false in
  current_block s = Some block_trapezoid /\
  trapezoid_generator_tick keep_speed (on_block_end s) = Some ([], on_block_end s) /\
  stepper_motor_finished_move (on_block_end s) = Some ([], on_block_end s).
Proof.
  intros s.
  destruct (block_end_silences_stepper keep_speed s) as [Htick [Hfin _]].
  split; [reflexivity|]. split; [exact Htick|].
  destruct (stepper_motor_finished_move (on_block_end s)) as [[ev s']|] eqn:H.
  - destruct (Hfin ev s' eq_refl) as [-> ->]. reflexivity.
  - exfalso. vm_compute in H. discriminate H.
Defined.

Lemma begun_block_is_not_released_witness :
  (forall w m, moving (keep_speed w m) = moving m) /\
  (forall i, 0 <= steps block_10_400 i) /\
  real_block block_10_400 /\ actuators_live at_rest /\
  exists ev s',
    on_block_begin keep_speed block_10_400 at_rest = Some (ev, s') /\
    stepper_motor_finished_move s' = Some ([], s').
Proof.
  assert (H1 : forall w m, moving (keep_speed w m) = moving m) by reflexivity.
  assert (H2 : forall i, 0 <= steps block_10_400 i).
  { intros i. do 3 (destruct i as [|i]; [cbn; lia|]). cbn. lia. }
  split; [exact H1|]. split; [exact H2|]. split; [exact real_block_10_400|].
  split; [exact actuators_live_at_rest|].
  destruct (on_block_begin keep_speed block_10_400 at_rest) as [[ev s']|] eqn:H.
  - exists ev, s'. split; [reflexivity|].
    exact (proj2 (begun_block_is_not_released keep_speed block_10_400 at_rest ev s'
                    H1 H2 real_block_10_400 actuators_live_at_rest H)).
  - exfalso. vm_compute in H. discriminate H.
Defined.

End StepperExtra.
